(** * Segment trees of arbor: a shallow embedding of
      [arbor/morph/segment_tree.cpp] and the properties of its operations.

    Conventions of the embedding.
    - [msize_t] is an unsigned 32-bit integer, a value of [N] below [2^32];
      the sentinel [mnpos] is [msize_t(-1)].  [int] is a signed 32-bit
      integer, a value of [Z].  [std::size_t] values are lengths of vectors
      and are not truncated.  Narrowing to [msize_t] is [to_msize], narrowing
      to [int] and the overflow of [int] arithmetic is [to_int] (two's
      complement wrap-around), the conversion of an [int] operand to unsigned
      is [int_to_msize].
    - [std::vector] is [list]; [v[i]] is the partial lookup [vec_at v i], and
      a read outside the bounds (undefined in C++) is the error
      [out_of_range].
    - [throw] is the [Throw] constructor of [result]; member functions that
      mutate [*this] return the forest after the call next to their outcome.
    - [while] loops over an explicit stack take a fuel argument; running out
      of it is the error [out_of_fuel]. *)

From Stdlib Require Import NArith ZArith List Bool Lia Permutation Sorted.
From stdpp Require Import base option list sorting gmap.
Import ListNotations.

Local Open Scope N_scope.

(** ** Indices and errors *)

Abbreviation msize_t := N (only parsing).

(** Modelled from the spec: the reserved sentinel index meaning "no parent";
    [arbor/morph/primitives.hpp] is not part of the sources at hand, the value
    is [msize_t(-1)] for a 32-bit [msize_t]. *)
Definition mnpos : msize_t := 4294967295.

Definition to_msize (n : N) : msize_t := n mod 4294967296.

Definition to_int (z : Z) : Z :=
  ((z + 2147483648) mod 4294967296 - 2147483648)%Z.

Definition int_to_msize (z : Z) : msize_t := Z.to_N (z mod 4294967296).

(** [INT_MAX] *)
Definition int_max : N := 2147483647.

Inductive error : Type :=
| invalid_segment_parent (parent tree_size : msize_t)
| no_such_segment (i : msize_t)
| unpruned_child (par seg : msize_t) (tag : Z)
| out_of_range
| out_of_fuel.

Inductive result (A : Type) : Type :=
| Return (a : A)
| Throw (e : error).
Arguments Return {A} a.
Arguments Throw {A} e.

Definition bind {A B} (m : result A) (k : A -> result B) : result B :=
  match m with
  | Return a => k a
  | Throw e => Throw e
  end.

Notation "'do' x <- m ; k" := (bind m (fun x => k))
  (at level 10, x pattern, m at level 100, k at level 200).

(** [v[i]]: defined inside the bounds of the vector only. *)
Definition vec_at {A} (v : list A) (i : N) : result A :=
  match v !! N.to_nat i with
  | Some a => Return a
  | None => Throw out_of_range
  end.

(** [v.size()] *)
Definition vec_size {A} (v : list A) : N := N.of_nat (length v).

(** [make_span(0, n)]: the indices [0, 1, ..., n-1]. *)
Definition make_span (n : N) : list N := map N.of_nat (seq 0 (N.to_nat n)).

(** A [for] loop over a range whose body may throw. *)
Fixpoint for_each {A S} (body : S -> A -> result S) (l : list A) (s : S)
  : result S :=
  match l with
  | [] => Return s
  | a :: l' => do s' <- body s a; for_each body l' s'
  end.

(** Modelled from the spec: [std::sort] with a comparator, which the sources
    at hand use and do not define.  An insertion sort that keeps the order of
    elements the comparator does not separate. *)
Fixpoint sort_insert {A} (lt : A -> A -> bool) (x : A) (l : list A) : list A :=
  match l with
  | [] => [x]
  | y :: l' => if lt y x then y :: sort_insert lt x l' else x :: y :: l'
  end.

Fixpoint std_sort {A} (lt : A -> A -> bool) (l : list A) : list A :=
  match l with
  | [] => []
  | x :: l' => sort_insert lt x (std_sort lt l')
  end.

(** Modelled from the spec: [std::upper_bound(first, last, v)] on a range of
    [int] searched for an [msize_t]; the distance from [first] to the first
    element that [v] is less than (the range is ordered where it is used). *)
Fixpoint upper_bound (l : list Z) (v : msize_t) : N :=
  match l with
  | [] => 0
  | e :: l' => if v <? int_to_msize e then 0 else 1 + upper_bound l' v
  end.

(** ** The forest *)

Section SegmentTree.

(** The point type is opaque to this file: [mpoint] of
    [arbor/morph/primitives.hpp], with its equality and its order. *)
Context {mpoint : Type}.

Record msegment : Type := mk_msegment {
  id : msize_t;
  prox : mpoint;
  dist : mpoint;
  tag : Z;
}.

(** Modelled from the spec: the per-segment child counter [child_prop] of
    [segment_tree.hpp] (not part of the sources at hand): a count that starts
    at zero, fork means at least two children, terminal means none. *)
Record child_prop : Type := mk_child_prop { count : Z }.

Definition child_prop_init : child_prop := mk_child_prop 0.
Definition increment (c : child_prop) : child_prop := mk_child_prop (count c + 1).
Definition child_is_fork (c : child_prop) : bool := (1 <? count c)%Z.
Definition child_is_terminal (c : child_prop) : bool := (count c =? 0)%Z.

Record segment_tree : Type := mk_segment_tree {
  segments_ : list msegment;
  parents_ : list msize_t;
  seg_children_ : list child_prop;
}.

(** The default-constructed forest. *)
Definition empty_tree : segment_tree := mk_segment_tree [] [] [].

Definition size (t : segment_tree) : msize_t := to_msize (vec_size (segments_ t)).
Definition empty (t : segment_tree) : bool :=
  match segments_ t with [] => true | _ => false end.
Definition segments (t : segment_tree) : list msegment := segments_ t.
Definition parents (t : segment_tree) : list msize_t := parents_ t.

(** [segment_tree::append(p, prox, dist, tag)]: the forest after the call and
    the outcome.  Nothing is written before the [throw]. *)
Definition append (t : segment_tree) (p : msize_t) (prox dist : mpoint) (tag : Z)
  : segment_tree * result msize_t :=
  if (size t <=? p) && negb (p =? mnpos) then
    (t, Throw (invalid_segment_parent p (size t)))
  else
    let id := size t in
    let segs := segments_ t ++ [mk_msegment id prox dist tag] in
    let pars := parents_ t ++ [p] in
    let chld := seg_children_ t ++ [child_prop_init] in
    if negb (p =? mnpos) then
      match chld !! N.to_nat p with
      | Some c =>
          (mk_segment_tree segs pars (<[N.to_nat p := increment c]> chld),
           Return id)
      | None => (mk_segment_tree segs pars chld, Throw out_of_range)
      end
    else (mk_segment_tree segs pars chld, Return id).

(** [segment_tree::append(p, dist, tag)]: the proximal end is the distal end
    of the parent. *)
Definition append_dist (t : segment_tree) (p : msize_t) (d : mpoint) (tag : Z)
  : segment_tree * result msize_t :=
  if p =? mnpos then (t, Throw (invalid_segment_parent p (size t)))
  else if size t <=? p then (t, Throw (invalid_segment_parent p (size t)))
  else
    match vec_at (segments_ t) p with
    | Return s => append t p (dist s) d tag
    | Throw e => (t, Throw e)
    end.

Definition is_fork (t : segment_tree) (i : msize_t) : result bool :=
  if size t <=? i then Throw (no_such_segment i)
  else do c <- vec_at (seg_children_ t) i; Return (child_is_fork c).

Definition is_terminal (t : segment_tree) (i : msize_t) : result bool :=
  if size t <=? i then Throw (no_such_segment i)
  else do c <- vec_at (seg_children_ t) i; Return (child_is_terminal c).

Definition is_root (t : segment_tree) (i : msize_t) : result bool :=
  if size t <=? i then Throw (no_such_segment i)
  else do p <- vec_at (parents_ t) i; Return (p =? mnpos).

(** [invert parent <*> child relation, returns a map of parent_id ->
    [children_id]]; every bucket is sorted. *)
Definition tree_to_children (tree : segment_tree)
  : result (gmap msize_t (list msize_t)) :=
  do res <- for_each
              (fun (res : gmap msize_t (list msize_t)) ix =>
                 do p <- vec_at (parents tree) ix;
                 Return (<[p := (res !!! p) ++ [ix]]> res))
              (make_span (size tree)) ∅;
  Return (std_sort N.ltb <$> res).

Record node_t : Type := mk_node { node_parent : msize_t; node_id : msize_t }.

Definition node_p : Type := node_t -> bool.

Definition yes : node_p := fun _ => true.

(** The [while (!todo.empty())] loop of [copy_subtree_if].  The stack [todo]
    is a list whose head is [todo.back()]; pushing the children one after the
    other leaves the last of them on top. *)
Fixpoint copy_subtree_loop (fuel : nat) (children_of : gmap msize_t (list msize_t))
    (segments : list msegment) (predicate : node_p)
    (res : segment_tree) (todo : list node_t) {struct fuel}
  : result segment_tree :=
  match todo with
  | [] => Return res
  | node :: todo =>
      match fuel with
      | O => Throw out_of_fuel
      | S fuel =>
          if negb (predicate node) then
            copy_subtree_loop fuel children_of segments predicate res todo
          else
            do segment <- vec_at segments (node_id node);
            match append res (node_parent node) (prox segment) (dist segment)
                         (tag segment) with
            | (res, Return current) =>
                let todo :=
                  fold_left (fun todo child => mk_node current child :: todo)
                            (children_of !!! node_id node) todo in
                copy_subtree_loop fuel children_of segments predicate res todo
            | (_, Throw e) => Throw e
            end
      end
  end.

(** [copy_subtree_if(tree, start, predicate, init)].  Every turn of the loop
    pops one entry, and an index of [tree] is pushed once at most unless the
    parent links of [tree] form a cycle, so [size tree + 1] turns are enough
    whenever the loop ends at all. *)
Definition copy_subtree_if (tree : segment_tree) (start : node_t)
    (predicate : node_p) (init : segment_tree) : result segment_tree :=
  do children_of <- tree_to_children tree;
  copy_subtree_loop (S (length (segments tree))) children_of (segments tree)
                    predicate init [start].

(** The roots collected by [split_at], in ascending order. *)
Definition split_roots (tree : segment_tree) : result (list msize_t) :=
  for_each (fun roots i =>
              do r <- is_root tree (to_msize i);
              Return (if r then roots ++ [to_msize i] else roots))
           (make_span (vec_size (segments tree))) [].

Definition split_at (tree : segment_tree) (at_ : msize_t)
  : result (segment_tree * segment_tree) :=
  if (size tree <=? at_) || (at_ =? mnpos) then
    Throw (invalid_segment_parent at_ (size tree))
  else
    do post <- copy_subtree_if tree (mk_node mnpos at_) yes empty_tree;
    do roots <- split_roots tree;
    do pre <- for_each
                (fun pre root =>
                   copy_subtree_if tree (mk_node mnpos root)
                     (fun node => negb (node_id node =? at_)) pre)
                roots empty_tree;
    Return (pre, post).

Definition join_at (lhs : segment_tree) (at_ : msize_t) (rhs : segment_tree)
  : result segment_tree :=
  if (size lhs <=? at_) && negb (at_ =? mnpos) then
    Throw (invalid_segment_parent at_ (size lhs))
  else copy_subtree_if rhs (mk_node at_ 0) yes lhs.

(** [apply(tree, iso)]; [iso] is the point map [isometry::apply]. *)
Definition apply (tree : segment_tree) (iso : mpoint -> mpoint) : segment_tree :=
  mk_segment_tree
    (map (fun seg => mk_msegment (id seg) (iso (prox seg)) (iso (dist seg)) (tag seg))
         (segments_ tree))
    (parents_ tree)
    (seg_children_ tree).

(** [tag_roots(t, tag)] *)
Definition tag_roots (t : segment_tree) (tag_ : Z) : result (list msize_t) :=
  let segments := segments t in
  let parents := parents t in
  for_each
    (fun tag_roots i =>
       do par <- vec_at parents i;
       do seg <- vec_at segments i;
       do is_tag_root <-
         (if (tag seg =? tag_)%Z then
            if par =? mnpos then Return true
            else do pseg <- vec_at segments par; Return (negb (tag pseg =? tag_)%Z)
          else Return false);
       Return (if is_tag_root then tag_roots ++ [to_msize i] else tag_roots))
    (make_span (vec_size segments)) [].

(** The locals of [prune_tag] that its first loop writes. *)
Record prune_scan : Type := mk_prune_scan {
  num_pruned : Z;
  pruned_id_upper_bounds : list Z;
  pruned_id_offsets : list Z;
  scan_tag_roots : list msize_t;
}.

(** Body of the first loop of [prune_tag]. *)
Definition prune_scan_step (in_segments : list msegment)
    (in_parents : list msize_t) (tag_ : Z) (st : prune_scan) (i : N)
  : result prune_scan :=
  do seg <- vec_at in_segments i;
  if (tag seg =? tag_)%Z then
    let num_pruned := to_int (num_pruned st + 1) in
    do par <- vec_at in_parents i;
    do is_tag_root <-
      (if (tag seg =? tag_)%Z then
         if par =? mnpos then Return true
         else do pseg <- vec_at in_segments par; Return (negb (tag pseg =? tag_)%Z)
       else Return false);
    let tag_roots :=
      if is_tag_root then scan_tag_roots st ++ [to_msize i]
      else scan_tag_roots st in
    do run_ends <-
      (if i + 1 <? vec_size in_segments then
         do next <- vec_at in_segments (i + 1);
         Return (negb (tag next =? tag_)%Z)
       else Return false);
    if run_ends then
      Return (mk_prune_scan num_pruned
                (pruned_id_upper_bounds st ++ [to_int (Z.of_N (i + 1))])
                (pruned_id_offsets st ++ [num_pruned])
                tag_roots)
    else
      Return (mk_prune_scan num_pruned (pruned_id_upper_bounds st)
                (pruned_id_offsets st) tag_roots)
  else Return st.

(** [ui > 0 ? pruned_id_offsets[ui-1] : 0] for the [ui] that
    [upper_bound] finds for [par]. *)
Definition prune_offset (st : prune_scan) (par : msize_t) : result Z :=
  let ui := upper_bound (pruned_id_upper_bounds st) par in
  if 0 <? ui then vec_at (pruned_id_offsets st) (ui - 1) else Return 0%Z.

(** The new index of a surviving parent [par]: [par -= ui > 0 ?
    pruned_id_offsets[ui-1] : 0], an unsigned subtraction. *)
Definition prune_shift (st : prune_scan) (par : msize_t) : result msize_t :=
  do off <- prune_offset st par;
  Return (int_to_msize (Z.of_N par - off)).

(** Body of the second loop of [prune_tag]. *)
Definition prune_copy_step (in_segments : list msegment)
    (in_parents : list msize_t) (tag_ : Z) (st : prune_scan)
    (out : segment_tree) (i : N) : result segment_tree :=
  do seg <- vec_at in_segments i;
  do par <- vec_at in_parents i;
  if negb (tag seg =? tag_)%Z then
    do parent_pruned <-
      (if negb (par =? mnpos) then
         do pseg <- vec_at in_segments par; Return (tag pseg =? tag_)%Z
       else Return false);
    if parent_pruned then Throw (unpruned_child par (id seg) tag_)
    else
      do par <- (if negb (par =? mnpos) then prune_shift st par else Return par);
      match append out par (prox seg) (dist seg) (tag seg) with
      | (out, Return _) => Return out
      | (_, Throw e) => Throw e
      end
  else Return out.

Definition prune_tag (in_ : segment_tree) (tag_ : Z)
  : result (segment_tree * list msize_t) :=
  let in_segments := segments in_ in
  let in_parents := parents in_ in
  do st <- for_each (prune_scan_step in_segments in_parents tag_)
             (make_span (vec_size in_segments)) (mk_prune_scan 0 [] [] []);
  do out <- for_each (prune_copy_step in_segments in_parents tag_ st)
              (make_span (vec_size in_segments)) empty_tree;
  Return (out, scan_tag_roots st).

End SegmentTree.

(** ** Structural equivalence *)

(** The operations the forest code asks of [mpoint]: [operator==] and
    [operator<]. *)
Class PointOps (mpoint : Type) : Type := {
  point_eqb : mpoint -> mpoint -> bool;
  point_ltb : mpoint -> mpoint -> bool;
}.

(** [operator==] is equality and [operator<] is a strict total order. *)
Class PointOrder (mpoint : Type) `{PointOps mpoint} : Prop := {
  point_eqb_eq : forall x y, point_eqb x y = true <-> x = y;
  point_ltb_irrefl : forall x, point_ltb x x = false;
  point_ltb_trans : forall x y z,
    point_ltb x y = true -> point_ltb y z = true -> point_ltb x z = true;
  point_ltb_total : forall x y,
    x <> y -> point_ltb x y = true \/ point_ltb y x = true;
}.

Section Equivalent.

Context {mpoint : Type} {point_ops : PointOps mpoint}.

(** [std::sort] leaves the order of elements that compare equal open, so the
    loop is written over the sorting function; [equivalent] below runs it
    with [std_sort]. *)
Variable sort_segments :
  (@msegment mpoint -> @msegment mpoint -> bool) -> list (@msegment mpoint) ->
  list (@msegment mpoint).

(** Modelled from the spec: [operator<] of [msegment], declared in
    [arbor/morph/primitives.hpp] (not part of the sources at hand): the
    lexicographic order on id, proximal point, distal point and tag. *)
Definition msegment_ltb (l r : @msegment mpoint) : bool :=
  if id l <? id r then true else if id r <? id l then false
  else if point_ltb (prox l) (prox r) then true
  else if point_ltb (prox r) (prox l) then false
  else if point_ltb (dist l) (dist r) then true
  else if point_ltb (dist r) (dist l) then false
  else (tag l <? tag r)%Z.

(** The comparator [[](auto l, auto r) { l.id = r.id = 0; return l < r; }]. *)
Definition fetch_children_less (l r : @msegment mpoint) : bool :=
  msegment_ltb (mk_msegment 0 (prox l) (dist l) (tag l))
               (mk_msegment 0 (prox r) (dist r) (tag r)).

(** The lambda [fetch_children] of [equivalent]. *)
Definition fetch_children (cursor : msize_t) (segments : list (@msegment mpoint))
    (children_of : gmap msize_t (list msize_t)) : result (list msegment) :=
  do segs <- for_each (fun segs ix => do s <- vec_at segments ix; Return (segs ++ [s]))
               (children_of !!! cursor) [];
  Return (sort_segments fetch_children_less segs).

(** The inner [for] loop of [equivalent] over two lists of one length:
    [None] is [return false], otherwise the stack with the matched pairs
    pushed. *)
Fixpoint match_children (as_ bs : list (@msegment mpoint))
    (todo : list (msize_t * msize_t)) : option (list (msize_t * msize_t)) :=
  match as_, bs with
  | a :: as_, b :: bs =>
      if negb (point_eqb (prox a) (prox b)) || negb (point_eqb (dist a) (dist b))
         || negb (tag a =? tag b)%Z
      then None
      else match_children as_ bs ((id a, id b) :: todo)
  | _, _ => Some todo
  end.

(** The [while (!todo.empty())] loop of [equivalent]; the head of [todo] is
    [todo.back()]. *)
Fixpoint equivalent_loop (fuel : nat) (a b : @segment_tree mpoint)
    (a_children_of b_children_of : gmap msize_t (list msize_t))
    (todo : list (msize_t * msize_t)) {struct fuel} : result bool :=
  match todo with
  | [] => Return true
  | (a_cursor, b_cursor) :: todo =>
      match fuel with
      | O => Throw out_of_fuel
      | S fuel =>
          do as_ <- fetch_children a_cursor (segments a) a_children_of;
          do bs <- fetch_children b_cursor (segments b) b_children_of;
          if negb (vec_size as_ =? vec_size bs) then Return false
          else
            match match_children as_ bs todo with
            | None => Return false
            | Some todo =>
                equivalent_loop fuel a b a_children_of b_children_of todo
            end
      end
  end.

(** [equivalent(a, b)].  A turn of the loop pops one pair, and a pair is
    pushed for a child of the popped pair only, so [size a + 1] turns are
    enough unless the parent links form a cycle. *)
Definition equivalent_by (a b : @segment_tree mpoint) : result bool :=
  if negb (size a =? size b) then Return false
  else
    do a_children_of <- tree_to_children a;
    do b_children_of <- tree_to_children b;
    equivalent_loop (S (length (segments a))) a b a_children_of b_children_of
                    [(mnpos, mnpos)].

End Equivalent.

Definition equivalent {mpoint : Type} {point_ops : PointOps mpoint}
    (a b : @segment_tree mpoint) : result bool :=
  equivalent_by (@std_sort _) a b.

(** ** Forests that differ in the order of siblings *)

Section Reordering.

Context {mpoint : Type} {point_ops : PointOps mpoint}.

Definition same_geometry (a b : @msegment mpoint) : bool :=
  point_eqb (prox a) (prox b) && point_eqb (dist a) (dist b) &&
  (tag a =? tag b)%Z.

(** What the comparator of [fetch_children] looks at. *)
Definition segment_key (s : @msegment mpoint) : mpoint * mpoint * Z :=
  (prox s, dist s, tag s).

(** The order the comparator of [fetch_children] puts on keys. *)
Definition key_ltb (k1 k2 : mpoint * mpoint * Z) : bool :=
  let '(p1, d1, t1) := k1 in
  let '(p2, d2, t2) := k2 in
  if point_ltb p1 p2 then true else if point_ltb p2 p1 then false
  else if point_ltb d1 d2 then true else if point_ltb d2 d1 then false
  else (t1 <? t2)%Z.

(** Segments [i] and [j] have one parent (or are both roots) and one key. *)
Definition tied (t : @segment_tree mpoint) (i j : nat) : bool :=
  match segments t !! i, segments t !! j, parents t !! i, parents t !! j with
  | Some s, Some s', Some p, Some p' => (p =? p') && same_geometry s s'
  | _, _, _, _ => false
  end.

(** No two siblings of the forest, and no two roots, have one key. *)
Definition no_tied_siblings (t : @segment_tree mpoint) : bool :=
  forallb (fun i =>
             forallb (fun j => (i =? j)%nat || negb (tied t i j))
                     (seq 0 (length (segments t))))
          (seq 0 (length (segments t))).

(** The indices whose parent is [q], in ascending order: what the bucket of
    [q] in the children-index map is to hold. *)
Definition children_at (t : @segment_tree mpoint) (q : msize_t) : list msize_t :=
  filter (fun j : N => parents_ t !! N.to_nat j = Some q) (make_span (size t)).

(** Where the renaming [sigma] sends an index, the sentinel staying the
    sentinel. *)
Definition rename (sigma : list N) (x : msize_t) : msize_t :=
  if x =? mnpos then mnpos
  else match sigma !! N.to_nat x with
       | Some y => y
       | None => mnpos
       end.

(** [sigma] sends index [i] of [a] to index [sigma[i]] of [b], keeps
    proximal point, distal point and tag, and sends the parent of [i] to the
    parent of [sigma[i]], a root to a root. *)
Definition maps_segment (sigma : list N) (a b : @segment_tree mpoint) (i : nat)
  : bool :=
  match segments a !! i, parents a !! i, sigma !! i with
  | Some s, Some p, Some j =>
      match segments b !! N.to_nat j, parents b !! N.to_nat j with
      | Some s', Some p' =>
          if same_geometry s s' then
            if p =? mnpos then p' =? mnpos
            else match sigma !! N.to_nat p with
                 | Some q => p' =? q
                 | None => false
                 end
          else false
      | _, _ => false
      end
  | _, _, _ => false
  end.

(** [b] is [a] with its segments appended in the order [sigma]: the
    indices of [a] are renamed one to one, onto those of [b]. *)
Definition is_reordering (sigma : list N) (a b : @segment_tree mpoint) : bool :=
  (length sigma =? length (segments a))%nat &&
  (length (segments b) =? length (segments a))%nat &&
  forallb (fun j => existsb (N.eqb j) sigma) (make_span (vec_size (segments b))) &&
  forallb (maps_segment sigma a b) (seq 0 (length (segments a))).

(** The state of the loop of [equivalent] next to what the loop does not
    store: [done] are the pairs of cursors popped so far, [todo] is the
    stack.  No segment occurs in two pairs, every pair but the pair of
    sentinels joins two segments with one key whose parents were popped as
    a pair, and the children of a popped pair are paired among
    themselves. *)
Record matched_pairs (a b : @segment_tree mpoint) (done todo : list (N * N))
  : Prop := mk_matched_pairs {
  mp_fst : NoDup (map fst (done ++ todo));
  mp_snd : NoDup (map snd (done ++ todo));
  mp_pair : forall x y, (x, y) ∈ done ++ todo ->
      (x = mnpos /\ y = mnpos) \/
      exists sa sb px py,
        segments a !! N.to_nat x = Some sa /\
        segments b !! N.to_nat y = Some sb /\
        segment_key sa = segment_key sb /\
        parents a !! N.to_nat x = Some px /\
        parents b !! N.to_nat y = Some py /\ (px, py) ∈ done;
  mp_closed_a : forall x y c, (x, y) ∈ done ->
      parents a !! N.to_nat c = Some x -> c < vec_size (segments a) ->
      exists d, (c, d) ∈ done ++ todo;
  mp_closed_b : forall x y d, (x, y) ∈ done ->
      parents b !! N.to_nat d = Some y -> d < vec_size (segments b) ->
      exists c, (c, d) ∈ done ++ todo;
}.

End Reordering.

(** ** Forests built by [append] *)

Section Reachable.

Context {mpoint : Type}.
Implicit Types (t : @segment_tree mpoint) (p i : msize_t).

(** The forests a program can hold: the empty one and what a successful
    [append] of either form makes of such a forest. *)
Inductive reachable : @segment_tree mpoint -> Prop :=
| reachable_empty : reachable empty_tree
| reachable_append t p px ds tg t' i :
    reachable t -> append t p px ds tg = (t', Return i) -> reachable t'
| reachable_append_dist t p ds tg t' i :
    reachable t -> append_dist t p ds tg = (t', Return i) -> reachable t'.

(** A run of four-argument appends, [None] as soon as one of them throws. *)
Fixpoint append_all t (l : list (msize_t * mpoint * mpoint * Z))
  : option (@segment_tree mpoint) :=
  match l with
  | [] => Some t
  | (p, px, ds, tg) :: l' =>
      match append t p px ds tg with
      | (t', Return _) => append_all t' l'
      | (_, Throw _) => None
      end
  end.

(** The number of entries of the parent array that name [i]. *)
Definition child_count t (i : N) : nat :=
  length (filter (fun p => p = i) (parents_ t)).

(** What every reachable forest satisfies. *)
Record well_formed t : Prop := mk_well_formed {
  wf_parents_length : length (parents_ t) = length (segments_ t);
  wf_children_length : length (seg_children_ t) = length (segments_ t);
  wf_parent_lt : forall (j : nat) p,
      parents_ t !! j = Some p -> p <> mnpos -> (N.to_nat p < j)%nat;
  wf_id : forall (j : nat) s,
      segments_ t !! j = Some s -> id s = to_msize (N.of_nat j);
  wf_count : forall (j : nat) c,
      seg_children_ t !! j = Some c -> N.of_nat j <> mnpos ->
      count c = Z.of_nat (child_count t (N.of_nat j));
}.

End Reachable.

(** ** What pruning is expected to do *)

Section PruneSpec.

Context {mpoint : Type}.
Implicit Types (t : @segment_tree mpoint) (i : msize_t).

(** Segment [i] carries the tag. *)
Definition is_tagged t (tg : Z) i : bool :=
  match segments t !! N.to_nat i with
  | Some s => (tag s =? tg)%Z
  | None => false
  end.

(** Segment [i] carries the tag and its parent is absent or does not. *)
Definition is_tag_root t (tg : Z) i : bool :=
  if is_tagged t tg i then
    match parents t !! N.to_nat i with
    | Some p => if p =? mnpos then true else negb (is_tagged t tg p)
    | None => false
    end
  else false.

(** Segment [i] survives the pruning and its parent does not. *)
Definition is_unpruned_child t (tg : Z) i : bool :=
  match segments t !! N.to_nat i, parents t !! N.to_nat i with
  | Some s, Some p =>
      if (tag s =? tg)%Z then false
      else if p =? mnpos then false
      else is_tagged t tg p
  | _, _ => false
  end.

(** The number of tagged segments with an index below [k]. *)
Definition pruned_below t (tg : Z) (k : N) : N :=
  vec_size (filter (fun j => is_tagged t tg j = true) (make_span k)).

(** The index of a parent after the pruning. *)
Definition renumber t (tg : Z) (p : msize_t) : msize_t :=
  if p =? mnpos then mnpos else p - pruned_below t tg p.

End PruneSpec.

(** ** What a copy of a subtree keeps

    The state of the loop of [copy_subtree_if] next to what the loop does
    not store: the indices popped so far and the index that every copied
    segment received. *)

Section CopyInvariant.

Context {mpoint : Type}.

(** [t] is the forest read, [accept] the predicate on the ids of its nodes,
    [starts] the nodes the callers have pushed so far, each to hang from
    [start_parent] in the result, and [init] the forest that the first copy
    extended. *)
Variables (t : @segment_tree mpoint) (accept : N -> bool).
Variables (starts : list N) (start_parent : msize_t) (lowest : N).
Variable init : @segment_tree mpoint.

Record copy_invariant (res : @segment_tree mpoint) (image : gmap N N)
    (popped : list N) (todo : list node_t) : Prop := mk_copy_invariant {
  ci_nodup : NoDup (popped ++ map node_id todo);
  ci_range : forall x, x ∈ popped ++ map node_id todo ->
      lowest <= x /\ x < vec_size (segments t);
  ci_origin : forall x, x ∈ popped ++ map node_id todo ->
      x ∈ starts \/
      exists p, parents t !! N.to_nat x = Some p /\ is_Some (image !! p);
  ci_todo : forall nd, nd ∈ todo ->
      ((node_id nd ∈ starts) /\ node_parent nd = start_parent) \/
      ((node_id nd ∉ starts) /\
       exists p, parents t !! N.to_nat (node_id nd) = Some p /\
                 image !! p = Some (node_parent nd));
  ci_copied : forall x, is_Some (image !! x) <-> x ∈ popped /\ accept x = true;
  ci_closed : forall x c, is_Some (image !! x) ->
      parents t !! N.to_nat c = Some x -> c < vec_size (segments t) ->
      c ∈ popped ++ map node_id todo;
  ci_image : forall x y, image !! x = Some y ->
      vec_size (segments init) <= y /\
      exists s s', segments t !! N.to_nat x = Some s /\
        segments res !! N.to_nat y = Some s' /\
        segment_key s = segment_key s' /\
        (((x ∈ starts) /\ parents res !! N.to_nat y = Some start_parent) \/
         ((x ∉ starts) /\ exists p q, parents t !! N.to_nat x = Some p /\
            image !! p = Some q /\ parents res !! N.to_nat y = Some q));
  ci_inj : forall x x' y, image !! x = Some y -> image !! x' = Some y -> x = x';
  ci_onto : forall y, vec_size (segments init) <= y -> y < vec_size (segments res) ->
      exists x, image !! x = Some y;
  ci_segments : exists ext, segments res = segments init ++ ext;
  ci_parents : exists ext, parents res = parents init ++ ext;
  ci_wf : well_formed res;
  ci_size : length (segments res) =
            (length (segments init) +
             length (filter (fun x => accept x = true) popped))%nat;
}.

End CopyInvariant.

(** ** What splitting and joining keep *)

Section SplitSpec.

Context {mpoint : Type}.

(** [x] is [k] or a descendant of [k] in the forest [t]. *)
Inductive below (t : @segment_tree mpoint) (k : N) : N -> Prop :=
| below_self : below t k k
| below_child c p :
    parents t !! N.to_nat c = Some p -> below t k p -> below t k c.

(** [image] numbers the segments of [t] outside the subtree of [k] as
    segments of [pre]: one to one and onto, with the proximal point, the
    distal point and the tag kept, a root staying a root and the parent of
    any other segment being the image of its parent. *)
Record copied_without (t : @segment_tree mpoint) (k : N)
    (pre : @segment_tree mpoint) (image : gmap N N) : Prop := mk_copied_without {
  cw_domain : forall x, is_Some (image !! x) <->
      x < vec_size (segments t) /\ ~ below t k x;
  cw_onto : forall y, y < vec_size (segments pre) -> exists x, image !! x = Some y;
  cw_inj : forall x x' y, image !! x = Some y -> image !! x' = Some y -> x = x';
  cw_segment : forall x y, image !! x = Some y ->
      exists s s', segments t !! N.to_nat x = Some s /\
        segments pre !! N.to_nat y = Some s' /\ segment_key s = segment_key s';
  cw_parent : forall x y, image !! x = Some y ->
      exists p, parents t !! N.to_nat x = Some p /\
        (p = mnpos /\ parents pre !! N.to_nat y = Some mnpos \/
         p <> mnpos /\ exists q, image !! p = Some q /\
                                 parents pre !! N.to_nat y = Some q);
}.

(** [image] numbers the segments of the subtree of [k] in [t] as segments
    of [post], [k] first and as a root. *)
Record copied_subtree (t : @segment_tree mpoint) (k : N)
    (post : @segment_tree mpoint) (image : gmap N N) : Prop := mk_copied_subtree {
  cs_domain : forall x, is_Some (image !! x) <-> below t k x;
  cs_root : image !! k = Some 0;
  cs_onto : forall y, y < vec_size (segments post) -> exists x, image !! x = Some y;
  cs_inj : forall x x' y, image !! x = Some y -> image !! x' = Some y -> x = x';
  cs_segment : forall x y, image !! x = Some y ->
      exists s s', segments t !! N.to_nat x = Some s /\
        segments post !! N.to_nat y = Some s' /\ segment_key s = segment_key s';
  cs_root_parent : parents post !! 0%nat = Some mnpos;
  cs_parent : forall x y, image !! x = Some y -> x <> k ->
      exists p q, parents t !! N.to_nat x = Some p /\ image !! p = Some q /\
                  parents post !! N.to_nat y = Some q;
}.

(** [image] numbers the segments of [rhs] at and below its first segment
    as the segments that [joined] has after those of [lhs]: the first
    segment of [rhs] comes first and hangs from [at_], any other hangs from
    the image of its parent. *)
Record grafted (lhs rhs : @segment_tree mpoint) (at_ : msize_t)
    (joined : @segment_tree mpoint) (image : gmap N N) : Prop := mk_grafted {
  gr_segments : exists ext, segments joined = segments lhs ++ ext;
  gr_parents : exists ext, parents joined = parents lhs ++ ext;
  gr_domain : forall y, is_Some (image !! y) <-> below rhs 0 y;
  gr_root : image !! 0 = Some (vec_size (segments lhs));
  gr_root_parent :
    parents joined !! N.to_nat (vec_size (segments lhs)) = Some at_;
  gr_onto : forall z, vec_size (segments lhs) <= z ->
      z < vec_size (segments joined) -> exists y, image !! y = Some z;
  gr_inj : forall y y' z, image !! y = Some z -> image !! y' = Some z -> y = y';
  gr_segment : forall y z, image !! y = Some z ->
      vec_size (segments lhs) <= z /\
      exists s s', segments rhs !! N.to_nat y = Some s /\
        segments joined !! N.to_nat z = Some s' /\ segment_key s = segment_key s';
  gr_parent : forall y z, image !! y = Some z -> y <> 0 ->
      exists p q, parents rhs !! N.to_nat y = Some p /\ image !! p = Some q /\
                  parents joined !! N.to_nat z = Some q;
}.

(** The renaming that a split at [k] followed by a join composes: an
    index of the subtree of [k] goes through the second tree of the split
    ([rho_post]) and the copy that the join makes of it ([rho_join]), any
    other index through the first tree ([rho_pre]), which the join keeps in
    place. *)
Definition join_renaming (rho_post rho_pre rho_join : gmap N N) (x : N) : N :=
  match rho_post !! x with
  | Some y => default 0 (rho_join !! y)
  | None => default 0 (rho_pre !! x)
  end.

End SplitSpec.

(** ** Sample forests

    Points on a line are enough to tell segments apart. *)

#[export] Instance Z_point_ops : PointOps Z :=
  {| point_eqb := Z.eqb; point_ltb := Z.ltb |}.

(** A root [r], the chain [r -> a -> b] tagged 1 and the branch [r -> c]
    tagged 0 as [r] is. *)
Definition sample_appends : list (msize_t * Z * Z * Z) :=
  [(mnpos, 0%Z, 1%Z, 0%Z); (0, 1%Z, 2%Z, 1%Z); (1, 2%Z, 3%Z, 1%Z);
   (0, 1%Z, 5%Z, 0%Z)].

Definition sample_tree : @segment_tree Z :=
  mk_segment_tree
    [mk_msegment 0 0%Z 1%Z 0%Z; mk_msegment 1 1%Z 2%Z 1%Z;
     mk_msegment 2 2%Z 3%Z 1%Z; mk_msegment 3 1%Z 5%Z 0%Z]
    [mnpos; 0; 1; 0]
    [mk_child_prop 2%Z; mk_child_prop 1%Z; mk_child_prop 0%Z;
     mk_child_prop 0%Z].

(** The same forest with [c] appended before [a] and [b]. *)
Definition sample_reordered_appends : list (msize_t * Z * Z * Z) :=
  [(mnpos, 0%Z, 1%Z, 0%Z); (0, 1%Z, 5%Z, 0%Z); (0, 1%Z, 2%Z, 1%Z);
   (2, 2%Z, 3%Z, 1%Z)].

Definition sample_tree_reordered : @segment_tree Z :=
  mk_segment_tree
    [mk_msegment 0 0%Z 1%Z 0%Z; mk_msegment 1 1%Z 5%Z 0%Z;
     mk_msegment 2 1%Z 2%Z 1%Z; mk_msegment 3 2%Z 3%Z 1%Z]
    [mnpos; 0; 0; 2]
    [mk_child_prop 2%Z; mk_child_prop 0%Z; mk_child_prop 1%Z;
     mk_child_prop 0%Z].

(** A root with two children [a] and [b] of one geometry and tag, and a
    child [d] of [a]. *)
Definition tied_appends : list (msize_t * Z * Z * Z) :=
  [(mnpos, 0%Z, 1%Z, 0%Z); (0, 1%Z, 2%Z, 0%Z); (0, 1%Z, 2%Z, 0%Z);
   (1, 2%Z, 3%Z, 0%Z)].

Definition tied_siblings : @segment_tree Z :=
  mk_segment_tree
    [mk_msegment 0 0%Z 1%Z 0%Z; mk_msegment 1 1%Z 2%Z 0%Z;
     mk_msegment 2 1%Z 2%Z 0%Z; mk_msegment 3 2%Z 3%Z 0%Z]
    [mnpos; 0; 0; 1]
    [mk_child_prop 2%Z; mk_child_prop 1%Z; mk_child_prop 0%Z;
     mk_child_prop 0%Z].

(** The same forest with [b] appended before [a]: [d] hangs from index 2. *)
Definition tied_reordered_appends : list (msize_t * Z * Z * Z) :=
  [(mnpos, 0%Z, 1%Z, 0%Z); (0, 1%Z, 2%Z, 0%Z); (0, 1%Z, 2%Z, 0%Z);
   (2, 2%Z, 3%Z, 0%Z)].

Definition tied_siblings_reordered : @segment_tree Z :=
  mk_segment_tree
    [mk_msegment 0 0%Z 1%Z 0%Z; mk_msegment 1 1%Z 2%Z 0%Z;
     mk_msegment 2 1%Z 2%Z 0%Z; mk_msegment 3 2%Z 3%Z 0%Z]
    [mnpos; 0; 0; 2]
    [mk_child_prop 2%Z; mk_child_prop 0%Z; mk_child_prop 1%Z;
     mk_child_prop 0%Z].

(** What [split_at tied_siblings 1] is to return: the forest without [a] and
    its subtree, and that subtree. *)
Definition tied_pre : @segment_tree Z :=
  mk_segment_tree
    [mk_msegment 0 0%Z 1%Z 0%Z; mk_msegment 1 1%Z 2%Z 0%Z]
    [mnpos; 0]
    [mk_child_prop 1%Z; mk_child_prop 0%Z].

Definition tied_post : @segment_tree Z :=
  mk_segment_tree
    [mk_msegment 0 1%Z 2%Z 0%Z; mk_msegment 1 2%Z 3%Z 0%Z]
    [mnpos; 0]
    [mk_child_prop 1%Z; mk_child_prop 0%Z].

(** * Sparse rows and matrices: [proto/symge/msparse.hpp]

    The embedding of namespace [msparse].  [unsigned] is a 32-bit integer, a
    value of [N] below [2^32]; [throw msparse_error(what)] is [Raise] with a
    constructor for each message of the file, and a read outside a vector
    (undefined in C++) is [Raise index_out_of_bounds]. *)

Module msparse.

Definition to_unsigned (n : N) : N := n mod 4294967296.

(** [row_npos = unsigned(-1)] *)
Definition row_npos : N := 4294967295.

Inductive msparse_error : Type :=
| improper_row_element_list
| cannot_push_back_out_of_order
| right_multiplicand_too_short
| augmented_column_size_mismatch
| output_sequence_b_too_short
| index_out_of_bounds.

Inductive outcome (A : Type) : Type :=
| Value (a : A)
| Raise (e : msparse_error).
Arguments Value {A} a.
Arguments Raise {A} e.

(** What the templates ask of the value type [X]: [X{}], [==], [+=]
    and [*]. *)
Class Scalar (X : Type) : Type := {
  zero : X;
  scalar_eqb : X -> X -> bool;
  add : X -> X -> X;
  mul : X -> X -> X;
}.

Section Row.

Context {X : Type} {scalar : Scalar X}.

Record entry : Type := mk_entry { col : N; value : X }.

(** [row<X>] is its one member [data_], a vector of entries.
    [check_invariant()]: every entry has a column above that of the entry
    before it (the counter of the loop is exact for a vector of fewer than
    [2^32] entries). *)
Fixpoint check_invariant (data : list entry) : bool :=
  match data with
  | a :: (b :: _) as rest =>
      if col b <=? col a then false else check_invariant rest
  | _ => true
  end.

(** The constructors [row(il)] and [row(b, e)]. *)
Definition make_row (il : list entry) : outcome (list entry) :=
  if check_invariant il then Value il else Raise improper_row_element_list.

Definition size (data : list entry) : N := to_unsigned (vec_size data).
Definition empty (data : list entry) : bool := size data =? 0.

(** Modelled from the spec: [std::lower_bound(first, last, c, comp)] with
    [comp(a, b) = a.col < b], which the sources use and do not define: the
    distance from [first] to the first entry whose column is not below [c],
    on a range that the comparator partitions (as the row invariant makes
    it). *)
Fixpoint lower_bound (data : list entry) (c : N) : nat :=
  match data with
  | [] => 0
  | e :: rest => if col e <? c then S (lower_bound rest c) else 0
  end.

(** Modelled from the spec: [std::upper_bound(first, last, c, comp)] with
    [comp(a, b) = a < b.col]: the distance from [first] to the first entry
    whose column is above [c]. *)
Fixpoint upper_bound (data : list entry) (c : N) : nat :=
  match data with
  | [] => 0
  | e :: rest => if c <? col e then 0 else S (upper_bound rest c)
  end.

Definition mincol (data : list entry) : N :=
  if empty data then row_npos
  else match data with
       | e :: _ => col e
       | [] => row_npos
       end.

Definition mincol_after (data : list entry) (c : N) : N :=
  match data !! upper_bound data c with
  | Some e => col e
  | None => row_npos
  end.

Definition maxcol (data : list entry) : N :=
  if empty data then row_npos
  else match last data with
       | Some e => col e
       | None => row_npos
       end.

Definition get (data : list entry) (i : N) : outcome entry :=
  match data !! N.to_nat i with
  | Some e => Value e
  | None => Raise index_out_of_bounds
  end.

Definition push_back (data : list entry) (e : entry) : outcome (list entry) :=
  if negb (empty data) then
    match last data with
    | Some b =>
        if col e <=? col b then Raise cannot_push_back_out_of_order
        else Value (data ++ [e])
    | None => Raise index_out_of_bounds
    end
  else Value (data ++ [e]).

Definition index (data : list entry) (c : N) : N :=
  let i := lower_bound data c in
  match data !! i with
  | Some e => if negb (col e =? c) then row_npos else to_unsigned (N.of_nat i)
  | None => row_npos
  end.

(** [truncate(c)]: remove all entries from column [c] onwards. *)
Definition truncate (data : list entry) (c : N) : list entry :=
  take (lower_bound data c) data.

(** [X operator[](unsigned c) const] *)
Definition read (data : list entry) (c : N) : outcome X :=
  let i := index data c in
  if i =? row_npos then Value zero
  else match data !! N.to_nat i with
       | Some e => Value (value e)
       | None => Raise index_out_of_bounds
       end.

(** [assign_proxy::operator=]: the row after [row[c] = x]. *)
Definition assign (data : list entry) (c : N) (x : X) : list entry :=
  let i := lower_bound data c in
  match data !! i with
  | Some e =>
      if negb (col e =? c) then take i data ++ mk_entry c x :: drop i data
      else if scalar_eqb x zero then take i data ++ drop (S i) data
      else <[i := mk_entry (col e) x]> data
  | None => take i data ++ mk_entry c x :: drop i data
  end.

(** The loop of [dot]; [s] is the sum so far. *)
Fixpoint dot_loop (data : list entry) (v : list X) (s : X) : outcome X :=
  match data with
  | [] => Value s
  | e :: rest =>
      if vec_size v <=? col e then Raise right_multiplicand_too_short
      else match v !! N.to_nat (col e) with
           | Some y => dot_loop rest v (add s (mul (value e) y))
           | None => Raise index_out_of_bounds
           end
  end.

Definition dot (data : list entry) (v : list X) : outcome X :=
  dot_loop data v zero.

(** [matrix<X>] *)
Record matrix : Type := mk_matrix {
  rows : list (list entry);
  cols : N;
  aug : N;
}.

(** [matrix()] and [matrix(n, c)] *)
Definition empty_matrix : matrix := mk_matrix [] 0 row_npos.
Definition make_matrix (n c : N) : matrix :=
  mk_matrix (replicate (N.to_nat n) []) c row_npos.

Definition row_at (m : matrix) (i : N) : outcome (list entry) :=
  match rows m !! N.to_nat i with
  | Some r => Value r
  | None => Raise index_out_of_bounds
  end.

Definition matrix_size (m : matrix) : N := to_unsigned (vec_size (rows m)).
Definition nrow (m : matrix) : N := matrix_size m.
Definition ncol (m : matrix) : N := cols m.
Definition augcol (m : matrix) : N := aug m.
Definition matrix_empty (m : matrix) : bool := matrix_size m =? 0.

(** The loop of [augment]: [r] is the row that the next value goes to.
    The rows written before a throw stay written. *)
Fixpoint augment_loop (rws : list (list entry)) (c : N) (col_dense : list X)
    (r : N) : list (list entry) * outcome unit :=
  match col_dense with
  | [] => (rws, Value tt)
  | v :: rest =>
      if vec_size rws <=? r then (rws, Raise augmented_column_size_mismatch)
      else match rws !! N.to_nat r with
           | Some data =>
               match push_back data (mk_entry c v) with
               | Value data' =>
                   augment_loop (<[N.to_nat r := data']> rws) c rest
                                (to_unsigned (r + 1))
               | Raise e => (rws, Raise e)
               end
           | None => (rws, Raise index_out_of_bounds)
           end
  end.

(** [augment(col_dense)]: the matrix after the call and the outcome. *)
Definition augment (m : matrix) (col_dense : list X) : matrix * outcome unit :=
  match augment_loop (rows m) (cols m) col_dense 0 with
  | (rws, Value _) =>
      (mk_matrix rws (to_unsigned (cols m + 1))
                 (if aug m =? row_npos then cols m else aug m),
       Value tt)
  | (rws, Raise e) => (mk_matrix rws (cols m) (aug m), Raise e)
  end.


(** The loop of [mul_dense] from row [i] on: [b] with the products
    written so far, and the outcome. *)
Fixpoint mul_dense_loop (a : matrix) (x : list X) (b : list X) (i : N)
    (turns : nat) : list X * outcome unit :=
  match turns with
  | O => (b, Value tt)
  | S turns =>
      if vec_size b <=? i then (b, Raise output_sequence_b_too_short)
      else match row_at a i with
           | Value data =>
               match dot data x with
               | Value d =>
                   mul_dense_loop a x (<[N.to_nat i := d]> b)
                                  (to_unsigned (i + 1)) turns
               | Raise e => (b, Raise e)
               end
           | Raise e => (b, Raise e)
           end
  end.

(** [mul_dense(A, x, b)]: writes [A*x] to [b]. *)
Definition mul_dense (a : matrix) (x : list X) (b : list X)
  : list X * outcome unit :=
  mul_dense_loop a x b 0 (N.to_nat (nrow a)).

(** The invariant of a row: strictly increasing columns. *)
Definition increasing (data : list entry) : Prop :=
  StronglySorted (fun a b => col a < col b) data.

(** A matrix whose rows keep the row invariant with every column below
    [cols]. *)
Definition matrix_ok (m : matrix) : Prop :=
  Forall (fun data => increasing data /\
                      Forall (fun e => col e < cols m) data) (rows m).

(** Row [i] after the loop of [augment] has written the values [cd] into
    the rows from [r] on: the entry [(c, cd[i - r])] comes last. *)
Definition augmented_row (rws : list (list entry)) (c : N) (cd : list X)
    (r i : nat) : option (list entry) :=
  if decide (r <= i)%nat then
    match cd !! (i - r)%nat with
    | Some v => (fun data => data ++ [mk_entry c v]) <$> rws !! i
    | None => rws !! i
    end
  else rws !! i.

(** Entry [j] of the product [A*x], when row [j] exists and its [dot]
    returns. *)
Definition product_at (a : matrix) (x : list X) (j : nat) : option X :=
  match rows a !! j with
  | Some data =>
      match dot data x with
      | Value d => Some d
      | Raise _ => None
      end
  | None => None
  end.

End Row.

End msparse.

#[export] Instance Z_scalar : msparse.Scalar Z :=
  {| msparse.zero := 0%Z; msparse.scalar_eqb := Z.eqb;
     msparse.add := Z.add; msparse.mul := Z.mul |}.

(** A row with entries in columns 1 and 3, and a matrix of two rows and
    two columns, the second row without entries. *)
Definition sample_row : list (@msparse.entry Z) :=
  [msparse.mk_entry 1 5%Z; msparse.mk_entry 3 7%Z].

Definition sample_matrix : @msparse.matrix Z :=
  msparse.mk_matrix [[msparse.mk_entry 1 5%Z]; []] 2 msparse.row_npos.

(** * Properties *)

(** ** Arithmetic of the index types *)

Lemma to_msize_small n : n < 4294967296 -> to_msize n = n.
Proof. intros H. unfold to_msize. now apply N.mod_small. Qed.

Lemma to_msize_le n : to_msize n <= n.
Proof. unfold to_msize. apply N.Div0.mod_le. Qed.

Lemma to_msize_lt n : to_msize n < 4294967296.
Proof. unfold to_msize. apply N.mod_upper_bound. discriminate. Qed.

Lemma to_msize_ne_mnpos_succ n : n <= mnpos -> to_msize n = n.
Proof. unfold mnpos. intros H. apply to_msize_small. lia. Qed.

Lemma to_int_small z : (-2147483648 <= z < 2147483648)%Z -> to_int z = z.
Proof. intros H. unfold to_int. rewrite Z.mod_small; lia. Qed.

Lemma int_to_msize_small z :
  (0 <= z < 4294967296)%Z -> int_to_msize z = Z.to_N z.
Proof. intros H. unfold int_to_msize. rewrite Z.mod_small; auto. Qed.

(** ** Vectors and loops *)

Lemma vec_at_Return {A} (v : list A) i a :
  vec_at v i = Return a <-> v !! N.to_nat i = Some a.
Proof.
  unfold vec_at. destruct (v !! N.to_nat i); split; congruence.
Qed.

Lemma vec_at_lt {A} (v : list A) i :
  i < vec_size v -> exists a, vec_at v i = Return a.
Proof.
  unfold vec_size, vec_at. intros H.
  destruct (lookup_lt_is_Some_2 v (N.to_nat i)) as [a Ha]; [lia|].
  exists a. now rewrite Ha.
Qed.

Lemma vec_at_ge {A} (v : list A) i :
  vec_size v <= i -> vec_at v i = Throw out_of_range.
Proof.
  unfold vec_size, vec_at. intros H.
  rewrite lookup_ge_None_2; [reflexivity | lia].
Qed.

Lemma vec_at_of_nat {A} (v : list A) (k : nat) a :
  v !! k = Some a -> vec_at v (N.of_nat k) = Return a.
Proof. intros H. apply vec_at_Return. now rewrite Nat2N.id. Qed.

Lemma make_span_succ (k : nat) :
  make_span (N.of_nat (S k)) = make_span (N.of_nat k) ++ [N.of_nat k].
Proof.
  unfold make_span. rewrite !Nat2N.id, seq_S, map_app. reflexivity.
Qed.

Lemma make_span_vec_size {A} (v : list A) :
  make_span (vec_size v) = map N.of_nat (seq 0 (length v)).
Proof. unfold make_span, vec_size. now rewrite Nat2N.id. Qed.

Lemma for_each_app {A S} (body : S -> A -> result S) l1 l2 s :
  for_each body (l1 ++ l2) s =
  do s' <- for_each body l1 s; for_each body l2 s'.
Proof.
  revert s. induction l1 as [|a l1 IH]; intros s; simpl; [reflexivity|].
  destruct (body s a); simpl; auto.
Qed.

(** A loop over [0 .. n-1] whose body keeps an invariant returns, and the
    invariant holds of what it returns. *)
Lemma for_each_span_inv {S} (body : S -> N -> result S) (I : nat -> S -> Prop)
    (n : nat) (s0 : S) :
  I 0%nat s0 ->
  (forall k s, (k < n)%nat -> I k s ->
     exists s', body s (N.of_nat k) = Return s' /\ I (Datatypes.S k) s') ->
  exists s, for_each body (make_span (N.of_nat n)) s0 = Return s /\ I n s.
Proof.
  intros H0 Hstep.
  assert (forall k, (k <= n)%nat ->
            exists s, for_each body (make_span (N.of_nat k)) s0 = Return s /\ I k s)
    as Hk.
  { induction k as [|k IH]; intros Hle.
    - exists s0. split; [reflexivity | exact H0].
    - destruct IH as (s & Hs & HI); [lia|].
      destruct (Hstep k s) as (s' & Hb & HI'); [lia | exact HI |].
      exists s'. split; [|exact HI'].
      rewrite make_span_succ, for_each_app, Hs. simpl. now rewrite Hb. }
  apply Hk. lia.
Qed.

(** ** [append] *)

Section AppendFacts.

Context {mpoint : Type}.
Implicit Types (t : @segment_tree mpoint) (p i : msize_t).

Lemma size_le t : size t <= vec_size (segments_ t).
Proof. apply to_msize_le. Qed.

Lemma size_small t :
  vec_size (segments_ t) <= mnpos -> size t = vec_size (segments_ t).
Proof. apply to_msize_ne_mnpos_succ. Qed.

Lemma size_lt_mnpos_succ t : size t <= mnpos.
Proof. pose proof (to_msize_lt (vec_size (segments_ t))). unfold size, mnpos. lia. Qed.

(** The refused call. *)
Lemma append_invalid t p px ds tg :
  size t <= p -> p <> mnpos ->
  append t p px ds tg = (t, Throw (invalid_segment_parent p (size t))).
Proof.
  intros Hge Hne. unfold append.
  apply N.leb_le in Hge. apply N.eqb_neq in Hne. now rewrite Hge, Hne.
Qed.

(** The call that makes a root. *)
Lemma append_root t px ds tg :
  append t mnpos px ds tg =
  (mk_segment_tree (segments_ t ++ [mk_msegment (size t) px ds tg])
                   (parents_ t ++ [mnpos])
                   (seg_children_ t ++ [child_prop_init]),
   Return (size t)).
Proof.
  unfold append. rewrite N.eqb_refl. simpl. now rewrite andb_false_r.
Qed.

(** The call that attaches to an existing segment. *)
Lemma append_child t p px ds tg c :
  p < size t -> p <> mnpos -> seg_children_ t !! N.to_nat p = Some c ->
  append t p px ds tg =
  (mk_segment_tree (segments_ t ++ [mk_msegment (size t) px ds tg])
                   (parents_ t ++ [p])
                   (<[N.to_nat p := increment c]> (seg_children_ t)
                      ++ [child_prop_init]),
   Return (size t)).
Proof.
  intros Hlt Hne Hc. unfold append.
  apply N.leb_gt in Hlt. apply N.eqb_neq in Hne. rewrite Hlt, Hne. simpl.
  rewrite (lookup_app_l_Some _ _ _ _ Hc).
  rewrite insert_app_l; [reflexivity|].
  now apply lookup_lt_Some in Hc.
Qed.

(** Whatever [append] returns, it is one of the three cases above. *)
Lemma append_Return_inv t p px ds tg t' k :
  append t p px ds tg = (t', Return k) ->
  k = size t /\ (p < size t \/ p = mnpos) /\
  segments_ t' = segments_ t ++ [mk_msegment (size t) px ds tg] /\
  parents_ t' = parents_ t ++ [p] /\
  (p = mnpos /\ seg_children_ t' = seg_children_ t ++ [child_prop_init] \/
   p <> mnpos /\ exists c,
     (seg_children_ t ++ [child_prop_init]) !! N.to_nat p = Some c /\
     seg_children_ t' =
       <[N.to_nat p := increment c]> (seg_children_ t ++ [child_prop_init])).
Proof.
  unfold append. intros H.
  destruct (size t <=? p) eqn:Hle; destruct (p =? mnpos) eqn:Hp; simpl in H.
  - apply N.eqb_eq in Hp. inversion H; subst. simpl. intuition.
  - discriminate.
  - apply N.eqb_eq in Hp. inversion H; subst. simpl. intuition.
  - apply N.leb_gt in Hle. apply N.eqb_neq in Hp.
    destruct ((seg_children_ t ++ [child_prop_init]) !! N.to_nat p) as [c|] eqn:Hc;
      [|discriminate].
    inversion H; subst. simpl. repeat split; auto.
    right. split; [exact Hp|]. now exists c.
Qed.

Lemma append_dist_Return_inv t p ds tg t' k :
  append_dist t p ds tg = (t', Return k) ->
  exists s, vec_at (segments_ t) p = Return s /\ p <> mnpos /\ p < size t /\
            append t p (dist s) ds tg = (t', Return k).
Proof.
  unfold append_dist. intros H.
  destruct (p =? mnpos) eqn:Hp; [discriminate|].
  destruct (size t <=? p) eqn:Hle; [discriminate|].
  destruct (vec_at (segments_ t) p) as [s|e] eqn:Hs; [|discriminate].
  exists s. apply N.eqb_neq in Hp. apply N.leb_gt in Hle. auto.
Qed.

Lemma child_count_app t t' p :
  parents_ t' = parents_ t ++ [p] ->
  forall i, child_count t' i =
            (child_count t i + (if decide (p = i) then 1 else 0))%nat.
Proof.
  intros Hp i. unfold child_count. rewrite Hp, filter_app, length_app.
  f_equal. rewrite filter_cons, filter_nil.
  destruct (decide (p = i)); reflexivity.
Qed.

Lemma child_count_fresh t (n : N) :
  (forall (j : nat) p, parents_ t !! j = Some p -> p <> n) ->
  child_count t n = 0%nat.
Proof.
  intros H. unfold child_count.
  destruct (filter (fun p => p = n) (parents_ t)) as [|q l] eqn:Hf; [reflexivity|].
  assert (q ∈ filter (fun p => p = n) (parents_ t)) as Hin
    by (rewrite Hf; apply list_elem_of_here).
  apply list_elem_of_filter in Hin as [-> Hin].
  apply list_elem_of_lookup in Hin as [j Hj].
  now apply H in Hj.
Qed.

(** A successful four-argument [append] keeps a forest well formed. *)
Lemma append_well_formed t p px ds tg t' k :
  well_formed t -> append t p px ds tg = (t', Return k) -> well_formed t'.
Proof.
  intros [Hpl Hcl Hlt Hid Hcnt] H.
  apply append_Return_inv in H as (-> & Hp & Hs & Hpar & Hch).
  pose proof (size_le t) as Hsz. unfold vec_size in Hsz.
  assert (length (seg_children_ t') = S (length (segments_ t))) as Hcl'.
  { destruct Hch as [[_ ->]|[_ (c & _ & ->)]];
      rewrite ?length_insert, length_app; simpl; lia. }
  constructor.
  - rewrite Hpar, Hs, !length_app. simpl. lia.
  - rewrite Hcl', Hs, length_app. simpl. lia.
  - intros j q Hj Hq. rewrite Hpar in Hj.
    apply lookup_app_Some in Hj as [Hj|[Hge Hj]].
    + eauto.
    + apply list_lookup_singleton_Some in Hj as [Hj0 ->].
      destruct Hp as [Hp|Hp]; [lia|contradiction].
  - intros j s Hj. rewrite Hs in Hj.
    apply lookup_app_Some in Hj as [Hj|[Hge Hj]].
    + eauto.
    + apply list_lookup_singleton_Some in Hj as [Hj0 <-]. simpl.
      unfold size, vec_size. f_equal. lia.
  - intros j c Hj Hne.
    rewrite (child_count_app t t' p Hpar).
    assert (forall c0, (seg_children_ t ++ [child_prop_init]) !! j = Some c0 ->
              count c0 = Z.of_nat (child_count t (N.of_nat j))) as Hold.
    { intros c0 Hc0. apply lookup_app_Some in Hc0 as [Hc0|[Hge Hc0]].
      - eauto.
      - apply list_lookup_singleton_Some in Hc0 as [Hj0 <-]. simpl.
        rewrite child_count_fresh; [reflexivity|].
        intros j' q Hq ->.
        assert (j' < length (parents_ t))%nat by (now apply lookup_lt_Some in Hq).
        apply Hlt in Hq; [lia | exact Hne]. }
    destruct Hch as [[-> Hch]|[Hpne (c0 & Hc0 & Hch)]]; rewrite Hch in Hj.
    + rewrite decide_False by congruence. rewrite Nat.add_0_r. now apply Hold.
    + destruct (decide (N.to_nat p = j)) as [<-|Hpj].
      * rewrite list_lookup_insert_eq in Hj by (now apply lookup_lt_Some in Hc0).
        inversion Hj; subst c. simpl. rewrite N2Nat.id in *.
        rewrite decide_True by reflexivity. rewrite (Hold c0 Hc0). lia.
      * rewrite list_lookup_insert_ne in Hj by exact Hpj.
        rewrite decide_False by lia. rewrite Nat.add_0_r. now apply Hold.
Qed.

Lemma empty_well_formed : well_formed (@empty_tree mpoint).
Proof. constructor; simpl; intros; try reflexivity; discriminate. Qed.

(** Every reachable forest is well formed. *)
Lemma reachable_well_formed t : reachable t -> well_formed t.
Proof.
  induction 1 as [|t p px ds tg t' k _ IH H|t p ds tg t' k _ IH H].
  - apply empty_well_formed.
  - eapply append_well_formed; eauto.
  - apply append_dist_Return_inv in H as (s & _ & _ & _ & H).
    eapply append_well_formed; eauto.
Qed.

Lemma append_all_reachable l : forall t t',
  reachable t -> append_all t l = Some t' -> reachable t'.
Proof.
  induction l as [|[[[p px] ds] tg] l IH]; intros t t' Ht H; simpl in H.
  - now inversion H; subst.
  - destruct (append t p px ds tg) as [t1 [k|e]] eqn:Ha; [|discriminate].
    eapply IH; [|exact H]. eapply reachable_append; eauto.
Qed.

End AppendFacts.

Lemma sample_tree_reachable : reachable sample_tree.
Proof.
  apply (append_all_reachable sample_appends empty_tree).
  - apply reachable_empty.
  - vm_compute. reflexivity.
Defined.

Section AppendClaims.

Context {mpoint : Type}.
Implicit Types (t : @segment_tree mpoint) (p i : msize_t).

(** C6.  Both forms of [append] on a reachable forest [t].  The
    four-argument form throws invalid-parent and leaves [t] as it was when
    [p >= size()] and [p] is not the sentinel, and only then; the
    three-argument form does so when [p] is the sentinel or [p >= size()],
    and only then.  In the other case one segment is appended, the call
    returns the size before the call, the parent array grows by [p], and the
    three-argument form takes the distal point of segment [p] for the
    proximal point of the new segment. *)
Theorem append_invalid_parent_exactly t p px ds tg :
  reachable t ->
  (size t <= p /\ p <> mnpos ->
     append t p px ds tg = (t, Throw (invalid_segment_parent p (size t)))) /\
  (~ (size t <= p /\ p <> mnpos) ->
     exists t', append t p px ds tg = (t', Return (size t)) /\
       segments t' = segments t ++ [mk_msegment (size t) px ds tg] /\
       parents t' = parents t ++ [p]) /\
  (p = mnpos \/ size t <= p ->
     append_dist t p ds tg = (t, Throw (invalid_segment_parent p (size t)))) /\
  (~ (p = mnpos \/ size t <= p) ->
     exists t' s, vec_at (segments t) p = Return s /\
       append_dist t p ds tg = (t', Return (size t)) /\
       segments t' = segments t ++ [mk_msegment (size t) (dist s) ds tg] /\
       parents t' = parents t ++ [p]).
Proof.
  intros Hr. apply reachable_well_formed in Hr as [Hpl Hcl _ _ _].
  pose proof (size_le t) as Hsz. unfold vec_size in Hsz.
  assert (forall q qx, q < size t -> q <> mnpos ->
            exists t', append t q qx ds tg = (t', Return (size t)) /\
              segments t' = segments t ++ [mk_msegment (size t) qx ds tg] /\
              parents t' = parents t ++ [q]) as Hchild.
  { intros q qx Hq Hne.
    destruct (lookup_lt_is_Some_2 (seg_children_ t) (N.to_nat q)) as [c Hc];
      [lia|].
    eexists. rewrite (append_child t q qx ds tg c Hq Hne Hc). simpl. auto. }
  repeat split.
  - intros [Hge Hne]. now apply append_invalid.
  - intros Hv. destruct (N.eq_dec p mnpos) as [->|Hne].
    + eexists. rewrite append_root. simpl. auto.
    + apply Hchild; [lia | exact Hne].
  - intros Hi. unfold append_dist.
    destruct (p =? mnpos) eqn:Hp; [reflexivity|].
    destruct Hi as [->|Hge]; [now rewrite N.eqb_refl in Hp|].
    apply N.leb_le in Hge. now rewrite Hge.
  - intros Hv.
    assert (p <> mnpos /\ p < size t) as [Hne Hlt] by lia.
    destruct (vec_at_lt (segments_ t) p) as [s Hs]; [unfold vec_size; lia|].
    destruct (Hchild p (dist s) Hlt Hne) as (t' & Ha & Hsg & Hpa).
    exists t', s. unfold append_dist, segments.
    apply N.eqb_neq in Hne. apply N.leb_gt in Hlt. rewrite Hne, Hlt, Hs.
    auto.
Qed.

(** C7.  In a forest reached by appends every parent index that is not the
    sentinel is below the index of its segment, and a successful [append] of
    either form on such a forest leaves a forest of which this holds
    again. *)
Theorem parent_before_child t :
  reachable t ->
  (forall i p, vec_at (parents t) i = Return p -> p <> mnpos -> p < i) /\
  (forall q px ds tg t' k,
     append t q px ds tg = (t', Return k) \/
     append_dist t q ds tg = (t', Return k) ->
     forall i p, vec_at (parents t') i = Return p -> p <> mnpos -> p < i).
Proof.
  intros Hr.
  assert (forall t0 : @segment_tree mpoint, reachable t0 ->
            forall i p, vec_at (parents t0) i = Return p -> p <> mnpos -> p < i)
    as Hall.
  { intros t0 Ht0 i p Hp Hne. apply reachable_well_formed in Ht0.
    apply vec_at_Return in Hp.
    pose proof (wf_parent_lt t0 Ht0 _ _ Hp Hne). lia. }
  split; [now apply Hall|].
  intros q px ds tg t' k [H|H]; apply Hall.
  - eapply reachable_append; eauto.
  - eapply reachable_append_dist; eauto.
Qed.

End AppendClaims.

Lemma append_invalid_parent_exactly_witness :
  append sample_tree 7 0%Z 1%Z 0%Z =
    (sample_tree, Throw (invalid_segment_parent 7 (size sample_tree))).
Proof.
  destruct (append_invalid_parent_exactly sample_tree 7 0%Z 1%Z 0%Z
              sample_tree_reachable) as [Hthrow _].
  apply Hthrow. split; [vm_compute; discriminate | discriminate].
Defined.

Lemma parent_before_child_witness :
  vec_at (parents sample_tree) 2 = Return 1 /\ 1 < 2.
Proof.
  split; [reflexivity|].
  destruct (parent_before_child sample_tree sample_tree_reachable) as [Hlt _].
  apply (Hlt 2 1); [reflexivity | discriminate].
Defined.

(** ** [apply] and [join_at] *)

Section CopyClaims.

Context {mpoint : Type}.
Implicit Types (t : @segment_tree mpoint) (p i : msize_t).

(** C9.  [apply(tree, iso)] is a forest of the size of [tree] with the parent
    array (and the child counters) of [tree]; at every index its segment has
    the id and the tag of the segment of [tree] there, and [iso] of its
    proximal and of its distal point.  The result is a new value: [tree] is
    an argument of a function and stays what it was. *)
Theorem apply_frame t (iso : mpoint -> mpoint) :
  size (apply t iso) = size t /\
  parents (apply t iso) = parents t /\
  seg_children_ (apply t iso) = seg_children_ t /\
  forall i,
    vec_at (segments (apply t iso)) i =
    do s <- vec_at (segments t) i;
    Return (mk_msegment (id s) (iso (prox s)) (iso (dist s)) (tag s)).
Proof.
  unfold apply, size, vec_size, segments, parents. simpl.
  rewrite length_map. repeat split.
  intros i. unfold vec_at. rewrite list_lookup_fmap.
  destruct (segments_ t !! N.to_nat i); reflexivity.
Qed.

(** C10.  When the parent check of [join_at] passes and [rhs] has no
    segment, the read of segment 0 of [rhs] is outside the vector: the
    copy has no result. *)
Theorem join_at_empty_rhs lhs at_ rhs :
  segments rhs = [] -> at_ < size lhs \/ at_ = mnpos ->
  join_at lhs at_ rhs = (Throw out_of_range : result (@segment_tree mpoint)).
Proof.
  intros Hrhs Hat. unfold join_at.
  assert ((size lhs <=? at_) && negb (at_ =? mnpos) = false) as ->.
  { destruct Hat as [Hat| ->].
    - apply N.leb_gt in Hat. now rewrite Hat.
    - rewrite N.eqb_refl. apply andb_false_r. }
  destruct rhs as [segs pars chld]. unfold segments in Hrhs. simpl in Hrhs.
  subst segs. reflexivity.
Qed.

End CopyClaims.

Lemma join_at_empty_rhs_witness :
  join_at sample_tree 0 (@empty_tree Z) = Throw out_of_range.
Proof.
  apply (join_at_empty_rhs sample_tree 0 empty_tree).
  - reflexivity.
  - left. vm_compute. reflexivity.
Defined.

(** ** The children-index map and the structural queries *)

Lemma std_sort_sorted (l : list N) :
  StronglySorted N.lt l -> std_sort N.ltb l = l.
Proof.
  induction 1 as [|x l Hl IH Hx]; simpl; [reflexivity|].
  rewrite IH. destruct l as [|y l]; simpl; [reflexivity|].
  apply Forall_cons in Hx as [Hxy _].
  assert (N.ltb y x = false) as -> by (apply N.ltb_ge; lia).
  reflexivity.
Qed.

Lemma elem_of_make_span (k : nat) (x : N) :
  x ∈ make_span (N.of_nat k) <-> x < N.of_nat k.
Proof.
  unfold make_span. rewrite Nat2N.id, list_elem_of_fmap. split.
  - intros (j & -> & Hj). apply list_elem_of_In, in_seq in Hj. lia.
  - intros Hx. exists (N.to_nat x). split; [lia|].
    apply list_elem_of_In, in_seq. lia.
Qed.

Lemma filter_make_span_succ (P : N -> Prop) `{forall x, Decision (P x)} (k : nat) :
  filter P (make_span (N.of_nat (S k))) =
  filter P (make_span (N.of_nat k)) ++
  (if decide (P (N.of_nat k)) then [N.of_nat k] else []).
Proof.
  rewrite make_span_succ, filter_app. reflexivity.
Qed.

Lemma filter_make_span_sorted (P : N -> Prop) `{forall x, Decision (P x)} (k : nat) :
  StronglySorted N.lt (filter P (make_span (N.of_nat k))).
Proof.
  induction k as [|k IH].
  - constructor.
  - rewrite filter_make_span_succ. apply StronglySorted_app_2; [|exact IH|].
    + intros x1 x2 H1 H2.
      apply list_elem_of_filter in H1 as [_ H1]. apply elem_of_make_span in H1.
      destruct (decide (P (N.of_nat k))).
      * apply list_elem_of_singleton in H2. lia.
      * inversion H2.
    + destruct (decide (P (N.of_nat k))); repeat constructor.
Qed.

Section ChildrenFacts.

Context {mpoint : Type}.
Implicit Types (t : @segment_tree mpoint) (p i : msize_t).

(** [tree_to_children] returns, and the bucket of [q] holds the indices
    whose parent is [q], in ascending order. *)
Lemma tree_to_children_spec t :
  length (parents_ t) = length (segments_ t) ->
  exists m, tree_to_children t = Return m /\
    forall q, m !!! q =
      filter (fun ix : N => parents_ t !! N.to_nat ix = Some q)
             (make_span (size t)).
Proof.
  intros Hlen. unfold tree_to_children.
  pose proof (size_le t) as Hsz. unfold vec_size in Hsz.
  rewrite <- (N2Nat.id (size t)).
  destruct (for_each_span_inv
    (fun (res : gmap msize_t (list msize_t)) ix =>
       do p <- vec_at (parents t) ix; Return (<[p := (res !!! p) ++ [ix]]> res))
    (fun k res => forall q, res !!! q =
       filter (fun ix : N => parents_ t !! N.to_nat ix = Some q)
              (make_span (N.of_nat k)))
    (N.to_nat (size t)) ∅) as (res & Hres & Hinv).
  - intros q. now rewrite lookup_total_empty.
  - intros k res Hk HI.
    destruct (lookup_lt_is_Some_2 (parents_ t) k) as [p Hp]; [lia|].
    exists (<[p := (res !!! p) ++ [N.of_nat k]]> res). split.
    + unfold parents. now rewrite (vec_at_of_nat _ _ _ Hp).
    + intros q. rewrite filter_make_span_succ, Nat2N.id, Hp.
      rewrite lookup_total_insert.
      destruct (decide (p = q)) as [->|Hne].
      * rewrite decide_True by reflexivity. now rewrite HI.
      * rewrite decide_False by congruence. now rewrite app_nil_r, HI.
  - rewrite Hres. simpl. eexists. split; [reflexivity|].
    intros q. rewrite lookup_total_fmap. specialize (Hinv q).
    destruct (res !! q) as [l|] eqn:Hq.
    + rewrite Hinv. apply std_sort_sorted, filter_make_span_sorted.
    + rewrite <- Hinv, lookup_total_alt, Hq. reflexivity.
Qed.

(** Counting the indices that name [q] is counting the entries [q] of the
    parent array. *)
Lemma child_count_indices t q :
  length (filter (fun ix : N => parents_ t !! N.to_nat ix = Some q)
            (make_span (vec_size (parents_ t)))) = child_count t q.
Proof.
  unfold child_count, vec_size.
  assert (forall k, (k <= length (parents_ t))%nat ->
    length (filter (fun ix : N => parents_ t !! N.to_nat ix = Some q)
              (make_span (N.of_nat k))) =
    length (filter (fun p => p = q) (take k (parents_ t)))) as Hk.
  { induction k as [|k IH]; intros Hle; [reflexivity|].
    destruct (lookup_lt_is_Some_2 (parents_ t) k) as [p Hp]; [lia|].
    rewrite filter_make_span_succ, (take_S_r _ _ _ Hp), filter_app, !length_app.
    rewrite IH by lia. f_equal. rewrite Nat2N.id, Hp, filter_cons, filter_nil.
    destruct (decide (p = q)) as [->|Hne].
    - now rewrite decide_True.
    - rewrite decide_False by congruence. reflexivity. }
  rewrite Hk by lia. now rewrite firstn_all.
Qed.

End ChildrenFacts.

Section QueryClaims.

Context {mpoint : Type}.
Implicit Types (t : @segment_tree mpoint) (p i : msize_t).

(** C8.  On a reachable forest whose size fits [msize_t], [is_root],
    [is_fork] and [is_terminal] throw no-such-segment when [i >= size()] and
    return otherwise.  For [i < size()], with [children_of] the map that
    [tree_to_children] derives (the bucket of [i] is the ascending list of
    the indices [j] with [parents()[j] = i]): [is_root(i)] tells whether
    [parents()[i]] is the sentinel, [is_fork(i)] whether the bucket of [i]
    has two entries or more, [is_terminal(i)] whether it has none. *)
Theorem structural_queries_consistent t :
  reachable t -> vec_size (segments t) <= mnpos ->
  exists children_of, tree_to_children t = Return children_of /\
  forall i,
    (size t <= i ->
       is_root t i = Throw (no_such_segment i) /\
       is_fork t i = Throw (no_such_segment i) /\
       is_terminal t i = Throw (no_such_segment i)) /\
    (i < size t ->
       children_of !!! i =
         filter (fun j : N => parents t !! N.to_nat j = Some i)
                (make_span (size t)) /\
       (exists p, vec_at (parents t) i = Return p /\
                  is_root t i = Return (p =? mnpos)) /\
       is_fork t i = Return (2 <=? vec_size (children_of !!! i)) /\
       is_terminal t i = Return (vec_size (children_of !!! i) =? 0)).
Proof.
  intros Hr Hfit. apply reachable_well_formed in Hr as [Hpl Hcl _ _ Hcnt].
  destruct (tree_to_children_spec t Hpl) as (m & Hm & Hbucket).
  exists m. split; [exact Hm|]. intros i.
  unfold is_root, is_fork, is_terminal. split.
  - intros Hge. apply N.leb_le in Hge. now rewrite Hge.
  - intros Hlt. pose proof (size_small t Hfit) as Hsz.
    assert ((size t <=? i) = false) as -> by (now apply N.leb_gt).
    unfold segments, vec_size in *.
    destruct (lookup_lt_is_Some_2 (parents_ t) (N.to_nat i)) as [p Hp]; [lia|].
    destruct (lookup_lt_is_Some_2 (seg_children_ t) (N.to_nat i)) as [c Hc]; [lia|].
    assert (count c = Z.of_nat (length (m !!! i))) as Hcount.
    { rewrite (Hcnt _ _ Hc) by lia. rewrite N2Nat.id.
      rewrite <- child_count_indices, Hbucket. unfold vec_size.
      now rewrite Hpl, Hsz. }
    split; [apply Hbucket|]. split; [|split].
    + exists p. unfold parents, vec_at. now rewrite Hp.
    + unfold vec_at. rewrite Hc. simpl. f_equal. unfold child_is_fork.
      rewrite Hcount.
      destruct (Z.ltb_spec 1 (Z.of_nat (length (m !!! i))));
        destruct (N.leb_spec 2 (N.of_nat (length (m !!! i))));
        try reflexivity; lia.
    + unfold vec_at. rewrite Hc. simpl. f_equal. unfold child_is_terminal.
      rewrite Hcount.
      destruct (Z.eqb_spec (Z.of_nat (length (m !!! i))) 0);
        destruct (N.eqb_spec (N.of_nat (length (m !!! i))) 0);
        try reflexivity; lia.
Qed.

End QueryClaims.

Lemma structural_queries_consistent_witness :
  exists children_of, tree_to_children sample_tree = Return children_of /\
  forall i,
    (size sample_tree <= i ->
       is_root sample_tree i = Throw (no_such_segment i) /\
       is_fork sample_tree i = Throw (no_such_segment i) /\
       is_terminal sample_tree i = Throw (no_such_segment i)) /\
    (i < size sample_tree ->
       children_of !!! i =
         filter (fun j : N => parents sample_tree !! N.to_nat j = Some i)
                (make_span (size sample_tree)) /\
       (exists p, vec_at (parents sample_tree) i = Return p /\
                  is_root sample_tree i = Return (p =? mnpos)) /\
       is_fork sample_tree i = Return (2 <=? vec_size (children_of !!! i)) /\
       is_terminal sample_tree i = Return (vec_size (children_of !!! i) =? 0)).
Proof.
  apply (structural_queries_consistent sample_tree).
  - exact sample_tree_reachable.
  - vm_compute. discriminate.
Defined.

(** ** [prune_tag]: the table of run ends *)

Lemma upper_bound_le l v : upper_bound l v <= vec_size l.
Proof.
  unfold vec_size. induction l as [|e l IH]; simpl; [lia|].
  destruct (v <? int_to_msize e); lia.
Qed.

Lemma upper_bound_all l v :
  Forall (fun b => int_to_msize b <= v) l -> upper_bound l v = vec_size l.
Proof.
  unfold vec_size. induction 1 as [|e l He _ IH]; simpl; [reflexivity|].
  assert ((v <? int_to_msize e) = false) as -> by (apply N.ltb_ge; lia).
  lia.
Qed.

Lemma upper_bound_snoc_lt l b v :
  v < int_to_msize b -> upper_bound (l ++ [b]) v = upper_bound l v.
Proof.
  intros Hv. induction l as [|e l IH]; simpl.
  - apply N.ltb_lt in Hv. now rewrite Hv.
  - destruct (v <? int_to_msize e); [reflexivity | now rewrite IH].
Qed.

Lemma prune_offset_all bounds offsets np roots v :
  length bounds = length offsets ->
  Forall (fun b => int_to_msize b <= v) bounds ->
  prune_offset (mk_prune_scan np bounds offsets roots) v =
  match last offsets with Some o => Return o | None => Return 0%Z end.
Proof.
  intros Hlen Hall. unfold prune_offset. simpl.
  rewrite (upper_bound_all _ _ Hall). unfold vec_size. rewrite Hlen.
  destruct offsets as [|o offsets _] using rev_ind; [reflexivity|].
  rewrite last_snoc, length_app. simpl.
  assert ((0 <? N.of_nat (length offsets + 1)) = true) as ->
    by (apply N.ltb_lt; lia).
  unfold vec_at.
  replace (N.to_nat (N.of_nat (length offsets + 1) - 1)) with (length offsets)
    by lia.
  now rewrite list_lookup_middle.
Qed.

Lemma prune_offset_snoc_lt bounds offsets np np' roots roots' b o v :
  length bounds = length offsets -> v < int_to_msize b ->
  prune_offset (mk_prune_scan np' (bounds ++ [b]) (offsets ++ [o]) roots') v =
  prune_offset (mk_prune_scan np bounds offsets roots) v.
Proof.
  intros Hlen Hv. unfold prune_offset. simpl.
  rewrite (upper_bound_snoc_lt _ _ _ Hv).
  pose proof (upper_bound_le bounds v) as Hle. unfold vec_size in Hle.
  destruct (0 <? upper_bound bounds v) eqn:Hpos; [|reflexivity].
  apply N.ltb_lt in Hpos. unfold vec_at.
  rewrite lookup_app_l by lia. reflexivity.
Qed.

Section PruneFacts.

Context {mpoint : Type}.
Implicit Types (t : @segment_tree mpoint) (i : msize_t).

Lemma is_tagged_lookup t tg (k : nat) s :
  segments t !! k = Some s -> (tag s =? tg)%Z = is_tagged t tg (N.of_nat k).
Proof. intros H. unfold is_tagged. now rewrite Nat2N.id, H. Qed.

Lemma pruned_below_0 t tg : pruned_below t tg 0 = 0.
Proof. reflexivity. Qed.

Lemma pruned_below_succ t tg (k : nat) :
  pruned_below t tg (N.of_nat (S k)) =
  pruned_below t tg (N.of_nat k) + (if is_tagged t tg (N.of_nat k) then 1 else 0).
Proof.
  unfold pruned_below, vec_size. rewrite filter_make_span_succ, length_app.
  destruct (is_tagged t tg (N.of_nat k)).
  - rewrite decide_True by reflexivity. simpl. lia.
  - rewrite decide_False by discriminate. simpl. lia.
Qed.

Lemma pruned_below_le t tg (k : nat) : pruned_below t tg (N.of_nat k) <= N.of_nat k.
Proof.
  induction k as [|k IH]; [rewrite pruned_below_0; lia|].
  rewrite pruned_below_succ. destruct (is_tagged t tg (N.of_nat k)); lia.
Qed.

(** Between a surviving index [p] and a later index [k] at least [p] itself
    survives. *)
Lemma pruned_below_gap t tg (p k : nat) :
  (p < k)%nat -> is_tagged t tg (N.of_nat p) = false ->
  pruned_below t tg (N.of_nat k) + N.of_nat p + 1 <=
  pruned_below t tg (N.of_nat p) + N.of_nat k.
Proof.
  intros Hlt Hp. induction k as [|k IH]; [lia|].
  rewrite pruned_below_succ.
  destruct (Nat.eq_dec p k) as [->|Hne].
  - rewrite Hp. lia.
  - destruct (is_tagged t tg (N.of_nat k)); lia.
Qed.

End PruneFacts.

Section PruneScan.

Context {mpoint : Type}.
Implicit Types (t : @segment_tree mpoint) (i : msize_t).

Lemma prune_scan_step_untagged t tg st (k : nat) s :
  segments t !! k = Some s -> is_tagged t tg (N.of_nat k) = false ->
  prune_scan_step (segments t) (parents t) tg st (N.of_nat k) = Return st.
Proof.
  intros Hs Ht. unfold prune_scan_step.
  rewrite (vec_at_of_nat _ _ _ Hs). simpl.
  now rewrite (is_tagged_lookup t tg k s Hs), Ht.
Qed.

Lemma prune_scan_step_tagged t tg st (k : nat) s :
  well_formed t ->
  segments t !! k = Some s -> is_tagged t tg (N.of_nat k) = true ->
  prune_scan_step (segments t) (parents t) tg st (N.of_nat k) =
  Return
    (let np := to_int (num_pruned st + 1) in
     let roots := if is_tag_root t tg (N.of_nat k)
                  then scan_tag_roots st ++ [to_msize (N.of_nat k)]
                  else scan_tag_roots st in
     if (N.of_nat k + 1 <? vec_size (segments t)) &&
        negb (is_tagged t tg (N.of_nat k + 1))
     then mk_prune_scan np
            (pruned_id_upper_bounds st ++ [to_int (Z.of_N (N.of_nat k + 1))])
            (pruned_id_offsets st ++ [np]) roots
     else mk_prune_scan np (pruned_id_upper_bounds st) (pruned_id_offsets st)
            roots).
Proof.
  intros [Hpl _ Hlt _ _] Hs Ht. unfold prune_scan_step.
  rewrite (vec_at_of_nat _ _ _ Hs). simpl.
  rewrite (is_tagged_lookup t tg k s Hs), Ht.
  destruct (lookup_lt_is_Some_2 (parents t) k) as [p Hp].
  { unfold parents. rewrite Hpl. now apply lookup_lt_Some in Hs. }
  rewrite (vec_at_of_nat _ _ _ Hp). simpl.
  assert ((if p =? mnpos then Return true
           else do pseg <- vec_at (segments t) p;
                Return (negb (tag pseg =? tg)%Z)) =
          Return (is_tag_root t tg (N.of_nat k))) as ->.
  { unfold is_tag_root. rewrite Ht, Nat2N.id, Hp. simpl.
    destruct (p =? mnpos) eqn:Hpn; [reflexivity|]. simpl.
    apply N.eqb_neq in Hpn. pose proof (Hlt _ _ Hp Hpn) as Hpk.
    destruct (lookup_lt_is_Some_2 (segments t) (N.to_nat p)) as [ps Hps].
    { apply lookup_lt_Some in Hs. lia. }
    unfold vec_at, is_tagged. now rewrite Hps. }
  simpl.
  assert ((if N.of_nat k + 1 <? vec_size (segments t)
           then do next <- vec_at (segments t) (N.of_nat k + 1);
                Return (negb (tag next =? tg)%Z)
           else Return false) =
          Return ((N.of_nat k + 1 <? vec_size (segments t)) &&
                  negb (is_tagged t tg (N.of_nat k + 1)))) as ->.
  { destruct (N.of_nat k + 1 <? vec_size (segments t)) eqn:Hn; [|reflexivity].
    apply N.ltb_lt in Hn. unfold vec_size in Hn.
    destruct (lookup_lt_is_Some_2 (segments t) (N.to_nat (N.of_nat k + 1)))
      as [nx Hnx]; [lia|].
    unfold vec_at, is_tagged. now rewrite Hnx. }
  simpl.
  destruct ((N.of_nat k + 1 <? vec_size (segments t)) &&
            negb (is_tagged t tg (N.of_nat k + 1))); reflexivity.
Qed.

(** The first loop of [prune_tag] returns; the counter has counted the
    tagged segments, the table gives every surviving index the number of
    tagged segments below it, and the roots found are the tag roots in
    ascending order. *)
Lemma prune_scan_loop t tg :
  well_formed t -> vec_size (segments t) <= int_max ->
  exists st,
    for_each (prune_scan_step (segments t) (parents t) tg)
      (make_span (vec_size (segments t))) (mk_prune_scan 0 [] [] []) = Return st /\
    (forall p : nat, (p < length (segments t))%nat ->
       is_tagged t tg (N.of_nat p) = false ->
       prune_offset st (N.of_nat p) =
       Return (Z.of_N (pruned_below t tg (N.of_nat p)))) /\
    scan_tag_roots st =
      filter (fun i => is_tag_root t tg i = true)
             (make_span (vec_size (segments t))).
Proof.
  intros Hwf Hfit. unfold vec_size, int_max in *.
  set (n := length (segments t)) in *.
  destruct (for_each_span_inv
    (prune_scan_step (segments t) (parents t) tg)
    (fun k st =>
       num_pruned st = Z.of_N (pruned_below t tg (N.of_nat k)) /\
       length (pruned_id_upper_bounds st) = length (pruned_id_offsets st) /\
       Forall (fun b => (0 <= b <= Z.of_nat k)%Z) (pruned_id_upper_bounds st) /\
       (forall p : nat, (p <= k)%nat -> (p < n)%nat ->
          is_tagged t tg (N.of_nat p) = false ->
          prune_offset st (N.of_nat p) =
          Return (Z.of_N (pruned_below t tg (N.of_nat p)))) /\
       scan_tag_roots st =
         filter (fun i => is_tag_root t tg i = true) (make_span (N.of_nat k)))
    n (mk_prune_scan 0 [] [] [])) as (st & Hst & _ & _ & _ & Hoff & Hroots).
  - simpl. repeat split; auto.
    intros p Hp _ _. assert (p = 0%nat) as -> by lia. reflexivity.
  - intros k [np bounds offsets roots] Hk (Hnp & Hlen & Hb & Hoff & Hroots).
    simpl in *.
    assert (forall v : nat, (k <= v)%nat -> (v <= n)%nat ->
              Forall (fun b => int_to_msize b <= N.of_nat v) bounds) as Hbv.
    { intros v Hkv Hvn. eapply Forall_impl; [exact Hb|]. simpl.
      intros b Hbk. rewrite int_to_msize_small; lia. }
    destruct (lookup_lt_is_Some_2 (segments t) k) as [s Hs]; [exact Hk|].
    pose proof (pruned_below_succ t tg k) as Hsucc.
    pose proof (pruned_below_le t tg k) as Hple.
    destruct (is_tagged t tg (N.of_nat k)) eqn:Htag.
    + (* segment [k] is pruned *)
      rewrite (prune_scan_step_tagged t tg _ k s Hwf Hs Htag). simpl.
      change (vec_size (segments t)) with (N.of_nat n).
      eexists. split; [reflexivity|].
      assert (to_int (np + 1) = Z.of_N (pruned_below t tg (N.of_nat (S k))))
        as Hnp' by (rewrite to_int_small; lia).
      assert ((if is_tag_root t tg (N.of_nat k)
               then roots ++ [to_msize (N.of_nat k)] else roots) =
              filter (fun i => is_tag_root t tg i = true)
                     (make_span (N.of_nat (S k)))) as Hroots'.
      { rewrite filter_make_span_succ, <- Hroots.
        destruct (is_tag_root t tg (N.of_nat k)).
        - rewrite decide_True by reflexivity.
          rewrite to_msize_small by lia. reflexivity.
        - rewrite decide_False by discriminate. now rewrite app_nil_r. }
      destruct ((N.of_nat k + 1 <? N.of_nat n) &&
                negb (is_tagged t tg (N.of_nat k + 1))) eqn:Hrun; simpl.
      * apply andb_true_iff in Hrun as [Hkn Hnext].
        apply N.ltb_lt in Hkn. apply negb_true_iff in Hnext.
        assert (to_int (Z.of_N (N.of_nat k + 1)) = Z.of_nat (S k)) as Hbound
          by (rewrite to_int_small; lia).
        rewrite Hbound.
        repeat split; [exact Hnp' | rewrite !length_app; simpl; lia | | | exact Hroots'].
        -- apply Forall_app. split.
           ++ eapply Forall_impl; [exact Hb|]. simpl. lia.
           ++ repeat constructor; lia.
        -- intros p Hp Hpn Hpt.
           destruct (Nat.eq_dec p (S k)) as [->|Hne].
           ++ rewrite prune_offset_all.
              ** rewrite last_snoc. now rewrite Hnp'.
              ** rewrite !length_app. simpl. lia.
              ** apply Forall_app. split; [apply Hbv; lia|].
                 repeat constructor. rewrite int_to_msize_small; lia.
           ++ assert (p <> k) by (intros ->; congruence).
              rewrite (prune_offset_snoc_lt bounds offsets np _ roots) by
                (try rewrite int_to_msize_small; lia).
              apply Hoff; [lia | exact Hpn | exact Hpt].
      * repeat split; [exact Hnp' | exact Hlen | | | exact Hroots'].
        -- eapply Forall_impl; [exact Hb|]. simpl. lia.
        -- intros p Hp Hpn Hpt.
           destruct (Nat.eq_dec p (S k)) as [->|Hne].
           ++ apply andb_false_iff in Hrun as [Hrun|Hrun].
              ** apply N.ltb_ge in Hrun. lia.
              ** apply negb_false_iff in Hrun.
                 replace (N.of_nat k + 1) with (N.of_nat (S k)) in Hrun by lia.
                 congruence.
           ++ assert (p <> k) by (intros ->; congruence).
              rewrite <- (Hoff p) by (try assumption; lia).
              reflexivity.
    + (* segment [k] survives *)
      rewrite (prune_scan_step_untagged t tg _ k s Hs Htag).
      eexists. split; [reflexivity|]. simpl.
      repeat split; [lia | exact Hlen | | |].
      * eapply Forall_impl; [exact Hb|]. simpl. lia.
      * intros p Hp Hpn Hpt.
        destruct (Nat.eq_dec p (S k)) as [->|Hne].
        -- rewrite (prune_offset_all bounds offsets np roots _ Hlen)
             by (apply Hbv; lia).
           rewrite <- (prune_offset_all bounds offsets np roots (N.of_nat k) Hlen)
             by (apply Hbv; lia).
           rewrite Hoff by (try assumption; lia). f_equal. lia.
        -- apply Hoff; [lia | exact Hpn | exact Hpt].
      * rewrite filter_make_span_succ, <- Hroots.
        assert (is_tag_root t tg (N.of_nat k) = false) as Hnr
          by (unfold is_tag_root; now rewrite Htag).
        rewrite decide_False by (rewrite Hnr; discriminate).
        now rewrite app_nil_r.
  - exists st. split; [exact Hst|]. split; [|exact Hroots].
    intros p Hp Hpt. apply Hoff; [lia | exact Hp | exact Hpt].
Qed.

End PruneScan.

Section PruneCopy.

Context {mpoint : Type}.
Implicit Types (t out : @segment_tree mpoint) (i : msize_t).

Lemma prune_copy_step_tagged t tg st out (k : nat) s p :
  segments t !! k = Some s -> parents t !! k = Some p ->
  is_tagged t tg (N.of_nat k) = true ->
  prune_copy_step (segments t) (parents t) tg st out (N.of_nat k) = Return out.
Proof.
  intros Hs Hp Ht. unfold prune_copy_step.
  rewrite (vec_at_of_nat _ _ _ Hs), (vec_at_of_nat _ _ _ Hp). simpl.
  now rewrite (is_tagged_lookup t tg k s Hs), Ht.
Qed.

Lemma prune_copy_step_unpruned_child t tg st out (k : nat) s p :
  well_formed t ->
  segments t !! k = Some s -> parents t !! k = Some p ->
  is_unpruned_child t tg (N.of_nat k) = true ->
  prune_copy_step (segments t) (parents t) tg st out (N.of_nat k) =
  Throw (unpruned_child p (id s) tg).
Proof.
  intros [_ _ Hlt _ _] Hs Hp Hu. unfold prune_copy_step.
  rewrite (vec_at_of_nat _ _ _ Hs), (vec_at_of_nat _ _ _ Hp). simpl.
  unfold is_unpruned_child in Hu. rewrite Nat2N.id, Hs, Hp in Hu.
  destruct (tag s =? tg)%Z eqn:Hst; [discriminate|].
  destruct (p =? mnpos) eqn:Hpn; [discriminate|]. rename Hu into Hpt. simpl.
  apply N.eqb_neq in Hpn. pose proof (Hlt _ _ Hp Hpn) as Hpk.
  unfold is_tagged in Hpt. unfold vec_at.
  destruct (segments t !! N.to_nat p) as [ps|]; [|discriminate].
  simpl. now rewrite Hpt.
Qed.

Lemma prune_copy_step_survivor t tg st out (k : nat) s p :
  well_formed t -> vec_size (segments t) <= int_max ->
  (forall q : nat, (q < length (segments t))%nat ->
     is_tagged t tg (N.of_nat q) = false ->
     prune_offset st (N.of_nat q) =
     Return (Z.of_N (pruned_below t tg (N.of_nat q)))) ->
  segments t !! k = Some s -> parents t !! k = Some p ->
  is_tagged t tg (N.of_nat k) = false ->
  is_unpruned_child t tg (N.of_nat k) = false ->
  length (seg_children_ out) = length (segments_ out) ->
  N.of_nat (length (segments_ out)) + pruned_below t tg (N.of_nat k) = N.of_nat k ->
  exists out',
    prune_copy_step (segments t) (parents t) tg st out (N.of_nat k) = Return out' /\
    segments_ out' =
      segments_ out ++
      [mk_msegment (N.of_nat (length (segments_ out))) (prox s) (dist s) (tag s)] /\
    parents_ out' = parents_ out ++ [renumber t tg p] /\
    length (seg_children_ out') = length (segments_ out').
Proof.
  intros [_ _ Hlt _ _] Hfit Hoff Hs Hp Ht Hu Hcl Hsz.
  unfold vec_size, int_max in Hfit.
  assert (k < length (segments t))%nat as Hk by (now apply lookup_lt_Some in Hs).
  assert (size out = N.of_nat (length (segments_ out))) as Hsize.
  { unfold size, vec_size. apply to_msize_small. lia. }
  unfold prune_copy_step.
  rewrite (vec_at_of_nat _ _ _ Hs), (vec_at_of_nat _ _ _ Hp). simpl.
  pose proof (is_tagged_lookup t tg k s Hs) as Hts. rewrite Ht in Hts.
  rewrite Hts. simpl.
  unfold renumber. destruct (p =? mnpos) eqn:Hpn; simpl.
  - apply N.eqb_eq in Hpn. subst p. rewrite append_root. simpl.
    eexists. split; [reflexivity|]. simpl. rewrite Hsize.
    repeat split. rewrite !length_app, Hcl. reflexivity.
  - apply N.eqb_neq in Hpn. pose proof (Hlt _ _ Hp Hpn) as Hpk.
    assert (is_tagged t tg p = false) as Hpt.
    { unfold is_unpruned_child in Hu. rewrite Nat2N.id, Hs, Hp, Hts in Hu.
      apply N.eqb_neq in Hpn. rewrite Hpn in Hu. exact Hu. }
    destruct (lookup_lt_is_Some_2 (segments t) (N.to_nat p)) as [ps Hps]; [lia|].
    assert ((tag ps =? tg)%Z = false) as Hpst.
    { unfold is_tagged in Hpt. now rewrite Hps in Hpt. }
    assert (vec_at (segments t) p = Return ps) as -> by (now apply vec_at_Return).
    simpl. rewrite Hpst.
    unfold prune_shift.
    pose proof (Hoff (N.to_nat p)) as Hoffp. rewrite N2Nat.id in Hoffp.
    rewrite Hoffp; [|lia|exact Hpt]. simpl.
    pose proof (pruned_below_le t tg (N.to_nat p)) as Hple.
    pose proof (pruned_below_gap t tg (N.to_nat p) k Hpk) as Hgap.
    rewrite N2Nat.id in Hple, Hgap. specialize (Hgap Hpt).
    assert (int_to_msize (Z.of_N p - Z.of_N (pruned_below t tg p)) =
            p - pruned_below t tg p) as ->.
    { rewrite int_to_msize_small; lia. }
    set (p' := p - pruned_below t tg p) in *.
    assert (p' < N.of_nat (length (segments_ out))) as Hp' by (unfold p'; lia).
    destruct (lookup_lt_is_Some_2 (seg_children_ out) (N.to_nat p')) as [c Hc];
      [lia|].
    rewrite (append_child out p' _ _ _ c); [| lia | unfold mnpos; lia | exact Hc].
    simpl. eexists. split; [reflexivity|]. simpl. rewrite Hsize.
    repeat split. rewrite !length_app, length_insert, Hcl. reflexivity.
Qed.

(** The second loop of [prune_tag] over the first [k] indices when none of
    them is a surviving child of a pruned parent. *)
Lemma prune_copy_prefix t tg st (k : nat) :
  well_formed t -> vec_size (segments t) <= int_max ->
  (forall q : nat, (q < length (segments t))%nat ->
     is_tagged t tg (N.of_nat q) = false ->
     prune_offset st (N.of_nat q) =
     Return (Z.of_N (pruned_below t tg (N.of_nat q)))) ->
  (k <= length (segments t))%nat ->
  (forall j : nat, (j < k)%nat -> is_unpruned_child t tg (N.of_nat j) = false) ->
  exists out,
    for_each (prune_copy_step (segments t) (parents t) tg st)
             (make_span (N.of_nat k)) empty_tree = Return out /\
    segments_ out =
      imap (fun j s => mk_msegment (N.of_nat j) (prox s) (dist s) (tag s))
           (filter (fun s => tag s <> tg) (take k (segments t))) /\
    parents_ out =
      map (fun sp => renumber t tg sp.2)
          (filter (fun sp => tag sp.1 <> tg)
                  (take k (zip (segments t) (parents t)))) /\
    length (seg_children_ out) = length (segments_ out).
Proof.
  intros Hwf Hfit Hoff Hk Hclosed.
  destruct (for_each_span_inv
    (prune_copy_step (segments t) (parents t) tg st)
    (fun j out =>
       segments_ out =
         imap (fun j s => mk_msegment (N.of_nat j) (prox s) (dist s) (tag s))
              (filter (fun s => tag s <> tg) (take j (segments t))) /\
       parents_ out =
         map (fun sp => renumber t tg sp.2)
             (filter (fun sp => tag sp.1 <> tg)
                     (take j (zip (segments t) (parents t)))) /\
       length (seg_children_ out) = length (segments_ out) /\
       N.of_nat (length (segments_ out)) + pruned_below t tg (N.of_nat j) =
       N.of_nat j)
    k empty_tree) as (out & Hout & Hsg & Hpa & Hcl & _).
  - repeat split.
  - intros j out Hj (Hsg & Hpa & Hcl & Hsz).
    destruct (lookup_lt_is_Some_2 (segments t) j) as [s Hs]; [lia|].
    destruct (lookup_lt_is_Some_2 (parents t) j) as [p Hp].
    { unfold parents. rewrite (wf_parents_length t Hwf). unfold segments in Hk. lia. }
    assert (zip (segments t) (parents t) !! j = Some (s, p)) as Hz.
    { apply lookup_zip_with_Some. eauto. }
    rewrite (take_S_r _ _ _ Hs), (take_S_r _ _ _ Hz), !filter_app.
    rewrite pruned_below_succ.
    pose proof (is_tagged_lookup t tg j s Hs) as Hts.
    destruct (is_tagged t tg (N.of_nat j)) eqn:Ht.
    + rewrite (prune_copy_step_tagged t tg st out j s p Hs Hp Ht).
      apply Z.eqb_eq in Hts.
      exists out. split; [reflexivity|].
      rewrite !filter_cons, !filter_nil. simpl.
      rewrite !decide_False by (intros Hne; now apply Hne).
      rewrite !app_nil_r. repeat split; auto. lia.
    + destruct (prune_copy_step_survivor t tg st out j s p Hwf Hfit Hoff Hs Hp Ht)
        as (out' & Hstep & Hsg' & Hpa' & Hcl'); auto.
      apply Z.eqb_neq in Hts.
      exists out'. split; [exact Hstep|].
      rewrite !filter_cons, !filter_nil. simpl.
      rewrite !decide_True by exact Hts.
      rewrite imap_app, map_app. simpl.
      assert (length (segments_ out) =
              length (filter (fun s => tag s <> tg) (take j (segments t))))
        as Hlen by (rewrite Hsg; apply length_imap).
      split; [|split; [|split]].
      * rewrite Hsg', Hlen, Nat.add_0_r. now rewrite <- Hsg.
      * rewrite Hpa'. now rewrite <- Hpa.
      * exact Hcl'.
      * rewrite Hsg', length_app. simpl. lia.
  - exists out. auto.
Qed.

End PruneCopy.

(** ** [prune_tag] and [tag_roots] as a whole *)

Lemma for_each_prefix_throw {A S} (body : S -> A -> result S) l1 l2 s e :
  for_each body l1 s = Throw e -> for_each body (l1 ++ l2) s = Throw e.
Proof. intros H. now rewrite for_each_app, H. Qed.

Lemma make_span_split (k n : nat) :
  (k <= n)%nat -> exists rest, make_span (N.of_nat n) = make_span (N.of_nat k) ++ rest.
Proof.
  intros Hle. unfold make_span. rewrite !Nat2N.id.
  exists (map N.of_nat (seq (0 + k) (n - k))).
  rewrite <- map_app, <- seq_app. do 2 f_equal. lia.
Qed.

(** A test on indices fails below [n] everywhere or holds at a first index. *)
Lemma first_true (f : nat -> bool) (n : nat) :
  (forall j, (j < n)%nat -> f j = false) \/
  (exists k, (k < n)%nat /\ f k = true /\ forall j, (j < k)%nat -> f j = false).
Proof.
  induction n as [|n [IH|IH]].
  - left. intros j Hj. lia.
  - destruct (f n) eqn:Hn.
    + right. exists n. repeat split; [lia | exact Hn | exact IH].
    + left. intros j Hj. destruct (Nat.eq_dec j n) as [->|Hne]; [exact Hn|].
      apply IH. lia.
  - right. destruct IH as (k & Hk & Hfk & Hlt). exists k. repeat split; auto.
Qed.

Section PruneWhole.

Context {mpoint : Type}.
Implicit Types (t out : @segment_tree mpoint) (i : msize_t).

Lemma is_tagged_lt t tg i :
  is_tagged t tg i = true -> i < vec_size (segments t).
Proof.
  unfold is_tagged, vec_size. intros H.
  destruct (segments t !! N.to_nat i) as [s|] eqn:Hs; [|discriminate].
  apply lookup_lt_Some in Hs. lia.
Qed.

Lemma is_unpruned_child_lt t tg i :
  is_unpruned_child t tg i = true -> i < vec_size (segments t).
Proof.
  unfold is_unpruned_child, vec_size. intros H.
  destruct (segments t !! N.to_nat i) as [s|] eqn:Hs; [|discriminate].
  apply lookup_lt_Some in Hs. lia.
Qed.

(** [tag_roots] returns the tag roots in ascending order. *)
Lemma tag_roots_spec t tg :
  well_formed t -> vec_size (segments t) <= mnpos ->
  tag_roots t tg =
  Return (filter (fun i => is_tag_root t tg i = true)
                 (make_span (vec_size (segments t)))).
Proof.
  intros [Hpl _ Hlt _ _] Hfit. unfold tag_roots, vec_size, mnpos in *.
  destruct (for_each_span_inv
    (fun tag_roots i =>
       do par <- vec_at (parents t) i;
       do seg <- vec_at (segments t) i;
       do is_tag_root <-
         (if (tag seg =? tg)%Z then
            if par =? mnpos then Return true
            else do pseg <- vec_at (segments t) par;
                 Return (negb (tag pseg =? tg)%Z)
          else Return false);
       Return (if is_tag_root then tag_roots ++ [to_msize i] else tag_roots))
    (fun k roots =>
       roots = filter (fun i => is_tag_root t tg i = true)
                      (make_span (N.of_nat k)))
    (length (segments t)) []) as (roots & Hroots & ->).
  - reflexivity.
  - intros k roots Hk ->.
    destruct (lookup_lt_is_Some_2 (segments t) k) as [s Hs]; [exact Hk|].
    destruct (lookup_lt_is_Some_2 (parents t) k) as [p Hp].
    { unfold parents, segments in *. rewrite Hpl. exact Hk. }
    rewrite (vec_at_of_nat _ _ _ Hs), (vec_at_of_nat _ _ _ Hp). simpl.
    assert ((if (tag s =? tg)%Z then
               if p =? mnpos then Return true
               else do pseg <- vec_at (segments t) p;
                    Return (negb (tag pseg =? tg)%Z)
             else Return false) =
            Return (is_tag_root t tg (N.of_nat k))) as ->.
    { unfold is_tag_root. rewrite <- (is_tagged_lookup t tg k s Hs).
      rewrite Nat2N.id, Hp.
      destruct (tag s =? tg)%Z; [|reflexivity]. simpl.
      destruct (p =? mnpos) eqn:Hpn; [reflexivity|]. simpl.
      apply N.eqb_neq in Hpn. pose proof (Hlt _ _ Hp Hpn) as Hpk.
      destruct (lookup_lt_is_Some_2 (segments t) (N.to_nat p)) as [ps Hps]; [lia|].
      unfold vec_at, is_tagged. now rewrite Hps. }
    simpl. eexists. split; [reflexivity|].
    rewrite filter_make_span_succ.
    destruct (is_tag_root t tg (N.of_nat k)).
    + rewrite decide_True by reflexivity. rewrite to_msize_small by lia.
      reflexivity.
    + rewrite decide_False by discriminate. now rewrite app_nil_r.
  - exact Hroots.
Qed.

(** [prune_tag] on a forest without a surviving child of a pruned parent. *)
Lemma prune_tag_closed t tg :
  well_formed t -> vec_size (segments t) <= int_max ->
  (forall i, is_unpruned_child t tg i = false) ->
  exists out,
    prune_tag t tg =
      Return (out, filter (fun i => is_tag_root t tg i = true)
                          (make_span (vec_size (segments t)))) /\
    segments out =
      imap (fun j s => mk_msegment (N.of_nat j) (prox s) (dist s) (tag s))
           (filter (fun s => tag s <> tg) (segments t)) /\
    parents out =
      map (fun sp => renumber t tg sp.2)
          (filter (fun sp => tag sp.1 <> tg) (zip (segments t) (parents t))).
Proof.
  intros Hwf Hfit Hclosed.
  destruct (prune_scan_loop t tg Hwf Hfit) as (st & Hst & Hoff & Hroots).
  destruct (prune_copy_prefix t tg st (length (segments t)) Hwf Hfit Hoff)
    as (out & Hout & Hsg & Hpa & _); [lia | auto |].
  exists out. unfold prune_tag. rewrite Hst. simpl.
  unfold vec_size at 1. rewrite Hout. simpl. rewrite Hroots.
  split; [reflexivity|].
  rewrite firstn_all in Hsg. rewrite take_ge in Hpa.
  - auto.
  - rewrite length_zip_with. lia.
Qed.

(** [prune_tag] on a forest with a surviving child of a pruned parent: the
    first of them stops the second loop. *)
Lemma prune_tag_not_closed t tg (k : nat) :
  well_formed t -> vec_size (segments t) <= int_max ->
  is_unpruned_child t tg (N.of_nat k) = true ->
  (forall j : nat, (j < k)%nat -> is_unpruned_child t tg (N.of_nat j) = false) ->
  exists par seg, prune_tag t tg = Throw (unpruned_child par seg tg).
Proof.
  intros Hwf Hfit Hk Hfirst.
  destruct (prune_scan_loop t tg Hwf Hfit) as (st & Hst & Hoff & _).
  pose proof (is_unpruned_child_lt t tg _ Hk) as Hlt. unfold vec_size in Hlt.
  destruct (prune_copy_prefix t tg st k Hwf Hfit Hoff) as (out & Hout & _);
    [lia | exact Hfirst |].
  destruct (lookup_lt_is_Some_2 (segments t) k) as [s Hs]; [lia|].
  destruct (lookup_lt_is_Some_2 (parents t) k) as [p Hp].
  { unfold parents, segments in *. rewrite (wf_parents_length t Hwf). lia. }
  exists p, (id s). unfold prune_tag. rewrite Hst. simpl.
  destruct (make_span_split (S k) (length (segments t))) as [rest Hrest]; [lia|].
  unfold vec_size at 1. rewrite Hrest, make_span_succ.
  rewrite (for_each_prefix_throw _ _ _ _ (unpruned_child p (id s) tg));
    [reflexivity|].
  rewrite for_each_app, Hout. simpl.
  now rewrite (prune_copy_step_unpruned_child t tg st out k s p Hwf Hs Hp Hk).
Qed.

End PruneWhole.

Section PruneClaims.

Context {mpoint : Type}.
Implicit Types (t out : @segment_tree mpoint) (i : msize_t).

(** A test of all indices of the forest settles [is_unpruned_child]
    everywhere. *)
Lemma no_unpruned_child_by_range t tg :
  forallb (fun i => negb (is_unpruned_child t tg i))
          (make_span (vec_size (segments t))) = true ->
  forall i, is_unpruned_child t tg i = false.
Proof.
  intros Hall i. destruct (is_unpruned_child t tg i) eqn:Hi; [|reflexivity].
  pose proof (is_unpruned_child_lt t tg i Hi) as Hlt.
  rewrite forallb_forall in Hall. specialize (Hall i).
  rewrite Hi in Hall. symmetry. apply Hall.
  apply list_elem_of_In. unfold vec_size in *. now apply elem_of_make_span.
Qed.

Lemma unpruned_child_cases t tg :
  (forall i, is_unpruned_child t tg i = false) \/
  (exists k : nat, is_unpruned_child t tg (N.of_nat k) = true /\
     forall j : nat, (j < k)%nat -> is_unpruned_child t tg (N.of_nat j) = false).
Proof.
  destruct (first_true (fun j => is_unpruned_child t tg (N.of_nat j))
                       (length (segments t))) as [Hnone|(k & _ & Hk & Hfirst)].
  - left. intros i. destruct (is_unpruned_child t tg i) eqn:Hi; [|reflexivity].
    pose proof (is_unpruned_child_lt t tg i Hi) as Hlt. unfold vec_size in Hlt.
    rewrite <- (N2Nat.id i), Hnone in Hi; [discriminate | lia].
  - right. eauto.
Qed.

(** C3.  On a reachable forest that [int] can count, in which no surviving
    segment has a parent that carries the tag, [prune_tag] returns a forest
    whose segments are the segments of the input with another tag, in their
    order and with their new positions for ids, and in which the parent of
    each is the old parent index less the number of tagged indices below it,
    the sentinel staying the sentinel. *)
Theorem prune_tag_survivors t tg :
  reachable t -> vec_size (segments t) <= int_max ->
  (forall i, is_unpruned_child t tg i = false) ->
  exists out roots,
    prune_tag t tg = Return (out, roots) /\
    segments out =
      imap (fun j s => mk_msegment (N.of_nat j) (prox s) (dist s) (tag s))
           (filter (fun s => tag s <> tg) (segments t)) /\
    parents out =
      map (fun sp => renumber t tg sp.2)
          (filter (fun sp => tag sp.1 <> tg) (zip (segments t) (parents t))).
Proof.
  intros Hr Hfit Hclosed. apply reachable_well_formed in Hr.
  destruct (prune_tag_closed t tg Hr Hfit Hclosed) as (out & Hp & Hs & Hpa).
  eauto.
Qed.

(** C4.  On a reachable forest that [int] can count, [prune_tag] throws
    unpruned-child exactly when some segment with another tag has a parent
    that is not the sentinel and carries the tag; it returns a forest and the
    tag roots exactly when there is no such segment, so that a throw leaves
    no forest. *)
Theorem prune_tag_unpruned_child_iff t tg :
  reachable t -> vec_size (segments t) <= int_max ->
  ((exists i, is_unpruned_child t tg i = true) <->
   (exists par seg, prune_tag t tg = Throw (unpruned_child par seg tg))) /\
  ((forall i, is_unpruned_child t tg i = false) <->
   (exists out roots, prune_tag t tg = Return (out, roots))).
Proof.
  intros Hr Hfit. apply reachable_well_formed in Hr.
  destruct (unpruned_child_cases t tg) as [Hnone|(k & Hk & Hfirst)].
  - destruct (prune_tag_closed t tg Hr Hfit Hnone) as (out & Hp & _).
    split; split.
    + intros [i Hi]. rewrite Hnone in Hi. discriminate.
    + intros (par & seg & Hthrow). rewrite Hp in Hthrow. discriminate.
    + eauto.
    + intros _. exact Hnone.
  - destruct (prune_tag_not_closed t tg k Hr Hfit Hk Hfirst) as (par & seg & Hp).
    split; split.
    + eauto.
    + eauto.
    + intros Hnone. rewrite Hnone in Hk. discriminate.
    + intros (out & roots & Hret). rewrite Hp in Hret. discriminate.
Qed.

(** C5.  When [prune_tag] returns on a reachable forest that [int] can
    count, the roots it returns are what [tag_roots] returns for the same
    forest and tag: a strictly ascending list that holds exactly the indices
    whose segment carries the tag while its parent is the sentinel or carries
    another tag. *)
Theorem prune_tag_roots t tg out roots :
  reachable t -> vec_size (segments t) <= int_max ->
  prune_tag t tg = Return (out, roots) ->
  tag_roots t tg = Return roots /\
  StronglySorted N.lt roots /\
  forall i, i ∈ roots <-> is_tag_root t tg i = true.
Proof.
  intros Hr Hfit Hp. apply reachable_well_formed in Hr.
  destruct (unpruned_child_cases t tg) as [Hnone|(k & Hk & Hfirst)].
  - destruct (prune_tag_closed t tg Hr Hfit Hnone) as (out' & Hp' & _).
    rewrite Hp in Hp'. inversion Hp'; subst. clear Hp'.
    split; [|split].
    + apply tag_roots_spec; [exact Hr|]. unfold int_max, mnpos in *. lia.
    + unfold vec_size. apply filter_make_span_sorted.
    + intros i. rewrite list_elem_of_filter. unfold vec_size.
      rewrite elem_of_make_span. split; [tauto|].
      intros Hi. split; [exact Hi|].
      unfold is_tag_root in Hi. apply andb_true_iff in Hi as [Hi _].
      now apply is_tagged_lt in Hi.
  - destruct (prune_tag_not_closed t tg k Hr Hfit Hk Hfirst) as (par & seg & Hp').
    rewrite Hp in Hp'. discriminate.
Qed.

End PruneClaims.

Lemma prune_tag_survivors_witness :
  exists out roots,
    prune_tag sample_tree 1 = Return (out, roots) /\
    segments out =
      imap (fun j s => mk_msegment (N.of_nat j) (prox s) (dist s) (tag s))
           (filter (fun s => tag s <> 1%Z) (segments sample_tree)) /\
    parents out =
      map (fun sp => renumber sample_tree 1 sp.2)
          (filter (fun sp => tag sp.1 <> 1%Z)
                  (zip (segments sample_tree) (parents sample_tree))).
Proof.
  apply (prune_tag_survivors sample_tree 1).
  - exact sample_tree_reachable.
  - vm_compute. discriminate.
  - apply no_unpruned_child_by_range. vm_compute. reflexivity.
Defined.

Lemma prune_tag_unpruned_child_iff_witness :
  exists par seg, prune_tag sample_tree 0 = Throw (unpruned_child par seg 0).
Proof.
  destruct (prune_tag_unpruned_child_iff sample_tree 0) as [[Hthrow _] _].
  - exact sample_tree_reachable.
  - vm_compute. discriminate.
  - apply Hthrow. exists 1. vm_compute. reflexivity.
Defined.

Lemma prune_tag_roots_witness :
  tag_roots sample_tree 1 = Return [1] /\
  StronglySorted N.lt [1] /\
  forall i, i ∈ [1] <-> is_tag_root sample_tree 1 i = true.
Proof.
  apply (prune_tag_roots sample_tree 1
           (mk_segment_tree
              [mk_msegment 0 0%Z 1%Z 0%Z; mk_msegment 1 1%Z 5%Z 0%Z]
              [mnpos; 0] [mk_child_prop 1%Z; mk_child_prop 0%Z])
           [1]).
  - exact sample_tree_reachable.
  - vm_compute. discriminate.
  - vm_compute. reflexivity.
Defined.

(** ** [equivalent] and siblings that compare equal *)

Lemma sort_insert_perm {A} (lt : A -> A -> bool) x l :
  Permutation (sort_insert lt x l) (x :: l).
Proof.
  induction l as [|y l IH]; simpl; [reflexivity|].
  destruct (lt y x); [|reflexivity].
  rewrite IH. apply perm_swap.
Qed.

Lemma std_sort_perm {A} (lt : A -> A -> bool) l : Permutation (std_sort lt l) l.
Proof.
  induction l as [|x l IH]; simpl; [reflexivity|].
  rewrite sort_insert_perm. now constructor.
Qed.

Lemma tied_siblings_reachable : reachable tied_siblings.
Proof.
  apply (append_all_reachable tied_appends empty_tree).
  - apply reachable_empty.
  - vm_compute. reflexivity.
Qed.

Lemma tied_siblings_reordered_reachable : reachable tied_siblings_reordered.
Proof.
  apply (append_all_reachable tied_reordered_appends empty_tree).
  - apply reachable_empty.
  - vm_compute. reflexivity.
Qed.

Section EquivalentLoop.

Context {mpoint : Type} {point_ops : PointOps mpoint}.
Variable sort_segments :
  (@msegment mpoint -> @msegment mpoint -> bool) -> list (@msegment mpoint) ->
  list (@msegment mpoint).

Lemma fetch_children_bucket cursor segs (children_of : gmap N (list N)) l found :
  children_of !!! cursor = l ->
  for_each (fun acc ix => do s <- vec_at segs ix; Return (acc ++ [s])) l [] =
    Return found ->
  fetch_children sort_segments cursor segs children_of =
  Return (sort_segments fetch_children_less found).
Proof. intros <- H. unfold fetch_children. now rewrite H. Qed.

(** A turn of the loop that matches the children of the two cursors. *)
Lemma equivalent_loop_match fuel a b ma mb ac bc todo as_ bs todo' :
  fetch_children sort_segments ac (segments a) ma = Return as_ ->
  fetch_children sort_segments bc (segments b) mb = Return bs ->
  vec_size as_ = vec_size bs ->
  match_children as_ bs todo = Some todo' ->
  equivalent_loop sort_segments (S fuel) a b ma mb ((ac, bc) :: todo) =
  equivalent_loop sort_segments fuel a b ma mb todo'.
Proof.
  intros Ha Hb Hsz Hm. simpl. rewrite Ha, Hb. simpl.
  apply N.eqb_eq in Hsz. now rewrite Hsz, Hm.
Qed.

(** A turn of the loop that finds children lists of two lengths. *)
Lemma equivalent_loop_sizes fuel a b ma mb ac bc todo as_ bs :
  fetch_children sort_segments ac (segments a) ma = Return as_ ->
  fetch_children sort_segments bc (segments b) mb = Return bs ->
  vec_size as_ <> vec_size bs ->
  equivalent_loop sort_segments (S fuel) a b ma mb ((ac, bc) :: todo) =
  Return false.
Proof.
  intros Ha Hb Hsz. simpl. rewrite Ha, Hb. simpl.
  apply N.eqb_neq in Hsz. now rewrite Hsz.
Qed.

End EquivalentLoop.

Section TiedSiblings.

Variable sort_segments :
  (@msegment Z -> @msegment Z -> bool) -> list (@msegment Z) -> list (@msegment Z).
Hypothesis sort_perm : forall lt l, Permutation (sort_segments lt l) l.

Lemma sort_none lt : sort_segments lt [] = [].
Proof. apply Permutation_nil. symmetry. apply sort_perm. Qed.

Lemma sort_one lt (x : @msegment Z) : sort_segments lt [x] = [x].
Proof. apply Permutation_length_1_inv. symmetry. apply sort_perm. Qed.

Lemma sort_two lt (x y : @msegment Z) :
  sort_segments lt [x; y] = [x; y] \/ sort_segments lt [x; y] = [y; x].
Proof. apply Permutation_length_2_inv. symmetry. apply sort_perm. Qed.

(** Whatever order the sort gives to the two tied children of the root,
    the loop pairs a child that has a child with one that has none. *)
Lemma equivalent_by_tied_siblings :
  equivalent_by sort_segments tied_siblings tied_siblings_reordered =
  Return false.
Proof.
  unfold equivalent_by.
  assert (negb (size tied_siblings =? size tied_siblings_reordered) = false)
    as -> by (vm_compute; reflexivity).
  assert (exists ma, tree_to_children tied_siblings = Return ma /\
            ma !!! mnpos = [0] /\ ma !!! 0 = [1; 2] /\
            ma !!! 1 = [3] /\ ma !!! 2 = [])
    as (ma & -> & Ha & Ha0 & Ha1 & Ha2).
  { eexists. split; [vm_compute; reflexivity|]. vm_compute. auto. }
  assert (exists mb, tree_to_children tied_siblings_reordered = Return mb /\
            mb !!! mnpos = [0] /\ mb !!! 0 = [1; 2] /\
            mb !!! 1 = [] /\ mb !!! 2 = [3])
    as (mb & -> & Hb & Hb0 & Hb1 & Hb2).
  { eexists. split; [vm_compute; reflexivity|]. vm_compute. auto. }
  cbn [bind].
  change (S (length (segments tied_siblings))) with 5%nat.
  set (r := mk_msegment 0 0%Z 1%Z 0%Z).
  set (a := mk_msegment 1 1%Z 2%Z 0%Z).
  set (b := mk_msegment 2 1%Z 2%Z 0%Z).
  set (d := mk_msegment 3 2%Z 3%Z 0%Z).
  (* the roots *)
  rewrite (equivalent_loop_match sort_segments _ _ _ _ _ _ _ _ [r] [r] [(0, 0)]);
    [ | rewrite <- (sort_one fetch_children_less r);
        now apply (fetch_children_bucket _ _ _ _ [0])
      | rewrite <- (sort_one fetch_children_less r);
        now apply (fetch_children_bucket _ _ _ _ [0])
      | reflexivity | reflexivity ].
  (* the two tied children, in the one order or in the other *)
  destruct (sort_two fetch_children_less a b) as [Hs|Hs].
  - rewrite (equivalent_loop_match sort_segments _ _ _ _ _ _ _ _
               [a; b] [a; b] [(2, 2); (1, 1)]);
      [ | rewrite <- Hs; now apply (fetch_children_bucket _ _ _ _ [1; 2])
        | rewrite <- Hs; now apply (fetch_children_bucket _ _ _ _ [1; 2])
        | reflexivity | reflexivity ].
    apply (equivalent_loop_sizes sort_segments _ _ _ _ _ _ _ _ [] [d]).
    + rewrite <- (sort_none fetch_children_less).
      now apply (fetch_children_bucket _ _ _ _ []).
    + rewrite <- (sort_one fetch_children_less d).
      now apply (fetch_children_bucket _ _ _ _ [3]).
    + discriminate.
  - rewrite (equivalent_loop_match sort_segments _ _ _ _ _ _ _ _
               [b; a] [b; a] [(1, 1); (2, 2)]);
      [ | rewrite <- Hs; now apply (fetch_children_bucket _ _ _ _ [1; 2])
        | rewrite <- Hs; now apply (fetch_children_bucket _ _ _ _ [1; 2])
        | reflexivity | reflexivity ].
    apply (equivalent_loop_sizes sort_segments _ _ _ _ _ _ _ _ [d] []).
    + rewrite <- (sort_one fetch_children_less d).
      now apply (fetch_children_bucket _ _ _ _ [3]).
    + rewrite <- (sort_none fetch_children_less).
      now apply (fetch_children_bucket _ _ _ _ []).
    + discriminate.
Qed.

End TiedSiblings.

(** The statement of C2 fails at a forest with tied siblings.
    [tied_siblings_reordered] is [tied_siblings] with the two children of
    the root appended in the other order (the renaming [0, 2, 1, 3] of the
    indices keeps every proximal point, distal point, tag and parent link),
    both are built by appends, and [equivalent] returns false for the
    pair. *)
Lemma equivalent_rejects_reordered_tied_siblings :
  reachable tied_siblings /\
  reachable tied_siblings_reordered /\
  is_reordering [0; 2; 1; 3] tied_siblings tied_siblings_reordered = true /\
  equivalent tied_siblings tied_siblings_reordered = Return false.
Proof.
  split; [|split; [|split]].
  - exact tied_siblings_reachable.
  - exact tied_siblings_reordered_reachable.
  - vm_compute. reflexivity.
  - apply equivalent_by_tied_siblings. intros lt l. apply std_sort_perm.
Qed.

(** The statement of C1 fails at the same forest.  [split_at] cuts
    [tied_siblings] at index 1, whose parent is index 0, the root, which is
    segment 0 of [pre] as well; [join_at] grafts [post] there and returns
    [tied_siblings_reordered]; [equivalent] returns false for the forest
    before and the forest after. *)
Lemma split_join_not_equivalent_tied_siblings :
  reachable tied_siblings /\
  vec_at (parents tied_siblings) 1 = Return 0 /\
  split_at tied_siblings 1 = Return (tied_pre, tied_post) /\
  join_at tied_pre 0 tied_post = Return tied_siblings_reordered /\
  equivalent tied_siblings tied_siblings_reordered = Return false.
Proof.
  split; [|split; [|split; [|split]]].
  - exact tied_siblings_reachable.
  - reflexivity.
  - vm_compute. reflexivity.
  - vm_compute. reflexivity.
  - apply equivalent_by_tied_siblings. intros lt l. apply std_sort_perm.
Qed.

(** ** Sorting siblings without ties *)

#[export] Instance Z_point_order : PointOrder Z.
Proof.
  constructor; simpl.
  - apply Z.eqb_eq.
  - apply Z.ltb_irrefl.
  - intros x y z Hxy Hyz. apply Z.ltb_lt in Hxy, Hyz. apply Z.ltb_lt. lia.
  - intros x y Hne. rewrite !Z.ltb_lt. lia.
Qed.

Section KeyOrder.

Context {mpoint : Type} `{PointOrder mpoint}.
Implicit Types (k : mpoint * mpoint * Z) (s : @msegment mpoint).

Lemma point_ltb_asym (x y : mpoint) :
  point_ltb x y = true -> point_ltb y x = false.
Proof.
  intros Hxy. destruct (point_ltb y x) eqn:Hyx; [|reflexivity].
  pose proof (point_ltb_trans _ _ _ Hxy Hyx) as Hxx.
  now rewrite point_ltb_irrefl in Hxx.
Qed.

Lemma point_ltb_neither (x y : mpoint) :
  point_ltb x y = false -> point_ltb y x = false -> x = y.
Proof.
  intros Hxy Hyx. destruct (point_eqb x y) eqn:Heq.
  - now apply point_eqb_eq.
  - assert (x <> y) as Hne.
    { intros Hxy'. apply point_eqb_eq in Hxy'. congruence. }
    destruct (point_ltb_total x y Hne); congruence.
Qed.

(** Two points compare one way, or the other, or are one point. *)
Lemma point_trichotomy (x y : mpoint) :
  (point_ltb x y = true /\ point_ltb y x = false) \/
  (x = y /\ point_ltb x y = false) \/
  (point_ltb y x = true /\ point_ltb x y = false).
Proof.
  destruct (point_ltb x y) eqn:Hxy.
  - left. split; [reflexivity|]. now apply point_ltb_asym.
  - destruct (point_ltb y x) eqn:Hyx.
    + right. right. auto.
    + right. left. split; [|reflexivity]. now apply point_ltb_neither.
Qed.

Lemma key_ltb_irrefl k : key_ltb k k = false.
Proof.
  destruct k as [[p d] t]. simpl. rewrite !point_ltb_irrefl.
  apply Z.ltb_irrefl.
Qed.

Lemma key_ltb_total k1 k2 :
  k1 <> k2 -> key_ltb k1 k2 = true \/ key_ltb k2 k1 = true.
Proof.
  destruct k1 as [[p1 d1] t1], k2 as [[p2 d2] t2]. intros Hne. simpl.
  destruct (point_trichotomy p1 p2) as [[-> ->]|[[-> Hp]|[-> ->]]]; auto.
  rewrite Hp.
  destruct (point_trichotomy d1 d2) as [[-> ->]|[[-> Hd]|[-> ->]]]; auto.
  rewrite Hd. rewrite !Z.ltb_lt.
  assert (t1 <> t2) by congruence. lia.
Qed.

Lemma key_ltb_trans k1 k2 k3 :
  key_ltb k1 k2 = true -> key_ltb k2 k3 = true -> key_ltb k1 k3 = true.
Proof.
  destruct k1 as [[p1 d1] t1], k2 as [[p2 d2] t2], k3 as [[p3 d3] t3]. simpl.
  destruct (point_trichotomy p1 p2) as [[Hp12 ->]|[[-> ->]|[-> ->]]];
    [rewrite Hp12| |discriminate].
  - intros _.
    destruct (point_trichotomy p2 p3) as [[Hp23 ->]|[[<- ->]|[-> ->]]];
      [|now rewrite Hp12|discriminate].
    intros _. now rewrite (point_ltb_trans _ _ _ Hp12 Hp23).
  - destruct (point_ltb p2 p3); [reflexivity|].
    destruct (point_ltb p3 p2); [intros; discriminate|].
    destruct (point_trichotomy d1 d2) as [[Hd12 ->]|[[-> ->]|[-> ->]]];
      [rewrite Hd12| |discriminate].
    + intros _.
      destruct (point_trichotomy d2 d3) as [[Hd23 ->]|[[<- ->]|[-> ->]]];
        [|now rewrite Hd12|discriminate].
      intros _. now rewrite (point_ltb_trans _ _ _ Hd12 Hd23).
    + destruct (point_ltb d2 d3); [reflexivity|].
      destruct (point_ltb d3 d2); [intros; discriminate|].
      rewrite !Z.ltb_lt. lia.
Qed.

Lemma key_ltb_asym k1 k2 : key_ltb k1 k2 = true -> key_ltb k2 k1 = false.
Proof.
  intros H12. destruct (key_ltb k2 k1) eqn:H21; [|reflexivity].
  pose proof (key_ltb_trans _ _ _ H12 H21) as H11.
  now rewrite key_ltb_irrefl in H11.
Qed.

Lemma fetch_children_less_key s1 s2 :
  fetch_children_less s1 s2 = key_ltb (segment_key s1) (segment_key s2).
Proof. reflexivity. Qed.

Lemma same_geometry_key s1 s2 :
  same_geometry s1 s2 = true <-> segment_key s1 = segment_key s2.
Proof.
  unfold same_geometry, segment_key.
  rewrite !andb_true_iff, !point_eqb_eq, Z.eqb_eq. split.
  - intros [[-> ->] ->]. reflexivity.
  - intros Heq. inversion Heq. auto.
Qed.

End KeyOrder.

Section SortByKey.

Context {A K : Type} (key : A -> K) (klt : K -> K -> bool).
Hypothesis klt_trans : forall x y z,
  klt x y = true -> klt y z = true -> klt x z = true.
Hypothesis klt_total : forall x y, x <> y -> klt x y = true \/ klt y x = true.

Let lt (x y : A) : bool := klt (key x) (key y).

Lemma sort_insert_by_key x l :
  key x ∉ map key l ->
  StronglySorted (fun a b => klt (key a) (key b) = true) l ->
  StronglySorted (fun a b => klt (key a) (key b) = true) (sort_insert lt x l).
Proof.
  intros Hx Hl. induction Hl as [|y l Hl IH Hy]; cbn [sort_insert].
  - repeat constructor.
  - rewrite map_cons in Hx. apply not_elem_of_cons in Hx as [Hxy Hx].
    unfold lt at 1. destruct (klt (key y) (key x)) eqn:Hyx.
    + constructor; [now apply IH|].
      eapply Permutation_Forall; [symmetry; apply sort_insert_perm|].
      constructor; assumption.
    + destruct (klt_total (key x) (key y) Hxy) as [Hlt|Hlt]; [|congruence].
      constructor; [now constructor|].
      constructor; [exact Hlt|].
      eapply Forall_impl; [exact Hy|]. simpl. intros z Hz.
      now apply (klt_trans _ (key y)).
Qed.

Lemma std_sort_by_key l :
  NoDup (map key l) ->
  StronglySorted (fun a b => klt (key a) (key b) = true) (std_sort lt l).
Proof.
  induction l as [|x l IH]; cbn [std_sort]; intros Hnd; [constructor|].
  rewrite map_cons in Hnd. apply NoDup_cons in Hnd as [Hx Hnd].
  apply sort_insert_by_key; [|now apply IH].
  intros Hin. apply Hx.
  eapply elem_of_Permutation_proper; [|exact Hin].
  apply Permutation_map. symmetry. apply std_sort_perm.
Qed.

End SortByKey.

(** ** Children lists *)

Lemma make_span_NoDup (k : nat) : NoDup (make_span (N.of_nat k)).
Proof.
  unfold make_span. rewrite Nat2N.id.
  apply (NoDup_fmap_2 N.of_nat). apply NoDup_seq.
Qed.

Section Children.

Context {mpoint : Type}.
Implicit Types (t : @segment_tree mpoint) (q i j : msize_t).

Lemma tree_to_children_at t :
  well_formed t ->
  exists m, tree_to_children t = Return m /\ forall q, m !!! q = children_at t q.
Proof. intros Hwf. apply tree_to_children_spec, (wf_parents_length t Hwf). Qed.

Lemma elem_of_children_at t q j :
  j ∈ children_at t q <-> j < size t /\ parents_ t !! N.to_nat j = Some q.
Proof.
  unfold children_at. rewrite list_elem_of_filter.
  rewrite <- (N2Nat.id (size t)), elem_of_make_span. tauto.
Qed.

Lemma children_at_NoDup t q : NoDup (children_at t q).
Proof.
  unfold children_at. apply NoDup_filter.
  rewrite <- (N2Nat.id (size t)). apply make_span_NoDup.
Qed.

(** The segments at the indices of a list, as the loop of [fetch_children]
    collects them. *)
Lemma fetch_loop_spec (segs : list (@msegment mpoint)) (l : list N) :
  Forall (fun i => (N.to_nat i < length segs)%nat) l ->
  forall acc, exists found,
    for_each (fun acc ix => do s <- vec_at segs ix; Return (acc ++ [s])) l acc =
      Return (acc ++ found) /\
    Forall2 (fun i s => segs !! N.to_nat i = Some s) l found.
Proof.
  induction 1 as [|i l Hi _ IH]; intros acc.
  - exists []. simpl. rewrite app_nil_r. split; [reflexivity | constructor].
  - destruct (lookup_lt_is_Some_2 segs (N.to_nat i) Hi) as [s Hs].
    destruct (IH (acc ++ [s])) as (found & Hf & Hall).
    exists (s :: found). split.
    + simpl. unfold vec_at at 1. rewrite Hs. simpl. rewrite Hf.
      now rewrite <- app_assoc.
    + now constructor.
Qed.

End Children.

(** ** Lists read through two relations *)

Lemma Forall2_join {I A B} (R1 : I -> A -> Prop) (R2 : I -> B -> Prop) l k1 k2 :
  Forall2 R1 l k1 -> Forall2 R2 l k2 ->
  Forall2 (fun x y => exists i, i ∈ l /\ R1 i x /\ R2 i y) k1 k2.
Proof.
  intros H1. revert k2. induction H1 as [|i x l k1 Hix _ IH]; intros k2 H2.
  - inversion H2. constructor.
  - inversion H2 as [|? y ? k2' Hiy H2']; subst. constructor.
    + exists i. split; [apply list_elem_of_here | auto].
    + eapply Forall2_impl; [apply IH; exact H2'|].
      intros x' y' (j & Hj & Hjx & Hjy). exists j.
      split; [now apply list_elem_of_further | auto].
Qed.

Lemma Forall2_elem_of_right {A B} (Q : A -> B -> Prop) k1 k2 y :
  Forall2 Q k1 k2 -> y ∈ k2 -> exists x, x ∈ k1 /\ Q x y.
Proof.
  induction 1 as [|x y' k1 k2 Hxy _ IH]; intros Hy.
  - inversion Hy.
  - apply elem_of_cons in Hy as [->|Hy].
    + exists x. split; [apply list_elem_of_here | exact Hxy].
    + destruct (IH Hy) as (x' & Hx' & HQ). exists x'.
      split; [now apply list_elem_of_further | exact HQ].
Qed.

Lemma Forall2_with_elems {A B} (Q : A -> B -> Prop) k1 k2 :
  Forall2 Q k1 k2 -> Forall2 (fun x y => x ∈ k1 /\ y ∈ k2 /\ Q x y) k1 k2.
Proof.
  induction 1 as [|x y k1 k2 Hxy _ IH]; constructor.
  - repeat split; [apply list_elem_of_here | apply list_elem_of_here | exact Hxy].
  - eapply Forall2_impl; [exact IH|].
    intros x' y' (Hx' & Hy' & HQ).
    repeat split; [now apply list_elem_of_further | now apply list_elem_of_further | exact HQ].
Qed.

Lemma NoDup_fmap_elem_inj {A K} (key : A -> K) l x y :
  NoDup (map key l) -> x ∈ l -> y ∈ l -> key x = key y -> x = y.
Proof.
  induction l as [|z l IH]; intros Hnd Hx Hy Hk; [inversion Hx|].
  rewrite map_cons in Hnd. apply NoDup_cons in Hnd as [Hz Hnd].
  apply elem_of_cons in Hx as [->|Hx]; apply elem_of_cons in Hy as [->|Hy].
  - reflexivity.
  - exfalso. apply Hz. rewrite Hk. apply list_elem_of_fmap. eauto.
  - exfalso. apply Hz. rewrite <- Hk. apply list_elem_of_fmap. eauto.
  - now apply IH.
Qed.

Lemma Forall2_map_fst {I A} (R : I -> A -> Prop) (f : A -> I) l k :
  Forall2 R l k -> (forall i x, R i x -> f x = i) -> map f k = l.
Proof.
  intros HR Hf. induction HR as [|i x l k Hix _ IH]; simpl; [reflexivity|].
  now rewrite (Hf i x Hix), IH.
Qed.

(** ** What a reordering gives *)

Section ReorderingFacts.

Context {mpoint : Type} `{PointOrder mpoint}.
Variables (a b : @segment_tree mpoint) (sigma : list N).
Hypothesis a_wf : well_formed a.
Hypothesis a_fits : vec_size (segments a) <= mnpos.
Hypothesis a_b : is_reordering sigma a b = true.

Lemma reordering_length_sigma : length sigma = length (segments a).
Proof.
  unfold is_reordering in a_b. rewrite !andb_true_iff in a_b.
  destruct a_b as [[[Hl _] _] _]. now apply Nat.eqb_eq in Hl.
Qed.

Lemma reordering_length : length (segments b) = length (segments a).
Proof.
  unfold is_reordering in a_b. rewrite !andb_true_iff in a_b.
  destruct a_b as [[[_ Hl] _] _]. now apply Nat.eqb_eq in Hl.
Qed.

Lemma reordering_size : size b = size a.
Proof. unfold size, vec_size. fold (segments b). fold (segments a). now rewrite reordering_length. Qed.

Lemma reordering_onto (j : N) :
  j < vec_size (segments b) -> exists i : nat, sigma !! i = Some j.
Proof.
  intros Hj. unfold is_reordering in a_b. rewrite !andb_true_iff in a_b.
  destruct a_b as [[_ Hs] _]. rewrite forallb_forall in Hs.
  specialize (Hs j). rewrite existsb_exists in Hs.
  destruct Hs as (y & Hy & Hjy).
  - apply list_elem_of_In. unfold vec_size in *. now apply elem_of_make_span.
  - apply N.eqb_eq in Hjy. subst y.
    apply list_elem_of_In, list_elem_of_lookup in Hy. exact Hy.
Qed.

Lemma reordering_maps (i : nat) :
  (i < length (segments a))%nat ->
  exists s p j s' p',
    segments a !! i = Some s /\ parents a !! i = Some p /\
    sigma !! i = Some j /\
    segments b !! N.to_nat j = Some s' /\ parents b !! N.to_nat j = Some p' /\
    segment_key s = segment_key s' /\
    (p = mnpos /\ p' = mnpos \/
     p <> mnpos /\ sigma !! N.to_nat p = Some p').
Proof.
  intros Hi. unfold is_reordering in a_b. rewrite !andb_true_iff in a_b.
  destruct a_b as [_ Hm]. rewrite forallb_forall in Hm.
  specialize (Hm i). unfold maps_segment in Hm.
  destruct (segments a !! i) as [s|]; [|now discriminate Hm; apply in_seq; lia].
  destruct (parents a !! i) as [p|]; [|now discriminate Hm; apply in_seq; lia].
  destruct (sigma !! i) as [j|]; [|now discriminate Hm; apply in_seq; lia].
  destruct (segments b !! N.to_nat j) as [s'|] eqn:Hs';
    [|now discriminate Hm; apply in_seq; lia].
  destruct (parents b !! N.to_nat j) as [p'|] eqn:Hp';
    [|now discriminate Hm; apply in_seq; lia].
  destruct (same_geometry s s') eqn:Hg;
    [|now discriminate Hm; apply in_seq; lia].
  apply same_geometry_key in Hg.
  exists s, p, j, s', p'. do 6 (split; [first [reflexivity | assumption]|]).
  destruct (p =? mnpos) eqn:Hp.
  - left. apply N.eqb_eq in Hp. split; [exact Hp|].
    apply N.eqb_eq, Hm, in_seq. lia.
  - right. apply N.eqb_neq in Hp. split; [exact Hp|].
    destruct (sigma !! N.to_nat p) as [q|];
      [|now discriminate Hm; apply in_seq; lia].
    f_equal. symmetry. apply N.eqb_eq, Hm, in_seq. lia.
Qed.

Lemma reordering_sigma_lt (i : nat) j :
  sigma !! i = Some j -> j < vec_size (segments a).
Proof.
  intros Hj.
  assert (i < length (segments a))%nat as Hi.
  { rewrite <- reordering_length_sigma. now apply lookup_lt_Some in Hj. }
  destruct (reordering_maps i Hi) as (s & p & j' & s' & p' & _ & _ & Hj' & Hs' & _).
  rewrite Hj in Hj'. inversion Hj'; subst j'.
  apply lookup_lt_Some in Hs'. rewrite reordering_length in Hs'.
  unfold vec_size. lia.
Qed.

Lemma reordering_sigma_NoDup : NoDup sigma.
Proof.
  apply NoDup_ListNoDup.
  apply (List.NoDup_incl_NoDup (l := make_span (vec_size (segments a)))).
  - apply NoDup_ListNoDup. unfold vec_size. apply make_span_NoDup.
  - unfold make_span, vec_size. rewrite Nat2N.id, length_map, length_seq.
    now rewrite reordering_length_sigma.
  - intros j Hj. unfold vec_size in Hj.
    apply list_elem_of_In, elem_of_make_span in Hj.
    destruct (reordering_onto j) as [i Hi].
    + unfold vec_size. rewrite reordering_length. exact Hj.
    + apply list_elem_of_In, list_elem_of_lookup. eauto.
Qed.

Lemma rename_index (i : nat) j :
  sigma !! i = Some j -> rename sigma (N.of_nat i) = j.
Proof.
  intros Hj. unfold rename.
  assert ((N.of_nat i =? mnpos) = false) as ->.
  { apply N.eqb_neq. apply lookup_lt_Some in Hj.
    rewrite reordering_length_sigma in Hj. unfold vec_size in a_fits. lia. }
  now rewrite Nat2N.id, Hj.
Qed.

Lemma rename_mnpos : rename sigma mnpos = mnpos.
Proof. reflexivity. Qed.

(** The renaming is one to one on the sentinel and the indices of [a]. *)
Lemma rename_inj x y :
  x = mnpos \/ x < vec_size (segments a) ->
  y = mnpos \/ y < vec_size (segments a) ->
  rename sigma x = rename sigma y -> x = y.
Proof.
  assert (forall z, z < vec_size (segments a) ->
            exists j, sigma !! N.to_nat z = Some j /\ rename sigma z = j /\
                      j <> mnpos) as Hidx.
  { intros z Hz. unfold vec_size in *.
    destruct (lookup_lt_is_Some_2 sigma (N.to_nat z)) as [j Hj].
    { rewrite reordering_length_sigma. lia. }
    exists j. split; [exact Hj|]. split.
    - rewrite <- (N2Nat.id z). now apply rename_index.
    - apply reordering_sigma_lt in Hj. unfold vec_size in Hj. lia. }
  intros [->|Hx] [->|Hy]; [reflexivity | | |].
  - destruct (Hidx y Hy) as (j & _ & -> & Hne). rewrite rename_mnpos. congruence.
  - destruct (Hidx x Hx) as (j & _ & -> & Hne). rewrite rename_mnpos. congruence.
  - destruct (Hidx x Hx) as (j & Hjx & -> & _).
    destruct (Hidx y Hy) as (j' & Hjy & -> & _). intros <-.
    pose proof (NoDup_lookup _ _ _ _ reordering_sigma_NoDup Hjx Hjy). lia.
Qed.

Lemma reordering_parent (i : nat) p j :
  parents a !! i = Some p -> sigma !! i = Some j ->
  parents b !! N.to_nat j = Some (rename sigma p).
Proof.
  intros Hp Hj.
  assert (i < length (segments a))%nat as Hi.
  { rewrite <- reordering_length_sigma. now apply lookup_lt_Some in Hj. }
  destruct (reordering_maps i Hi)
    as (s & p0 & j0 & s' & p' & _ & Hp0 & Hj0 & _ & Hp' & _ & Hcases).
  rewrite Hp in Hp0. rewrite Hj in Hj0. inversion Hp0; inversion Hj0; subst p0 j0.
  rewrite Hp'. f_equal. destruct Hcases as [[-> ->]|[Hne Hsp]].
  - reflexivity.
  - rewrite <- (N2Nat.id p). symmetry. now apply rename_index.
Qed.

Lemma reordering_key (i : nat) s j :
  segments a !! i = Some s -> sigma !! i = Some j ->
  exists s', segments b !! N.to_nat j = Some s' /\
             segment_key s = segment_key s'.
Proof.
  intros Hs Hj.
  assert (i < length (segments a))%nat as Hi by (now apply lookup_lt_Some in Hs).
  destruct (reordering_maps i Hi)
    as (s0 & p0 & j0 & s' & p' & Hs0 & _ & Hj0 & Hs' & _ & Hk & _).
  rewrite Hs in Hs0. rewrite Hj in Hj0. inversion Hs0; inversion Hj0; subst s0 j0.
  eauto.
Qed.

Lemma size_a_fits : size a = N.of_nat (length (segments a)).
Proof. now apply size_small. Qed.

Lemma size_b_fits : size b = N.of_nat (length (segments a)).
Proof. rewrite reordering_size. apply size_a_fits. Qed.

(** The children of the image of [x] are the images of the children of
    [x]. *)
Lemma children_at_rename x :
  x = mnpos \/ x < vec_size (segments a) ->
  children_at b (rename sigma x) ≡ₚ map (rename sigma) (children_at a x).
Proof.
  intros Hx. apply NoDup_Permutation.
  - apply children_at_NoDup.
  - apply NoDup_fmap_2_strong; [|apply children_at_NoDup].
    intros y z Hy Hz. apply elem_of_children_at in Hy as [Hy _], Hz as [Hz _].
    rewrite size_a_fits in Hy, Hz.
    apply rename_inj; right; unfold vec_size; assumption.
  - intros j. rewrite list_elem_of_fmap. split.
    + intros Hj. apply elem_of_children_at in Hj as [Hj Hpj].
      rewrite size_b_fits in Hj.
      destruct (reordering_onto j) as [i Hi].
      { unfold vec_size. now rewrite reordering_length. }
      assert (i < length (segments a))%nat as Hilt.
      { rewrite <- reordering_length_sigma. now apply lookup_lt_Some in Hi. }
      destruct (lookup_lt_is_Some_2 (parents a) i) as [p Hp].
      { unfold parents. now rewrite (wf_parents_length a a_wf). }
      pose proof (reordering_parent i p j Hp Hi) as Hpb.
      unfold parents in Hpb. rewrite Hpb in Hpj. inversion Hpj as [Hren].
      assert (p = x) as ->.
      { apply rename_inj; [|exact Hx|exact Hren].
        destruct (N.eq_dec p mnpos) as [->|Hne]; [now left|right].
        pose proof (wf_parent_lt a a_wf i p Hp Hne). unfold vec_size. lia. }
      exists (N.of_nat i). split; [symmetry; now apply rename_index|].
      apply elem_of_children_at. rewrite size_a_fits, Nat2N.id.
      split; [lia | exact Hp].
    + intros (y & -> & Hy). apply elem_of_children_at in Hy as [Hy Hpy].
      rewrite size_a_fits in Hy.
      destruct (lookup_lt_is_Some_2 sigma (N.to_nat y)) as [j Hj].
      { rewrite reordering_length_sigma. lia. }
      pose proof (reordering_parent _ _ _ Hpy Hj) as Hpb.
      pose proof (reordering_sigma_lt _ _ Hj) as Hjlt.
      rewrite <- (N2Nat.id y). rewrite (rename_index _ _ Hj).
      apply elem_of_children_at. rewrite size_b_fits.
      split; [exact Hjlt | exact Hpb].
Qed.

Hypothesis b_wf : well_formed b.
Hypothesis a_no_ties : no_tied_siblings a = true.

Lemma siblings_key_inj (i j : nat) s s' p :
  segments a !! i = Some s -> segments a !! j = Some s' ->
  parents a !! i = Some p -> parents a !! j = Some p ->
  segment_key s = segment_key s' -> i = j.
Proof.
  intros Hs Hs' Hp Hp' Hk.
  destruct (Nat.eq_dec i j) as [Heq|Hne]; [exact Heq|exfalso].
  unfold no_tied_siblings in a_no_ties. rewrite forallb_forall in a_no_ties.
  specialize (a_no_ties i). rewrite forallb_forall in a_no_ties.
  specialize (a_no_ties ltac:(apply in_seq; apply lookup_lt_Some in Hs; lia) j
                ltac:(apply in_seq; apply lookup_lt_Some in Hs'; lia)).
  apply Nat.eqb_neq in Hne. rewrite Hne in a_no_ties. simpl in a_no_ties.
  unfold tied in a_no_ties. rewrite Hs, Hs', Hp, Hp', N.eqb_refl in a_no_ties.
  apply same_geometry_key in Hk. rewrite Hk in a_no_ties. discriminate.
Qed.

Lemma fetch_children_at (t : @segment_tree mpoint) m x :
  (forall q, m !!! q = children_at t q) ->
  exists found,
    fetch_children (@std_sort _) x (segments t) m =
      Return (std_sort fetch_children_less found) /\
    Forall2 (fun i s => segments t !! N.to_nat i = Some s) (children_at t x) found.
Proof.
  intros Hm.
  destruct (fetch_loop_spec (segments t) (children_at t x)) with (acc := @nil (@msegment mpoint))
    as (found & Hf & Hall).
  - apply Forall_forall. intros i Hi. apply elem_of_children_at in Hi as [Hi _].
    pose proof (size_le t) as Hle. unfold vec_size, segments in *. lia.
  - exists found. split; [|exact Hall].
    unfold fetch_children. rewrite Hm, Hf. reflexivity.
Qed.

(** The sorted children of a cursor and of its image agree key by key, and
    the ids of a pair are an index and its image. *)
Lemma paired_children x found_a found_b :
  x = mnpos \/ x < vec_size (segments a) ->
  Forall2 (fun i s => segments a !! N.to_nat i = Some s) (children_at a x) found_a ->
  Forall2 (fun i s => segments b !! N.to_nat i = Some s)
          (children_at b (rename sigma x)) found_b ->
  Forall2 (fun sa sb => segment_key sa = segment_key sb /\
                        id sb = rename sigma (id sa))
          (std_sort fetch_children_less found_a)
          (std_sort fetch_children_less found_b) /\
  map id (std_sort fetch_children_less found_a) ≡ₚ children_at a x.
Proof.
  intros Hx Ha Hb.
  set (Q := fun sa sb : @msegment mpoint =>
              segment_key sa = segment_key sb /\ id sb = rename sigma (id sa)).
  (* the segments of [b] in the order of the children of [x] *)
  destruct (Permutation_Forall2 (children_at_rename x Hx) Hb)
    as (found_b' & Hperm_b & Hb').
  apply Forall2_fmap_l in Hb'.
  assert (forall i sa, i ∈ children_at a x -> segments a !! N.to_nat i = Some sa ->
            id sa = i /\ parents a !! N.to_nat i = Some x) as Hchild.
  { intros i sa Hi Hsa. apply elem_of_children_at in Hi as [Hi Hpi].
    rewrite size_a_fits in Hi. split; [|exact Hpi].
    rewrite (wf_id a a_wf _ _ Hsa), N2Nat.id. apply to_msize_small.
    unfold vec_size, mnpos in a_fits. lia. }
  assert (Forall2 Q found_a found_b') as HQ.
  { eapply Forall2_impl; [exact (Forall2_join _ _ _ _ _ Ha Hb')|].
    intros sa sb (i & Hi & Hsa & Hsb). simpl in Hsb.
    destruct (Hchild i sa Hi Hsa) as [Hid _].
    apply elem_of_children_at in Hi as [Hi _]. rewrite size_a_fits in Hi.
    destruct (lookup_lt_is_Some_2 sigma (N.to_nat i)) as [j Hj].
    { rewrite reordering_length_sigma. lia. }
    assert (rename sigma i = j) as Hren.
    { rewrite <- (N2Nat.id i). now apply rename_index. }
    rewrite Hren in Hsb.
    destruct (reordering_key _ _ _ Hsa Hj) as (s' & Hs' & Hk).
    rewrite Hsb in Hs'. inversion Hs'; subst s'.
    split; [exact Hk|]. rewrite Hid, Hren.
    rewrite (wf_id b b_wf _ _ Hsb), N2Nat.id. apply to_msize_small.
    apply reordering_sigma_lt in Hj. unfold vec_size, mnpos in *. lia. }
  assert (map id found_a = children_at a x) as Hids.
  { apply (Forall2_map_fst _ _ _ _ Ha). intros i sa Hsa.
    rewrite (wf_id a a_wf _ _ Hsa), N2Nat.id. apply to_msize_small.
    apply lookup_lt_Some in Hsa. unfold vec_size, mnpos in a_fits. lia. }
  assert (NoDup (map segment_key found_a)) as Hnd_a.
  { apply NoDup_fmap_2_strong.
    - intros sa sa' Hsa Hsa' Hk.
      destruct (Forall2_elem_of_right _ _ _ _ Ha Hsa) as (i & Hi & Hia).
      destruct (Forall2_elem_of_right _ _ _ _ Ha Hsa') as (i' & Hi' & Hia').
      destruct (Hchild i sa Hi Hia) as [_ Hpi].
      destruct (Hchild i' sa' Hi' Hia') as [_ Hpi'].
      pose proof (siblings_key_inj _ _ _ _ _ Hia Hia' Hpi Hpi' Hk) as Heq.
      rewrite Heq in Hia. congruence.
    - apply (NoDup_fmap_1 id). change (NoDup (map id found_a)).
      rewrite Hids. apply children_at_NoDup. }
  assert (map segment_key found_a = map segment_key found_b') as Hkeys.
  { apply list_eq_Forall2, Forall2_fmap.
    eapply Forall2_impl; [exact HQ|]. now intros sa sb [Hk _]. }
  assert (NoDup (map segment_key found_b)) as Hnd_b.
  { eapply NoDup_Permutation_proper; [|exact Hnd_a].
    rewrite Hkeys. apply Permutation_map. exact Hperm_b. }
  pose proof (std_sort_perm fetch_children_less found_a) as Hsa.
  pose proof (std_sort_perm fetch_children_less found_b) as Hsb.
  pose proof (std_sort_by_key segment_key key_ltb key_ltb_trans key_ltb_total
                found_a Hnd_a) as Hsorted_a.
  pose proof (std_sort_by_key segment_key key_ltb key_ltb_trans key_ltb_total
                found_b Hnd_b) as Hsorted_b.
  change (std_sort _ found_a) with (std_sort fetch_children_less found_a)
    in Hsorted_a.
  change (std_sort _ found_b) with (std_sort fetch_children_less found_b)
    in Hsorted_b.
  set (sorted_a := std_sort fetch_children_less found_a) in *.
  set (sorted_b := std_sort fetch_children_less found_b) in *.
  assert (map segment_key sorted_a = map segment_key sorted_b) as Hsame.
  { apply (StronglySorted_unique_strong (fun k k' => key_ltb k k' = true)).
    - intros k k' _ _ Hkk' Hk'k. apply key_ltb_asym in Hkk'. congruence.
    - eapply @StronglySorted_fmap; [|exact Hsorted_a]. auto.
    - eapply @StronglySorted_fmap; [|exact Hsorted_b]. auto.
    - rewrite (Permutation_map segment_key Hsa), (Permutation_map segment_key Hsb).
      rewrite Hkeys. apply Permutation_map. symmetry. exact Hperm_b. }
  split.
  - assert (Forall2 (fun sa sb => segment_key sa = segment_key sb)
                    sorted_a sorted_b) as Hsame'.
    { apply Forall2_fmap, list_eq_Forall2. exact Hsame. }
    eapply Forall2_impl; [exact (Forall2_with_elems _ _ _ Hsame')|].
    intros sa sb (Hina & Hinb & Hk). simpl in Hk.
    rewrite Hsb, Hperm_b in Hinb. rewrite Hsa in Hina.
    destruct (Forall2_elem_of_right _ _ _ _ HQ Hinb) as (sa' & Hina' & [Hk' Hid']).
    assert (sa = sa') as <-.
    { apply (NoDup_fmap_elem_inj segment_key found_a); auto. congruence. }
    split; assumption.
  - unfold sorted_a. rewrite <- Hids. apply Permutation_map. exact Hsa.
Qed.

Lemma match_children_paired sorted_a sorted_b todo :
  Forall2 (fun sa sb => segment_key sa = segment_key sb /\
                        id sb = rename sigma (id sa)) sorted_a sorted_b ->
  match_children sorted_a sorted_b todo =
  Some (map (fun x => (x, rename sigma x)) (rev (map id sorted_a)) ++ todo).
Proof.
  intros Hall. revert todo.
  induction Hall as [|sa sb la lb [Hk Hid] _ IH]; intros todo; [reflexivity|].
  cbn [match_children]. unfold segment_key in Hk. inversion Hk as [[Hp Hd Ht]].
  rewrite Hp, Hd, Ht.
  assert (point_eqb (prox sb) (prox sb) = true) as -> by (now apply point_eqb_eq).
  assert (point_eqb (dist sb) (dist sb) = true) as -> by (now apply point_eqb_eq).
  rewrite Z.eqb_refl. cbn [negb orb]. rewrite IH, Hid.
  cbn [map rev]. rewrite map_app. cbn [map]. now rewrite <- app_assoc.
Qed.

Variables ma mb : gmap N (list N).
Hypothesis ma_spec : forall q, ma !!! q = children_at a q.
Hypothesis mb_spec : forall q, mb !!! q = children_at b q.

(** A turn of the loop on a cursor and its image. *)
Lemma equivalent_loop_turn fuel x todo :
  x = mnpos \/ x < vec_size (segments a) ->
  exists children,
    children ≡ₚ children_at a x /\
    equivalent_loop (@std_sort _) (S fuel) a b ma mb ((x, rename sigma x) :: todo) =
    equivalent_loop (@std_sort _) fuel a b ma mb
      (map (fun y => (y, rename sigma y)) (rev children) ++ todo).
Proof.
  intros Hx.
  destruct (fetch_children_at a ma x ma_spec) as (found_a & Hfa & Ha).
  destruct (fetch_children_at b mb (rename sigma x) mb_spec) as (found_b & Hfb & Hb).
  destruct (paired_children x found_a found_b Hx Ha Hb) as [Hpaired Hperm].
  exists (map id (std_sort fetch_children_less found_a)). split; [exact Hperm|].
  apply (equivalent_loop_match _ _ _ _ _ _ _ _ _ _ _ _ Hfa Hfb).
  - unfold vec_size. f_equal. now apply Forall2_length in Hpaired.
  - now apply match_children_paired.
Qed.

(** A list without repetition of indices of [a] and the sentinel has
    [size a + 1] entries at most. *)
Lemma visited_bound (l : list N) :
  NoDup l -> (forall x, x ∈ l -> x = mnpos \/ x < vec_size (segments a)) ->
  (length l <= S (length (segments a)))%nat.
Proof.
  intros Hnd Hin.
  assert (l ⊆+ mnpos :: make_span (vec_size (segments a))) as Hsub.
  { apply NoDup_submseteq; [exact Hnd|]. intros x Hx.
    destruct (Hin x Hx) as [->|Hlt]; [apply list_elem_of_here|].
    apply list_elem_of_further. unfold vec_size in *. now apply elem_of_make_span. }
  apply submseteq_length in Hsub. simpl in Hsub.
  unfold make_span, vec_size in Hsub.
  now rewrite Nat2N.id, length_map, length_seq in Hsub.
Qed.

(** The loop on a stack of cursors paired with their images: [visited]
    are the cursors popped so far. *)
Lemma equivalent_loop_reordered fuel : forall visited stack,
  NoDup (visited ++ stack) ->
  (forall x, x ∈ visited ++ stack -> x = mnpos \/ x < vec_size (segments a)) ->
  (forall x, x ∈ visited ++ stack -> x <> mnpos ->
     exists p, parents a !! N.to_nat x = Some p /\ p ∈ visited) ->
  (S (length (segments a)) <= length visited + fuel)%nat ->
  equivalent_loop (@std_sort _) fuel a b ma mb
    (map (fun y => (y, rename sigma y)) stack) = Return true.
Proof.
  induction fuel as [|fuel IH]; intros visited stack Hnd Hin Hpar Hfuel.
  - destruct stack as [|x stack]; [reflexivity|exfalso].
    pose proof (visited_bound _ Hnd Hin) as Hb.
    rewrite length_app in Hb. simpl in Hb. lia.
  - destruct stack as [|x stack]; [reflexivity|].
    cbn [map].
    destruct (equivalent_loop_turn fuel x
                (map (fun y => (y, rename sigma y)) stack)) as (cs & Hcs & ->).
    { apply Hin. apply elem_of_app. right. apply list_elem_of_here. }
    rewrite <- map_app.
    assert (forall c, c ∈ cs ->
              c < vec_size (segments a) /\ parents a !! N.to_nat c = Some x)
      as Hchild.
    { intros c Hc. rewrite Hcs in Hc.
      apply elem_of_children_at in Hc as [Hc Hpc]. rewrite size_a_fits in Hc.
      split; [exact Hc | exact Hpc]. }
    apply NoDup_app in Hnd as (Hnd_v & Hdisj & Hnd_s).
    apply NoDup_cons in Hnd_s as [Hx_s Hnd_s].
    assert (x ∉ visited) as Hx_v.
    { intros Hxv. apply (Hdisj x Hxv). apply list_elem_of_here. }
    assert (forall c, c ∈ cs -> c ∉ visited ++ x :: stack) as Hfresh.
    { intros c Hc Hin_c. destruct (Hchild c Hc) as [Hlt Hpc].
      destruct (Hpar c Hin_c) as (p & Hp & Hpv).
      - unfold vec_size, mnpos in *. lia.
      - unfold parents in Hp, Hpc. rewrite Hpc in Hp. inversion Hp; subst p.
        contradiction. }
    apply (IH (visited ++ [x]) (rev cs ++ stack)).
    + rewrite <- app_assoc. cbn [app].
      apply NoDup_app. split; [exact Hnd_v|]. split.
      * intros y Hy Hy'. apply elem_of_cons in Hy' as [->|Hy']; [contradiction|].
        apply elem_of_app in Hy' as [Hy'|Hy'].
        -- apply list_elem_of_In, in_rev, list_elem_of_In in Hy'.
           apply (Hfresh y Hy'). apply elem_of_app. now left.
        -- apply (Hdisj y Hy). now apply list_elem_of_further.
      * apply NoDup_cons. split.
        -- intros Hx'. apply elem_of_app in Hx' as [Hx'|Hx']; [|contradiction].
           apply list_elem_of_In, in_rev, list_elem_of_In in Hx'.
           apply (Hfresh x Hx'). apply elem_of_app. right. apply list_elem_of_here.
        -- apply NoDup_app. split; [|split; [|exact Hnd_s]].
           ++ apply NoDup_ListNoDup, List.NoDup_rev, NoDup_ListNoDup.
              rewrite Hcs. apply children_at_NoDup.
           ++ intros y Hy Hy'.
              apply list_elem_of_In, in_rev, list_elem_of_In in Hy.
              apply (Hfresh y Hy). apply elem_of_app. right.
              now apply list_elem_of_further.
    + intros y Hy. rewrite <- app_assoc in Hy. cbn [app] in Hy.
      apply elem_of_app in Hy as [Hy|Hy].
      { apply Hin. apply elem_of_app. now left. }
      apply elem_of_cons in Hy as [->|Hy].
      { apply Hin. apply elem_of_app. right. apply list_elem_of_here. }
      apply elem_of_app in Hy as [Hy|Hy].
      * apply list_elem_of_In, in_rev, list_elem_of_In in Hy.
        right. now apply Hchild.
      * apply Hin. apply elem_of_app. right. now apply list_elem_of_further.
    + intros y Hy Hne. rewrite <- app_assoc in Hy. cbn [app] in Hy.
      assert (forall p, p ∈ visited -> p ∈ visited ++ [x]) as Hmono.
      { intros p Hp. apply elem_of_app. now left. }
      apply elem_of_app in Hy as [Hy|Hy].
      { destruct (Hpar y) as (p & Hp & Hpv); [apply elem_of_app; now left|exact Hne|].
        eauto. }
      apply elem_of_cons in Hy as [->|Hy].
      { destruct (Hpar x) as (p & Hp & Hpv);
          [apply elem_of_app; right; apply list_elem_of_here|exact Hne|].
        eauto. }
      apply elem_of_app in Hy as [Hy|Hy].
      * apply list_elem_of_In, in_rev, list_elem_of_In in Hy.
        destruct (Hchild y Hy) as [_ Hpy]. exists x. split; [exact Hpy|].
        apply elem_of_app. right. apply list_elem_of_here.
      * destruct (Hpar y) as (p & Hp & Hpv);
          [apply elem_of_app; right; now apply list_elem_of_further|exact Hne|].
        eauto.
    + rewrite length_app. simpl. lia.
Qed.

End ReorderingFacts.

Section EquivalentReordered.

Context {mpoint : Type} `{PointOrder mpoint}.

(** Without tied siblings, [equivalent] accepts every reordering of a
    forest. *)
Lemma equivalent_reordering (a b : @segment_tree mpoint) sigma :
  well_formed a -> well_formed b -> vec_size (segments a) <= mnpos ->
  no_tied_siblings a = true -> is_reordering sigma a b = true ->
  equivalent a b = Return true.
Proof.
  intros Ha Hb Hfit Hties Hre. unfold equivalent, equivalent_by.
  rewrite (reordering_size a b sigma Hre), N.eqb_refl. cbn [negb].
  destruct (tree_to_children_at a Ha) as (ma & -> & Hma).
  destruct (tree_to_children_at b Hb) as (mb & -> & Hmb).
  cbn [bind].
  apply (equivalent_loop_reordered a b sigma Ha Hfit Hre Hb Hties ma mb Hma Hmb
           (S (length (segments a))) [] [mnpos]).
  - repeat constructor. intros Hin. inversion Hin.
  - intros x Hx. apply list_elem_of_singleton in Hx. now left.
  - intros x Hx Hne. apply list_elem_of_singleton in Hx. contradiction.
  - simpl. lia.
Qed.

End EquivalentReordered.

(** ** The loop of [copy_subtree_if] *)

Lemma fold_left_push (current : N) (l : list N) (todo : list node_t) :
  fold_left (fun todo child => mk_node current child :: todo) l todo =
  rev (map (mk_node current) l) ++ todo.
Proof.
  revert todo. induction l as [|c l IH]; intros todo; [reflexivity|].
  cbn [fold_left map rev]. rewrite IH, <- app_assoc. reflexivity.
Qed.

Section AppendValid.

Context {mpoint : Type}.

(** An [append] under a valid parent on a well-formed forest. *)
Lemma append_valid (res : @segment_tree mpoint) p px ds tg :
  well_formed res -> p = mnpos \/ p < size res ->
  exists res',
    append res p px ds tg = (res', Return (size res)) /\
    segments res' = segments res ++ [mk_msegment (size res) px ds tg] /\
    parents res' = parents res ++ [p] /\
    well_formed res'.
Proof.
  intros Hwf Hp.
  assert (exists res', append res p px ds tg = (res', Return (size res)) /\
            segments res' = segments res ++ [mk_msegment (size res) px ds tg] /\
            parents res' = parents res ++ [p]) as (res' & Ha & Hs & Hpa).
  { destruct (N.eq_dec p mnpos) as [->|Hne].
    - eexists. rewrite append_root. simpl. auto.
    - destruct Hp as [Hp|Hp]; [contradiction|].
      pose proof (size_le res) as Hle. unfold vec_size in Hle.
      destruct (lookup_lt_is_Some_2 (seg_children_ res) (N.to_nat p)) as [c Hc].
      { rewrite (wf_children_length res Hwf). lia. }
      eexists. rewrite (append_child res p px ds tg c Hp Hne Hc). simpl. auto. }
  exists res'. split; [exact Ha|]. split; [exact Hs|]. split; [exact Hpa|].
  eapply append_well_formed; eauto.
Qed.

End AppendValid.

Section CopyLoop.

Context {mpoint : Type}.
Variables (t : @segment_tree mpoint) (accept : N -> bool).
Variables (starts : list N) (start_parent : msize_t) (lowest : N).
Variable init : @segment_tree mpoint.
Variables (predicate : node_p) (m : gmap N (list N)).

Hypothesis t_wf : well_formed t.
Hypothesis sizes_fit :
  vec_size (segments init) + vec_size (segments t) <= mnpos.
Hypothesis m_spec : forall q, m !!! q = children_at t q.
Hypothesis predicate_id : forall nd, predicate nd = accept (node_id nd).
Hypothesis starts_low : forall e x,
  e ∈ starts -> parents t !! N.to_nat e = Some x ->
  x < vec_size (segments t) -> x < lowest.
Hypothesis start_parent_ok :
  start_parent = mnpos \/ start_parent < vec_size (segments init).

Local Abbreviation invariant :=
  (copy_invariant t accept starts start_parent lowest init).

Lemma snoc_app {A} (l : list A) x k : (l ++ [x]) ++ k = l ++ x :: k.
Proof. now rewrite <- app_assoc. Qed.

(** A popped node that the predicate rejects. *)
Lemma copy_reject res image popped nd todo :
  invariant res image popped (nd :: todo) ->
  accept (node_id nd) = false ->
  invariant res image (popped ++ [node_id nd]) todo.
Proof.
  intros [Hnd Hrange Horigin Htodo Hcopied Hclosed Himage Hinj Honto
            Hsegs Hpars Hwf Hsize] Hrej.
  cbn [map] in *.
  constructor; rewrite ?snoc_app; try assumption.
  - intros nd' Hin. apply Htodo. now apply list_elem_of_further.
  - intros x. rewrite Hcopied, elem_of_app, list_elem_of_singleton. split.
    + intros [Hx Ha]. auto.
    + intros [[Hx| ->] Ha]; [auto | congruence].
  - rewrite filter_app, filter_cons, filter_nil.
    rewrite decide_False by congruence. now rewrite app_nil_r.
Qed.

(** The lists of popped and pending indices stay within the forest. *)
Lemma copy_pending_bound res image popped todo :
  invariant res image popped todo ->
  (length popped + length todo <= length (segments t))%nat.
Proof.
  intros Hinv.
  assert (popped ++ map node_id todo ⊆+ make_span (vec_size (segments t))) as Hsub.
  { apply NoDup_submseteq; [apply (ci_nodup _ _ _ _ _ _ _ _ _ _ Hinv)|].
    intros x Hx. apply (ci_range _ _ _ _ _ _ _ _ _ _ Hinv) in Hx as [_ Hx].
    unfold vec_size in *. now apply elem_of_make_span. }
  apply submseteq_length in Hsub.
  unfold make_span, vec_size in Hsub.
  now rewrite Nat2N.id, length_app, !length_map, length_seq in Hsub.
Qed.

Lemma map_node_id_pushed (current : N) cs (todo : list node_t) :
  map node_id (rev (map (mk_node current) cs) ++ todo) =
  rev cs ++ map node_id todo.
Proof.
  rewrite map_app, map_rev, map_map. cbn [node_id]. now rewrite map_id.
Qed.

(** A popped node that the predicate accepts: its segment is appended and
    its children are pushed. *)
Lemma copy_accept res image popped nd todo :
  invariant res image popped (nd :: todo) ->
  accept (node_id nd) = true ->
  exists s res',
    segments t !! N.to_nat (node_id nd) = Some s /\
    append res (node_parent nd) (prox s) (dist s) (tag s) =
      (res', Return (size res)) /\
    image !! node_id nd = None /\
    invariant res' (<[node_id nd := size res]> image) (popped ++ [node_id nd])
      (rev (map (mk_node (size res)) (children_at t (node_id nd))) ++ todo).
Proof.
  intros Hinv Hacc. pose proof (copy_pending_bound _ _ _ _ Hinv) as Hbound.
  destruct Hinv as [Hnd Hrange Horigin Htodo Hcopied Hclosed Himage Hinj Honto
                      Hsegs Hpars Hwf Hsize].
  destruct nd as [dp x]. cbn [map node_id node_parent length] in *.
  unfold vec_size in *.
  (* the node itself *)
  destruct (Hrange x) as [Hx_low Hx_lt].
  { apply elem_of_app. right. apply list_elem_of_here. }
  apply NoDup_app in Hnd as (Hnd_p & Hdisj & Hnd_t).
  apply NoDup_cons in Hnd_t as [Hx_t Hnd_t].
  assert (x ∉ popped) as Hx_p.
  { intros Hxp. apply (Hdisj x Hxp). apply list_elem_of_here. }
  assert (image !! x = None) as Hx_img.
  { destruct (image !! x) as [y|] eqn:Hy; [|reflexivity].
    exfalso. apply Hx_p. apply Hcopied. eauto. }
  destruct (lookup_lt_is_Some_2 (segments t) (N.to_nat x)) as [s Hs]; [lia|].
  (* the size of the result so far *)
  destruct Hsegs as [ext_s Hext_s]. destruct Hpars as [ext_p Hext_p].
  assert (length (segments init) <= length (segments res))%nat as Hinit_le.
  { rewrite Hext_s, length_app. lia. }
  pose proof (length_filter (fun x => accept x = true) popped) as Hfilter.
  assert (size res = N.of_nat (length (segments res))) as Hsize_res.
  { unfold size, vec_size. apply to_msize_small. unfold mnpos in *.
    unfold segments in *. lia. }
  assert (forall z y, image !! z = Some y -> y < N.of_nat (length (segments res)))
    as Himg_lt.
  { intros z y Hzy. destruct (Himage z y Hzy) as (_ & s0 & s0' & _ & Hs0' & _).
    apply lookup_lt_Some in Hs0'. lia. }
  (* the parent in the result *)
  assert (dp = mnpos \/ dp < size res) as Hdp.
  { destruct (Htodo (mk_node dp x)) as [[_ Hsp]|[_ (p & _ & Hp)]];
      [apply list_elem_of_here | |].
    - cbn in Hsp. subst dp. destruct start_parent_ok as [?|?]; [now left|right].
      rewrite Hsize_res. lia.
    - cbn in Hp. right. rewrite Hsize_res. eapply Himg_lt; eauto. }
  destruct (append_valid res dp (prox s) (dist s) (tag s) Hwf Hdp)
    as (res' & Happ & Hs' & Hp' & Hwf').
  exists s, res'. split; [exact Hs|]. split; [exact Happ|].
  split; [exact Hx_img|].
  rewrite Hsize_res in *.
  set (current := N.of_nat (length (segments res))) in *.
  (* the children *)
  assert (forall c, c ∈ children_at t x ->
            parents t !! N.to_nat c = Some x /\ x < c /\
            c < N.of_nat (length (segments t))) as Hchild.
  { intros c Hc. apply elem_of_children_at in Hc as [Hc Hpc].
    pose proof (size_le t) as Hle. unfold vec_size in Hle.
    split; [exact Hpc|]. split; [|unfold segments; lia].
    assert (x <> mnpos) by (unfold mnpos in *; lia).
    pose proof (wf_parent_lt t t_wf _ _ Hpc ltac:(assumption)). lia. }
  assert (forall c, c ∈ children_at t x -> c ∉ starts) as Hchild_start.
  { intros c Hc Hst. destruct (Hchild c Hc) as (Hpc & _ & _).
    pose proof (starts_low c x Hst Hpc ltac:(unfold vec_size; lia)). lia. }
  assert (forall c, c ∈ children_at t x -> c ∉ popped ++ x :: map node_id todo)
    as Hfresh.
  { intros c Hc Hin. destruct (Hchild c Hc) as (Hpc & _ & _).
    destruct (Horigin c Hin) as [Hst|(p & Hp & Hsome)].
    - now apply (Hchild_start c Hc).
    - rewrite Hpc in Hp. inversion Hp; subst p.
      rewrite Hx_img in Hsome. now destruct Hsome. }
  assert (forall z, is_Some (image !! z) -> z <> x) as Hne_x.
  { intros z Hz ->. rewrite Hx_img in Hz. now destruct Hz. }
  constructor; rewrite ?map_node_id_pushed, ?snoc_app; unfold vec_size.
  - (* no index twice *)
    apply NoDup_app. split; [exact Hnd_p|]. split.
    + intros y Hy Hy'. apply elem_of_cons in Hy' as [->|Hy']; [contradiction|].
      apply elem_of_app in Hy' as [Hy'|Hy'].
      * apply list_elem_of_In, in_rev, list_elem_of_In in Hy'.
        apply (Hfresh y Hy'). apply elem_of_app. now left.
      * apply (Hdisj y Hy). now apply list_elem_of_further.
    + apply NoDup_cons. split.
      * intros Hx'. apply elem_of_app in Hx' as [Hx'|Hx']; [|contradiction].
        apply list_elem_of_In, in_rev, list_elem_of_In in Hx'.
        apply (Hfresh x Hx'). apply elem_of_app. right. apply list_elem_of_here.
      * apply NoDup_app. split; [|split; [|exact Hnd_t]].
        -- apply NoDup_ListNoDup, List.NoDup_rev, NoDup_ListNoDup.
           apply children_at_NoDup.
        -- intros y Hy Hy'.
           apply list_elem_of_In, in_rev, list_elem_of_In in Hy.
           apply (Hfresh y Hy). apply elem_of_app. right.
           now apply list_elem_of_further.
  - (* range *)
    intros y Hy. apply elem_of_app in Hy as [Hy|Hy].
    { apply Hrange. apply elem_of_app. now left. }
    apply elem_of_cons in Hy as [->|Hy]; [split; assumption|].
    apply elem_of_app in Hy as [Hy|Hy].
    + apply list_elem_of_In, in_rev, list_elem_of_In in Hy.
      destruct (Hchild y Hy) as (_ & Hxy & Hy_lt). split; [lia | exact Hy_lt].
    + apply Hrange. apply elem_of_app. right. now apply list_elem_of_further.
  - (* origin *)
    assert (forall y, y ∈ popped ++ x :: map node_id todo ->
              y ∈ starts \/
              exists p, parents t !! N.to_nat y = Some p /\
                        is_Some (<[x:=current]> image !! p)) as Hold.
    { intros y Hy. destruct (Horigin y Hy) as [?|(p & Hp & Hsome)]; [now left|].
      right. exists p. split; [exact Hp|].
      rewrite lookup_insert_ne by (symmetry; now apply Hne_x). exact Hsome. }
    intros y Hy. apply elem_of_app in Hy as [Hy|Hy].
    { apply Hold. apply elem_of_app. now left. }
    apply elem_of_cons in Hy as [->|Hy].
    { apply Hold. apply elem_of_app. right. apply list_elem_of_here. }
    apply elem_of_app in Hy as [Hy|Hy].
    + apply list_elem_of_In, in_rev, list_elem_of_In in Hy.
      destruct (Hchild y Hy) as (Hpy & _ & _). right. exists x.
      split; [exact Hpy|]. rewrite lookup_insert_eq. eauto.
    + apply Hold. apply elem_of_app. right. now apply list_elem_of_further.
  - (* pending nodes *)
    intros nd Hin. apply elem_of_app in Hin as [Hin|Hin].
    + apply list_elem_of_In, in_rev, list_elem_of_In in Hin.
      apply list_elem_of_fmap in Hin as (c & -> & Hc). cbn.
      right. split; [now apply Hchild_start|].
      destruct (Hchild c Hc) as (Hpc & _ & _). exists x.
      split; [exact Hpc|]. now rewrite lookup_insert_eq.
    + destruct (Htodo nd) as [?|[Hns (p & Hp & Himg)]];
        [now apply list_elem_of_further | now left |].
      right. split; [exact Hns|]. exists p. split; [exact Hp|].
      rewrite lookup_insert_ne; [exact Himg|].
      symmetry. apply Hne_x. eauto.
  - (* what is copied *)
    intros y. rewrite elem_of_app, list_elem_of_singleton.
    destruct (N.eq_dec y x) as [->|Hne].
    + rewrite lookup_insert_eq. split; [intros _; auto | eauto].
    + rewrite lookup_insert_ne by congruence. rewrite Hcopied. split.
      * intros [Hy Ha]. auto.
      * intros [[Hy|Hy] Ha]; [auto | contradiction].
  - (* children of copied nodes *)
    intros y c Hy Hpc Hc.
    destruct (N.eq_dec y x) as [->|Hne].
    + apply elem_of_app. right. apply list_elem_of_further.
      apply elem_of_app. left.
      apply list_elem_of_In. rewrite <- in_rev.
      apply list_elem_of_In, elem_of_children_at. split; [|exact Hpc].
      rewrite (size_small t); [exact Hc|].
      unfold vec_size, mnpos, segments in *. lia.
    + rewrite lookup_insert_ne in Hy by congruence.
      pose proof (Hclosed y c Hy Hpc Hc) as Hin.
      apply elem_of_app in Hin as [Hin|Hin]; [apply elem_of_app; now left|].
      apply elem_of_app. right.
      apply elem_of_cons in Hin as [->|Hin]; [apply list_elem_of_here|].
      apply list_elem_of_further, elem_of_app. now right.
  - (* the copies *)
    intros y z Hyz. destruct (N.eq_dec y x) as [->|Hne].
    + rewrite lookup_insert_eq in Hyz. inversion Hyz; subst z.
      split; [unfold current; lia|].
      exists s, (mk_msegment current (prox s) (dist s) (tag s)).
      split; [exact Hs|]. split.
      { rewrite Hs'. unfold current. rewrite Nat2N.id.
        now rewrite list_lookup_middle. }
      split; [reflexivity|].
      assert (parents res' !! N.to_nat current = Some dp) as Hpar_new.
      { rewrite Hp'. unfold current. rewrite Nat2N.id.
        replace (length (segments res)) with (length (parents res))
          by (apply (wf_parents_length res Hwf)).
        now rewrite list_lookup_middle. }
      destruct (Htodo (mk_node dp x)) as [[Hst Hsp]|[Hns (p & Hp & Himg)]];
        [apply list_elem_of_here | |]; cbn in *.
      * left. subst dp. auto.
      * right. split; [exact Hns|]. exists p, dp. split; [exact Hp|].
        split; [|exact Hpar_new].
        rewrite lookup_insert_ne; [exact Himg|].
        symmetry. apply Hne_x. eauto.
    + rewrite lookup_insert_ne in Hyz by congruence.
      destruct (Himage y z Hyz) as (Hlow & s0 & s0' & Hs0 & Hs0' & Hk & Hpar).
      split; [exact Hlow|]. exists s0, s0'. split; [exact Hs0|].
      split; [rewrite Hs'; now apply lookup_app_l_Some|].
      split; [exact Hk|].
      destruct Hpar as [[Hst Hpar]|[Hns (p & q & Hp & Hq & Hpar)]].
      * left. split; [exact Hst|]. rewrite Hp'. now apply lookup_app_l_Some.
      * right. split; [exact Hns|]. exists p, q. split; [exact Hp|]. split.
        -- rewrite lookup_insert_ne; [exact Hq|]. symmetry. apply Hne_x. eauto.
        -- rewrite Hp'. now apply lookup_app_l_Some.
  - (* one to one *)
    intros y y' z Hy Hy'.
    destruct (N.eq_dec y x) as [->|Hne]; destruct (N.eq_dec y' x) as [->|Hne'];
      [reflexivity | | |].
    + rewrite lookup_insert_eq in Hy. rewrite lookup_insert_ne in Hy' by congruence.
      inversion Hy; subst z. apply Himg_lt in Hy'. unfold current in Hy'. lia.
    + rewrite lookup_insert_eq in Hy'. rewrite lookup_insert_ne in Hy by congruence.
      inversion Hy'; subst z. apply Himg_lt in Hy. unfold current in Hy. lia.
    + rewrite lookup_insert_ne in Hy, Hy' by congruence. eauto.
  - (* onto *)
    intros z Hz_low Hz_lt. rewrite Hs', length_app in Hz_lt. simpl in Hz_lt.
    destruct (N.eq_dec z current) as [->|Hne].
    + exists x. now rewrite lookup_insert_eq.
    + destruct (Honto z Hz_low) as [y Hy]; [unfold current in Hne; lia|].
      exists y. rewrite lookup_insert_ne; [exact Hy|].
      symmetry. apply Hne_x. eauto.
  - exists (ext_s ++ [mk_msegment current (prox s) (dist s) (tag s)]).
    rewrite Hs', Hext_s. now rewrite app_assoc.
  - exists (ext_p ++ [dp]). rewrite Hp', Hext_p. now rewrite app_assoc.
  - exact Hwf'.
  - rewrite Hs', filter_app, filter_cons, filter_nil, !length_app.
    rewrite decide_True by exact Hacc. simpl. lia.
Qed.

(** The loop runs to the end of its stack and keeps the invariant; what
    was copied stays copied and what was pending is popped. *)
Lemma copy_loop fuel : forall res image popped todo,
  invariant res image popped todo ->
  (S (length (segments t)) <= length popped + fuel)%nat ->
  exists res' image' popped',
    copy_subtree_loop fuel m (segments t) predicate res todo = Return res' /\
    invariant res' image' popped' [] /\
    (forall x y, image !! x = Some y -> image' !! x = Some y) /\
    (forall x, x ∈ popped ++ map node_id todo -> x ∈ popped').
Proof.
  induction fuel as [|fuel IH]; intros res image popped todo Hinv Hfuel.
  - destruct todo as [|nd todo].
    + exists res, image, popped. cbn [map] in *. rewrite app_nil_r. auto.
    + pose proof (copy_pending_bound _ _ _ _ Hinv) as Hb. simpl in Hb. lia.
  - destruct todo as [|nd todo].
    + exists res, image, popped. cbn [map] in *. rewrite app_nil_r. auto.
    + cbn [copy_subtree_loop]. rewrite predicate_id.
      destruct (accept (node_id nd)) eqn:Hacc; cbn [negb].
      * destruct (copy_accept _ _ _ _ _ Hinv Hacc)
          as (s & res1 & Hs & Happ & Hnone & Hinv1).
        rewrite (proj2 (vec_at_Return _ _ _) Hs). cbn [bind].
        rewrite Happ, m_spec, fold_left_push.
        destruct (IH _ _ _ _ Hinv1) as (res' & image' & popped' & Hrun & Hinv' & Himg & Hpop).
        { rewrite length_app. simpl. lia. }
        exists res', image', popped'. split; [exact Hrun|]. split; [exact Hinv'|].
        split.
        -- intros x y Hxy. apply Himg. rewrite lookup_insert_ne; [exact Hxy|].
           intros <-. congruence.
        -- intros x Hx. apply Hpop. rewrite map_node_id_pushed, snoc_app.
           cbn [map] in Hx. apply elem_of_app in Hx as [Hx|Hx];
             [apply elem_of_app; now left|].
           apply elem_of_app. right.
           apply elem_of_cons in Hx as [->|Hx]; [apply list_elem_of_here|].
           apply list_elem_of_further, elem_of_app. now right.
      * pose proof (copy_reject _ _ _ _ _ Hinv Hacc) as Hinv1.
        destruct (IH _ _ _ _ Hinv1) as (res' & image' & popped' & Hrun & Hinv' & Himg & Hpop).
        { rewrite length_app. simpl. lia. }
        exists res', image', popped'. split; [exact Hrun|]. split; [exact Hinv'|].
        split; [exact Himg|].
        intros x Hx. apply Hpop. now rewrite snoc_app.
Qed.

End CopyLoop.

(** ** Runs of [copy_subtree_if] *)

Section CopyRuns.

Context {mpoint : Type}.
Variables (t : @segment_tree mpoint) (accept : N -> bool).
Variables (start_parent : msize_t) (lowest : N).
Variable init : @segment_tree mpoint.

(** Before the first run nothing is popped and nothing is copied. *)
Lemma copy_invariant_init :
  well_formed init ->
  copy_invariant t accept [] start_parent lowest init init ∅ [] [].
Proof.
  intros Hwf. constructor; cbn [map app].
  - constructor.
  - intros x Hx. inversion Hx.
  - intros x Hx. inversion Hx.
  - intros nd Hnd. inversion Hnd.
  - intros x. rewrite lookup_empty. split.
    + intros [? ?]. discriminate.
    + intros [Hx _]. inversion Hx.
  - intros x c [? Hx]. rewrite lookup_empty in Hx. discriminate.
  - intros x y Hx. rewrite lookup_empty in Hx. discriminate.
  - intros x x' y Hx. rewrite lookup_empty in Hx. discriminate.
  - intros y Hlow Hlt. lia.
  - exists []. now rewrite app_nil_r.
  - exists []. now rewrite app_nil_r.
  - exact Hwf.
  - rewrite filter_nil. simpl. lia.
Qed.

(** Between two runs the caller pushes the next start. *)
Lemma copy_invariant_push starts res image popped r :
  copy_invariant t accept starts start_parent lowest init res image popped [] ->
  r ∉ popped -> lowest <= r -> r < vec_size (segments t) ->
  copy_invariant t accept (r :: starts) start_parent lowest init res image popped
    [mk_node start_parent r].
Proof.
  intros [Hnd Hrange Horigin Htodo Hcopied Hclosed Himage Hinj Honto
            Hsegs Hpars Hwf Hsize] Hr Hlow Hlt.
  cbn [map] in *. rewrite app_nil_r in *.
  constructor; cbn [map node_id]; try assumption.
  - apply NoDup_app. split; [exact Hnd|]. split; [|repeat constructor].
    + intros x Hx Hx'. apply list_elem_of_singleton in Hx'. subst x. contradiction.
    + intros Hin. inversion Hin.
  - intros x Hx. apply elem_of_app in Hx as [Hx|Hx]; [now apply Hrange|].
    apply list_elem_of_singleton in Hx. subst x. auto.
  - intros x Hx. apply elem_of_app in Hx as [Hx|Hx].
    + destruct (Horigin x Hx) as [Hst|Hp]; [left; now apply list_elem_of_further | now right].
    + apply list_elem_of_singleton in Hx. subst x. left. apply list_elem_of_here.
  - intros nd Hnd'. apply list_elem_of_singleton in Hnd'. subst nd. cbn.
    left. split; [apply list_elem_of_here | reflexivity].
  - intros x c Hx Hpc Hc. apply elem_of_app. left. eauto.
  - intros x y Hxy. destruct (Himage x y Hxy) as (Hy & s & s' & Hs & Hs' & Hk & Hpar).
    split; [exact Hy|]. exists s, s'. repeat (split; [assumption|]).
    destruct Hpar as [[Hst Hpar]|[Hns Hpar]].
    + left. split; [now apply list_elem_of_further | exact Hpar].
    + right. split; [|exact Hpar].
      intros Hin. apply elem_of_cons in Hin as [->|Hin]; [|contradiction].
      apply Hr. apply Hcopied. eauto.
Qed.

(** One call of [copy_subtree_if] from a pushed start. *)
Lemma copy_run (predicate : node_p) starts res image popped r :
  well_formed t ->
  vec_size (segments init) + vec_size (segments t) <= mnpos ->
  (forall nd, predicate nd = accept (node_id nd)) ->
  (forall e x, e ∈ r :: starts -> parents t !! N.to_nat e = Some x ->
     x < vec_size (segments t) -> x < lowest) ->
  start_parent = mnpos \/ start_parent < vec_size (segments init) ->
  copy_invariant t accept starts start_parent lowest init res image popped [] ->
  r ∉ popped -> lowest <= r -> r < vec_size (segments t) ->
  exists res' image' popped',
    copy_subtree_if t (mk_node start_parent r) predicate res = Return res' /\
    copy_invariant t accept (r :: starts) start_parent lowest init
      res' image' popped' [] /\
    (forall x y, image !! x = Some y -> image' !! x = Some y) /\
    (forall x, x ∈ popped ++ [r] -> x ∈ popped').
Proof.
  intros Hwf Hfit Hpred Hlow Hsp Hinv Hr Hr_low Hr_lt.
  unfold copy_subtree_if.
  destruct (tree_to_children_at t Hwf) as (m & -> & Hm). cbn [bind].
  pose proof (copy_invariant_push _ _ _ _ r Hinv Hr Hr_low Hr_lt) as Hinv'.
  destruct (copy_loop t accept (r :: starts) start_parent lowest init predicate m
              Hwf Hfit Hm Hpred Hlow Hsp (S (length (segments t)))
              _ _ _ _ Hinv') as (res' & image' & popped' & Hrun & Hfin & Himg & Hpop).
  { lia. }
  exists res', image', popped'. auto.
Qed.

End CopyRuns.

(** ** [split_at] and [join_at] *)

Lemma filter_all {A} (P : A -> Prop) `{forall x, Decision (P x)} (l : list A) :
  (forall x, P x) -> filter P l = l.
Proof.
  intros HP. induction l as [|x l IH]; [reflexivity|].
  rewrite filter_cons, decide_True by apply HP. now rewrite IH.
Qed.

Section SplitJoin.

Context {mpoint : Type}.
Variables (T : @segment_tree mpoint) (k : N).
Hypothesis T_wf : well_formed T.
Hypothesis T_fits : vec_size (segments T) <= mnpos.
Hypothesis k_lt : k < vec_size (segments T).

Lemma parent_real (x p : N) :
  parents T !! N.to_nat x = Some p -> p <> mnpos ->
  p < x /\ x < vec_size (segments T).
Proof.
  intros Hp Hne. pose proof (wf_parent_lt T T_wf _ _ Hp Hne) as Hlt.
  apply lookup_lt_Some in Hp. unfold parents in Hp.
  rewrite (wf_parents_length T T_wf) in Hp. unfold vec_size, segments. lia.
Qed.

Lemma below_lt x : below T k x -> x < vec_size (segments T).
Proof.
  induction 1 as [|c p Hp _ _]; [exact k_lt|].
  apply lookup_lt_Some in Hp. unfold parents in Hp.
  rewrite (wf_parents_length T T_wf) in Hp. unfold vec_size, segments. lia.
Qed.

Lemma below_ge x : below T k x -> k <= x.
Proof.
  induction 1 as [|c p Hp Hb IH]; [lia|].
  apply below_lt in Hb.
  destruct (parent_real c p Hp) as [Hlt _]; [unfold mnpos in *; lia | lia].
Qed.

Lemma parent_not_below p :
  parents T !! N.to_nat k = Some p -> ~ below T k p.
Proof.
  intros Hp Hb. pose proof (below_lt _ Hb) as Hlt. apply below_ge in Hb.
  destruct (parent_real k p Hp) as [Hpk _]; [unfold mnpos in *; lia | lia].
Qed.

(** Induction along the parent links, which point to smaller indices. *)
Lemma index_induction (P : N -> Prop) :
  (forall x, (forall y, y < x -> P y) -> P x) -> forall x, P x.
Proof.
  intros Hstep x.
  induction x as [x IH] using (well_founded_induction N.lt_wf_0).
  apply Hstep. exact IH.
Qed.

(** The first copy of [split_at]: the subtree of [k]. *)
Lemma split_post :
  exists post image popped,
    copy_subtree_if T (mk_node mnpos k) yes empty_tree = Return post /\
    well_formed post /\
    copied_subtree T k post image /\
    NoDup popped /\ (forall x, x ∈ popped -> below T k x) /\
    length (segments post) = length popped.
Proof.
  pose proof (copy_invariant_init T (fun _ => true) mnpos k empty_tree
                empty_well_formed) as Hinit.
  assert (forall e x, e ∈ [k] -> parents T !! N.to_nat e = Some x ->
            x < vec_size (segments T) -> x < k) as Hlow.
  { intros e x He Hp Hx. apply list_elem_of_singleton in He. subst e.
    destruct (parent_real k x Hp) as [Hlt _]; [unfold mnpos in *; lia | exact Hlt]. }
  destruct (copy_run T (fun _ => true) mnpos k empty_tree yes [] empty_tree ∅ [] k
              T_wf T_fits (fun _ => eq_refl) Hlow (or_introl eq_refl) Hinit
              (not_elem_of_nil k) (N.le_refl k) k_lt)
    as (post & image & popped & Hrun & Hinv & _ & Hpop).
  pose proof (copy_pending_bound _ _ _ _ _ _ _ _ _ _ Hinv) as Hbound.
  destruct Hinv as [Hnd Hrange Horigin Htodo Hcopied Hclosed Himage Hinj Honto
                      Hsegs Hpars Hwf Hsize].
  cbn [map length] in *. rewrite app_nil_r in *.
  assert (forall x, is_Some (image !! x) <-> x ∈ popped) as Hdom.
  { intros x. rewrite Hcopied. tauto. }
  assert (length (segments post) = length popped) as Hlen.
  { rewrite Hsize. rewrite filter_all by reflexivity. reflexivity. }
  assert (forall x y, image !! x = Some y -> y < vec_size (segments post))
    as Himg_lt.
  { intros x y Hxy. destruct (Himage x y Hxy) as (_ & s & s' & _ & Hs' & _).
    apply lookup_lt_Some in Hs'. unfold vec_size. lia. }
  assert (forall x, is_Some (image !! x) -> below T k x) as Hbelow.
  { intros x. induction x as [x IH] using index_induction. intros Hx.
    destruct (Horigin x) as [Hst|(p & Hp & Hsome)]; [now apply Hdom| |].
    - apply list_elem_of_singleton in Hst. subst x. constructor.
    - apply (below_child T k x p Hp). apply IH; [|exact Hsome].
      apply Hdom, Hrange in Hsome as [_ Hlt].
      destruct (parent_real x p Hp) as [Hpx _]; [unfold mnpos in *; lia | exact Hpx]. }
  assert (is_Some (image !! k)) as Hk.
  { apply Hdom, Hpop. apply elem_of_app. right. apply list_elem_of_here. }
  exists post, image, popped. split; [exact Hrun|]. split; [exact Hwf|].
  split; [|split; [exact Hnd|split; [|exact Hlen]]].
  - constructor.
    + (* domain *)
      intros x. split; [apply Hbelow|].
      induction 1 as [|c p Hp Hb IH]; [exact Hk|].
      apply Hdom. apply (Hclosed p c IH Hp).
      apply lookup_lt_Some in Hp. unfold parents in Hp.
      rewrite (wf_parents_length T T_wf) in Hp. unfold vec_size, segments. lia.
    + (* the root comes first *)
      destruct Hk as [y Hy].
      destruct (N.eq_dec y 0) as [->|Hne]; [exact Hy|exfalso].
      pose proof (Himg_lt _ _ Hy) as Hy_lt.
      destruct (Honto 0) as [x1 Hx1]; [vm_compute; discriminate | lia |].
      destruct (Himage x1 0 Hx1) as (_ & s & s' & _ & _ & _ & Hpar).
      destruct Hpar as [[Hst _]|[_ (p & q & _ & Hq & Hpq)]].
      * apply list_elem_of_singleton in Hst. subst x1. congruence.
      * pose proof (Himg_lt _ _ Hq) as Hq_lt.
        assert (q <> mnpos).
        { unfold vec_size, mnpos in *. lia. }
        pose proof (wf_parent_lt post Hwf _ _ Hpq ltac:(assumption)). lia.
    + intros y Hy. apply Honto; [apply N.le_0_l | exact Hy].
    + exact Hinj.
    + intros x y Hxy. destruct (Himage x y Hxy) as (_ & s & s' & Hs & Hs' & Hkey & _).
      eauto.
    + (* the root of the copy *)
      destruct Hk as [y Hy].
      assert (y = 0) as ->.
      { destruct (N.eq_dec y 0) as [->|Hne]; [reflexivity|exfalso].
        pose proof (Himg_lt _ _ Hy) as Hy_lt.
        destruct (Honto 0) as [x1 Hx1]; [vm_compute; discriminate | lia |].
        destruct (Himage x1 0 Hx1) as (_ & s & s' & _ & _ & _ & Hpar).
        destruct Hpar as [[Hst _]|[_ (p & q & _ & Hq & Hpq)]].
        * apply list_elem_of_singleton in Hst. subst x1. congruence.
        * pose proof (Himg_lt _ _ Hq) as Hq_lt.
          assert (q <> mnpos).
          { unfold vec_size, mnpos in *. lia. }
          pose proof (wf_parent_lt post Hwf _ _ Hpq ltac:(assumption)). lia. }
      destruct (Himage k 0 Hy) as (_ & s & s' & _ & _ & _ & Hpar).
      destruct Hpar as [[_ Hpar]|[Hns _]]; [exact Hpar|].
      exfalso. apply Hns. apply list_elem_of_here.
    + intros x y Hxy Hne.
      destruct (Himage x y Hxy) as (_ & s & s' & _ & _ & _ & Hpar).
      destruct Hpar as [[Hst _]|[_ Hpar]]; [|exact Hpar].
      apply list_elem_of_singleton in Hst. contradiction.
  - intros x Hx. apply Hbelow, Hdom, Hx.
Qed.

(** The roots that [split_at] collects. *)
Lemma split_roots_spec : split_roots T = Return (children_at T mnpos).
Proof.
  unfold split_roots, children_at.
  rewrite (size_small T T_fits). unfold vec_size in *. fold (segments T).
  destruct (for_each_span_inv
    (fun roots i => do r <- is_root T (to_msize i);
                    Return (if r then roots ++ [to_msize i] else roots))
    (fun j roots =>
       roots = filter (fun i : N => parents_ T !! N.to_nat i = Some mnpos)
                      (make_span (N.of_nat j)))
    (length (segments T)) []) as (roots & -> & ->); [reflexivity| |reflexivity].
  intros j roots Hj ->.
  assert (to_msize (N.of_nat j) = N.of_nat j) as ->.
  { apply to_msize_small. unfold mnpos in *. lia. }
  destruct (lookup_lt_is_Some_2 (parents_ T) j) as [p Hp].
  { rewrite (wf_parents_length T T_wf). exact Hj. }
  unfold is_root. rewrite (size_small T T_fits).
  assert ((vec_size (segments_ T) <=? N.of_nat j) = false) as ->.
  { apply N.leb_gt. unfold vec_size. fold (segments T). lia. }
  rewrite (vec_at_of_nat _ _ _ Hp). cbn [bind].
  eexists. split; [reflexivity|].
  rewrite filter_make_span_succ, Nat2N.id, Hp.
  destruct (N.eqb_spec p mnpos) as [->|Hne].
  - now rewrite decide_True.
  - rewrite decide_False by congruence. now rewrite app_nil_r.
Qed.

(** The loop of [split_at] over the roots not yet copied. *)
Lemma split_pre_runs rs : forall starts res image popped,
  copy_invariant T (fun x => negb (x =? k)) starts mnpos 0 empty_tree
    res image popped [] ->
  NoDup rs ->
  (forall r, r ∈ rs -> (r ∉ starts) /\ r < vec_size (segments T) /\
                       parents T !! N.to_nat r = Some mnpos) ->
  (forall e, e ∈ starts -> parents T !! N.to_nat e = Some mnpos) ->
  exists res' image' popped',
    for_each (fun pre root =>
                copy_subtree_if T (mk_node mnpos root)
                  (fun node => negb (node_id node =? k)) pre) rs res =
      Return res' /\
    copy_invariant T (fun x => negb (x =? k)) (rev rs ++ starts) mnpos 0
      empty_tree res' image' popped' [] /\
    (forall x, x ∈ popped ++ rs -> x ∈ popped').
Proof.
  induction rs as [|r rs IH]; intros starts res image popped Hinv Hnd Hrs Hst.
  - exists res, image, popped. cbn. rewrite app_nil_r. auto.
  - apply NoDup_cons in Hnd as [Hr_rs Hnd].
    destruct (Hrs r) as (Hr_st & Hr_lt & Hr_root); [apply list_elem_of_here|].
    assert (forall e, e ∈ r :: starts -> parents T !! N.to_nat e = Some mnpos)
      as Hst'.
    { intros e He. apply elem_of_cons in He as [->|He]; auto. }
    assert (r ∉ popped) as Hr_pop.
    { intros Hin.
      destruct (ci_origin _ _ _ _ _ _ _ _ _ _ Hinv r) as [?|(p & Hp & Hsome)];
        [rewrite app_nil_r; exact Hin | contradiction |].
      rewrite Hr_root in Hp. inversion Hp; subst p.
      apply (ci_copied _ _ _ _ _ _ _ _ _ _ Hinv) in Hsome as [Hsome _].
      destruct (ci_range _ _ _ _ _ _ _ _ _ _ Hinv mnpos) as [_ Hlt];
        [rewrite app_nil_r; exact Hsome|].
      unfold vec_size in *. lia. }
    destruct (copy_run T (fun x => negb (x =? k)) mnpos 0 empty_tree
                (fun node => negb (node_id node =? k)) starts res image popped r
                T_wf T_fits (fun _ => eq_refl))
      as (res1 & image1 & popped1 & Hrun & Hinv1 & _ & Hpop1);
      [ | now left | exact Hinv | exact Hr_pop | apply N.le_0_l | exact Hr_lt | ].
    { intros e x He Hp Hx. rewrite (Hst' e He) in Hp. inversion Hp; subst x.
      unfold vec_size in *. lia. }
    destruct (IH (r :: starts) res1 image1 popped1 Hinv1 Hnd)
      as (res' & image' & popped' & Hloop & Hinv' & Hpop'); [|exact Hst'|].
    { intros r' Hr'. destruct (Hrs r') as (Hns & Hlt & Hroot);
        [now apply list_elem_of_further|].
      split; [|auto]. intros Hin. apply elem_of_cons in Hin as [->|Hin]; contradiction. }
    exists res', image', popped'. split; [|split].
    + cbn [for_each]. rewrite Hrun. exact Hloop.
    + cbn [rev]. rewrite <- app_assoc. exact Hinv'.
    + intros x Hx. apply Hpop'. apply elem_of_app.
      apply elem_of_app in Hx as [Hx|Hx].
      * left. apply Hpop1. apply elem_of_app. now left.
      * apply elem_of_cons in Hx as [->|Hx]; [|now right].
        left. apply Hpop1. apply elem_of_app. right. apply list_elem_of_here.
Qed.

(** The second part of [split_at]: the forest without the subtree of
    [k]. *)
Lemma split_pre :
  exists pre image kept,
    for_each (fun pre root =>
                copy_subtree_if T (mk_node mnpos root)
                  (fun node => negb (node_id node =? k)) pre)
             (children_at T mnpos) empty_tree = Return pre /\
    well_formed pre /\
    copied_without T k pre image /\
    NoDup kept /\
    (forall x, x ∈ kept -> x < vec_size (segments T) /\ ~ below T k x) /\
    length (segments pre) = length kept.
Proof.
  pose proof (copy_invariant_init T (fun x => negb (x =? k)) mnpos 0 empty_tree
                empty_well_formed) as Hinit.
  assert (forall r, r ∈ children_at T mnpos ->
            r < vec_size (segments T) /\ parents T !! N.to_nat r = Some mnpos)
    as Hroots.
  { intros r Hr. apply elem_of_children_at in Hr as [Hr Hp].
    rewrite (size_small T T_fits) in Hr. auto. }
  destruct (split_pre_runs (children_at T mnpos) [] _ _ _ Hinit)
    as (pre & image & popped & Hrun & Hinv & Hpop).
  { apply children_at_NoDup. }
  { intros r Hr. destruct (Hroots r Hr). split; [apply not_elem_of_nil | auto]. }
  { intros e He. inversion He. }
  rewrite app_nil_r in Hinv. cbn [app] in Hpop.
  destruct Hinv as [Hnd Hrange Horigin Htodo Hcopied Hclosed Himage Hinj Honto
                      Hsegs Hpars Hwf Hsize].
  cbn [map length] in *. rewrite app_nil_r in *.
  assert (forall e, e ∈ rev (children_at T mnpos) ->
            parents T !! N.to_nat e = Some mnpos) as Hstarts.
  { intros e He. apply list_elem_of_In, in_rev, list_elem_of_In in He.
    now apply Hroots. }
  assert (forall x, is_Some (image !! x) -> x < vec_size (segments T)) as Hlt.
  { intros x Hx. apply Hcopied in Hx as [Hx _]. now apply Hrange in Hx. }
  assert (forall x, is_Some (image !! x) -> ~ below T k x) as Hnot_below.
  { intros x. induction x as [x IH] using index_induction. intros Hx Hb.
    pose proof (proj1 (Hcopied x) Hx) as [Hpop_x Hacc].
    apply negb_true_iff, N.eqb_neq in Hacc.
    inversion Hb as [Heq|c p Hp Hbp Heq]; [congruence|]. subst c.
    destruct (Horigin x Hpop_x) as [Hst|(p' & Hp' & Hsome)].
    - rewrite (Hstarts x Hst) in Hp. inversion Hp; subst p.
      apply below_lt in Hbp. unfold vec_size in *. lia.
    - rewrite Hp in Hp'. inversion Hp'; subst p'.
      apply (IH p); [|exact Hsome|exact Hbp].
      pose proof (Hlt p Hsome).
      destruct (parent_real x p Hp) as [Hpx _]; [unfold vec_size, mnpos in *; lia | exact Hpx]. }
  assert (forall x, x < vec_size (segments T) -> ~ below T k x ->
            is_Some (image !! x)) as Hkept.
  { intros x. induction x as [x IH] using index_induction. intros Hx Hnb.
    assert (negb (x =? k) = true) as Hacc.
    { apply negb_true_iff, N.eqb_neq. intros ->. apply Hnb. constructor. }
    destruct (lookup_lt_is_Some_2 (parents T) (N.to_nat x)) as [p Hp].
    { unfold parents. rewrite (wf_parents_length T T_wf).
      unfold vec_size, segments in *. lia. }
    apply Hcopied. split; [|exact Hacc].
    destruct (N.eq_dec p mnpos) as [->|Hne].
    - apply Hpop. apply elem_of_children_at.
      rewrite (size_small T T_fits). auto.
    - destruct (parent_real x p Hp Hne) as [Hpx _].
      apply (Hclosed p x); [|exact Hp|exact Hx].
      apply IH; [exact Hpx | lia |].
      intros Hbp. apply Hnb. now apply (below_child T k x p). }
  exists pre, image, (filter (fun x => negb (x =? k) = true) popped).
  split; [exact Hrun|]. split; [exact Hwf|].
  split; [|split; [now apply NoDup_filter|split; [|exact Hsize]]].
  - constructor.
    + intros x. split; [intros Hx; split; [now apply Hlt | now apply Hnot_below]|].
      intros [Hx Hnb]. now apply Hkept.
    + intros y Hy. apply Honto; [apply N.le_0_l | exact Hy].
    + exact Hinj.
    + intros x y Hxy.
      destruct (Himage x y Hxy) as (_ & s & s' & Hs & Hs' & Hkey & _). eauto.
    + intros x y Hxy.
      destruct (Himage x y Hxy) as (_ & s & s' & _ & _ & _ & Hpar).
      destruct Hpar as [[Hst Hpar]|[_ (p & q & Hp & Hq & Hpar)]].
      * exists mnpos. split; [now apply Hstarts|]. now left.
      * exists p. split; [exact Hp|]. right. split; [|eauto].
        assert (is_Some (image !! p)) as Hp_some by eauto.
        apply Hlt in Hp_some. unfold vec_size, mnpos in *. lia.
  - intros x Hx. apply list_elem_of_filter in Hx as [Hacc Hx].
    assert (is_Some (image !! x)) as Hsome by (apply Hcopied; auto).
    split; [now apply Hlt | now apply Hnot_below].
Qed.

End SplitJoin.

(** ** Counting indices *)

Lemma NoDup_bounded_length (l : list N) (n : nat) :
  NoDup l -> (forall x, x ∈ l -> x < N.of_nat n) -> (length l <= n)%nat.
Proof.
  intros Hnd Hlt.
  assert (l ⊆+ make_span (N.of_nat n)) as Hsub.
  { apply NoDup_submseteq; [exact Hnd|].
    intros x Hx. apply elem_of_make_span, Hlt, Hx. }
  apply submseteq_length in Hsub. unfold make_span in Hsub.
  rewrite length_map, length_seq, Nat2N.id in Hsub. exact Hsub.
Qed.

Lemma covering_length (l : list N) (n : nat) :
  (forall x, x < N.of_nat n -> x ∈ l) -> (n <= length l)%nat.
Proof.
  intros Hall.
  assert (make_span (N.of_nat n) ⊆+ l) as Hsub.
  { apply NoDup_submseteq; [apply make_span_NoDup|].
    intros x Hx. apply Hall, elem_of_make_span, Hx. }
  apply submseteq_length in Hsub. unfold make_span in Hsub.
  rewrite length_map, length_seq, Nat2N.id in Hsub. exact Hsub.
Qed.

Lemma make_span_lookup (n x : N) :
  x < n -> make_span n !! N.to_nat x = Some x.
Proof.
  intros Hx. unfold make_span.
  change (map N.of_nat (seq 0 (N.to_nat n))) with (N.of_nat <$> seq 0 (N.to_nat n)).
  rewrite list_lookup_fmap, lookup_seq_lt by lia.
  cbn. now rewrite N2Nat.id.
Qed.

(** ** Joining *)

Section JoinFacts.

Context {mpoint : Type}.
Variables (lhs rhs : @segment_tree mpoint) (at_ : msize_t).
Hypothesis lhs_wf : well_formed lhs.
Hypothesis rhs_wf : well_formed rhs.
Hypothesis fits : vec_size (segments lhs) + vec_size (segments rhs) <= mnpos.
Hypothesis at_ok : at_ = mnpos \/ at_ < vec_size (segments lhs).
Hypothesis rhs_nonempty : 0 < vec_size (segments rhs).
Hypothesis rhs_one_root : forall y q,
  y <> 0 -> parents rhs !! N.to_nat y = Some q -> q <> mnpos.

(** [join_at] copies all of a tree whose only root is its first segment. *)
Lemma join_at_runs :
  exists joined image popped,
    join_at lhs at_ rhs = Return joined /\
    copy_invariant rhs (fun _ => true) [0] at_ 0 lhs joined image popped [] /\
    (forall y, y < vec_size (segments rhs) -> is_Some (image !! y)).
Proof.
  assert (vec_size (segments lhs) <= mnpos) as lhs_fits by lia.
  assert ((size lhs <=? at_) && negb (at_ =? mnpos) = false) as Hcond.
  { destruct at_ok as [->|Hlt].
    - rewrite N.eqb_refl. apply andb_false_r.
    - rewrite (size_small lhs lhs_fits).
      apply andb_false_iff. left. apply N.leb_gt. exact Hlt. }
  unfold join_at. rewrite Hcond.
  assert (forall e x, e ∈ [0] -> parents rhs !! N.to_nat e = Some x ->
            x < vec_size (segments rhs) -> x < 0) as Hlow.
  { intros e x He Hp Hx. apply list_elem_of_singleton in He. subst e. exfalso.
    assert (x <> mnpos) as Hne by (unfold mnpos in *; lia).
    pose proof (wf_parent_lt rhs rhs_wf _ _ Hp Hne). lia. }
  destruct (copy_run rhs (fun _ => true) at_ 0 lhs yes [] lhs ∅ [] 0
              rhs_wf fits (fun _ => eq_refl) Hlow at_ok
              (copy_invariant_init rhs (fun _ => true) at_ 0 lhs lhs_wf)
              (not_elem_of_nil 0) (N.le_refl 0) rhs_nonempty)
    as (joined & image & popped & Hrun & Hinv & _ & Hpop).
  exists joined, image, popped. split; [exact Hrun|]. split; [exact Hinv|].
  destruct Hinv as [_ _ _ _ Hcopied Hclosed _ _ _ _ _ _ _].
  cbn [map] in *. rewrite app_nil_r in *.
  intros y. induction y as [y IH] using index_induction. intros Hy.
  apply Hcopied. split; [|reflexivity].
  destruct (N.eq_dec y 0) as [->|Hne].
  - apply Hpop. apply list_elem_of_here.
  - destruct (lookup_lt_is_Some_2 (parents rhs) (N.to_nat y)) as [q Hq].
    { unfold parents. rewrite (wf_parents_length rhs rhs_wf).
      unfold vec_size, segments in *. lia. }
    pose proof (rhs_one_root y q Hne Hq) as Hq_ne.
    pose proof (wf_parent_lt rhs rhs_wf _ _ Hq Hq_ne) as Hq_lt.
    apply (Hclosed q y); [|exact Hq|exact Hy].
    apply IH; lia.
Qed.

End JoinFacts.

(** ** Recognising a reordering *)

Section ReorderingIntro.

Context {mpoint : Type} `{PointOrder mpoint}.

Lemma maps_segment_intro sigma (a b : @segment_tree mpoint) i s p j s' p' :
  segments a !! i = Some s -> parents a !! i = Some p -> sigma !! i = Some j ->
  segments b !! N.to_nat j = Some s' -> parents b !! N.to_nat j = Some p' ->
  segment_key s = segment_key s' ->
  (p = mnpos /\ p' = mnpos \/ p <> mnpos /\ sigma !! N.to_nat p = Some p') ->
  maps_segment sigma a b i = true.
Proof.
  intros Hs Hp Hj Hs' Hp' Hkey Hpar. unfold maps_segment.
  rewrite Hs, Hp, Hj, Hs', Hp'.
  apply same_geometry_key in Hkey. rewrite Hkey.
  destruct Hpar as [[-> ->]|[Hne Hq]].
  - reflexivity.
  - apply N.eqb_neq in Hne. rewrite Hne, Hq. apply N.eqb_refl.
Qed.

Lemma is_reordering_intro sigma (a b : @segment_tree mpoint) :
  length sigma = length (segments a) ->
  length (segments b) = length (segments a) ->
  (forall j, j < vec_size (segments b) -> j ∈ sigma) ->
  (forall x, x < vec_size (segments a) ->
     maps_segment sigma a b (N.to_nat x) = true) ->
  is_reordering sigma a b = true.
Proof.
  intros Hlen Hlen' Honto Hmaps. unfold is_reordering.
  rewrite !andb_true_iff. repeat split.
  - now apply Nat.eqb_eq.
  - now apply Nat.eqb_eq.
  - apply forallb_forall. intros j Hj. apply existsb_exists.
    exists j. split; [|apply N.eqb_refl].
    apply list_elem_of_In, Honto. unfold vec_size.
    apply elem_of_make_span. apply list_elem_of_In. exact Hj.
  - apply forallb_forall. intros i Hi. apply in_seq in Hi.
    rewrite <- (Nat2N.id i). apply Hmaps. unfold vec_size. lia.
Qed.

End ReorderingIntro.

(** ** A split followed by a join *)

Section RoundTrip.

Context {mpoint : Type} `{PointOrder mpoint}.
Variables (T : @segment_tree mpoint) (k : N).
Hypothesis T_wf : well_formed T.
Hypothesis T_fits : vec_size (segments T) <= mnpos.
Hypothesis k_lt : k < vec_size (segments T).

(** [split_at] returns the forest without the subtree of [k] and that
    subtree. *)
Lemma split_at_spec :
  exists pre post rho_pre rho_post,
    split_at T k = Return (pre, post) /\
    well_formed pre /\ well_formed post /\
    copied_without T k pre rho_pre /\ copied_subtree T k post rho_post /\
    vec_size (segments pre) + vec_size (segments post) <= vec_size (segments T).
Proof.
  destruct (split_post T k T_wf T_fits k_lt)
    as (post & rho_post & popped & Hpost & Hpost_wf & Hcs & Hnd & Hbelow & Hlen).
  destruct (split_pre T k T_wf T_fits k_lt)
    as (pre & rho_pre & kept & Hpre & Hpre_wf & Hcw & Hnd' & Hkept & Hlen').
  exists pre, post, rho_pre, rho_post.
  split; [|split; [exact Hpre_wf|split; [exact Hpost_wf|split;
           [exact Hcw|split; [exact Hcs|]]]]].
  - unfold split_at. rewrite (size_small T T_fits).
    assert ((vec_size (segments_ T) <=? k) = false) as ->.
    { apply N.leb_gt. exact k_lt. }
    assert ((k =? mnpos) = false) as ->.
    { apply N.eqb_neq. lia. }
    cbn [orb]. rewrite Hpost. cbn [bind].
    rewrite (split_roots_spec T k) by assumption. cbn [bind].
    rewrite Hpre. reflexivity.
  - assert (length (kept ++ popped) <= length (segments T))%nat as Hle.
    { apply NoDup_bounded_length.
      - apply NoDup_app. split; [exact Hnd'|]. split; [|exact Hnd].
        intros x Hx Hx'. apply Hkept in Hx as [_ Hx]. apply Hx, Hbelow, Hx'.
      - intros x Hx. apply elem_of_app in Hx as [Hx|Hx].
        + apply Hkept in Hx as [Hx _]. exact Hx.
        + apply Hbelow in Hx. eapply below_lt; eassumption. }
    rewrite length_app in Hle. unfold vec_size. lia.
Qed.

Variables (pre post : @segment_tree mpoint) (rho_pre rho_post : gmap N N).
Variables (at_ p : msize_t).
Hypothesis pre_wf : well_formed pre.
Hypothesis post_wf : well_formed post.
Hypothesis pre_copy : copied_without T k pre rho_pre.
Hypothesis post_copy : copied_subtree T k post rho_post.
Hypothesis sizes :
  vec_size (segments pre) + vec_size (segments post) <= vec_size (segments T).
Hypothesis k_parent : parents T !! N.to_nat k = Some p.
Hypothesis at_image :
  p = mnpos /\ at_ = mnpos \/ p <> mnpos /\ rho_pre !! p = Some at_.

Lemma rho_pre_lt x y :
  rho_pre !! x = Some y -> y < vec_size (segments pre).
Proof.
  intros Hxy. destruct (cw_segment _ _ _ _ pre_copy x y Hxy) as (s & s' & _ & Hs' & _).
  apply lookup_lt_Some in Hs'. unfold vec_size. lia.
Qed.

Lemma rho_post_lt x y :
  rho_post !! x = Some y -> y < vec_size (segments post).
Proof.
  intros Hxy. destruct (cs_segment _ _ _ _ post_copy x y Hxy) as (s & s' & _ & Hs' & _).
  apply lookup_lt_Some in Hs'. unfold vec_size. lia.
Qed.

Lemma post_one_root y q :
  y <> 0 -> parents post !! N.to_nat y = Some q -> q <> mnpos.
Proof.
  intros Hne Hq.
  assert (y < vec_size (segments post)) as Hy.
  { apply lookup_lt_Some in Hq. unfold parents in Hq.
    rewrite (wf_parents_length post post_wf) in Hq.
    unfold vec_size, segments. lia. }
  destruct (cs_onto _ _ _ _ post_copy y Hy) as [x Hx].
  assert (x <> k) as Hxk.
  { intros ->. rewrite (cs_root _ _ _ _ post_copy) in Hx. congruence. }
  destruct (cs_parent _ _ _ _ post_copy x y Hx Hxk) as (p0 & q0 & _ & Hq0 & Hpar).
  rewrite Hq in Hpar. inversion Hpar; subst q0.
  apply rho_post_lt in Hq0. unfold mnpos in *. lia.
Qed.

Lemma at_fits : at_ = mnpos \/ at_ < vec_size (segments pre).
Proof.
  destruct at_image as [[_ ->]|[_ Hat]]; [now left|right].
  now apply rho_pre_lt in Hat.
Qed.

(** Joining the two trees of a split where the split was made gives the
    forest back, up to the order of the segments. *)
Lemma split_join_reordering :
  exists joined sigma,
    join_at pre at_ post = Return joined /\ well_formed joined /\
    is_reordering sigma T joined = true.
Proof.
  assert (vec_size (segments pre) + vec_size (segments post) <= mnpos) as Hfits
    by lia.
  assert (0 < vec_size (segments post)) as Hnonempty.
  { pose proof (rho_post_lt k 0 (cs_root _ _ _ _ post_copy)). lia. }
  destruct (join_at_runs pre post at_ pre_wf post_wf Hfits at_fits Hnonempty
              post_one_root)
    as (joined & rho & popped & Hjoin & Hinv & Hall).
  destruct Hinv as [_ Hrange _ _ Hcopied _ Himage Hinj Honto
                      [exts Hsegs] [extp Hpars] Hwf _].
  cbn [map] in *. rewrite app_nil_r in *.
  destruct pre_copy as [Wdom Wonto Winj Wseg Wpar].
  destruct post_copy as [Sdom Sroot Sonto Sinj Sseg Srootpar Spar].
  set (sf := join_renaming rho_post rho_pre rho).
  set (sigma := map sf (make_span (vec_size (segments T)))).
  assert (forall x, x < vec_size (segments T) -> sigma !! N.to_nat x = Some (sf x))
    as Hsigma.
  { intros x Hx. unfold sigma.
    change (map sf ?l) with (sf <$> l).
    now rewrite list_lookup_fmap, (make_span_lookup _ _ Hx). }
  assert (forall y z, rho !! y = Some z ->
            vec_size (segments pre) <= z /\ z < vec_size (segments joined))
    as Hrho_lt.
  { intros y z Hyz. destruct (Himage y z Hyz) as (Hge & s & s' & _ & Hs' & _).
    split; [exact Hge|]. apply lookup_lt_Some in Hs'. unfold vec_size. lia. }
  assert (vec_size (segments pre) <= vec_size (segments joined)) as Hpre_le.
  { unfold vec_size. rewrite Hsegs, length_app. lia. }
  (* where the renaming sends an index *)
  assert (forall x y, rho_pre !! x = Some y ->
            x < vec_size (segments T) /\ rho_post !! x = None /\ sf x = y)
    as Hsf_pre.
  { intros x y Hxy. destruct (proj1 (Wdom x)) as [Hx Hnb]; [eauto|].
    assert (rho_post !! x = None) as Hnone.
    { destruct (rho_post !! x) eqn:Hpx; [|reflexivity].
      exfalso. apply Hnb, Sdom. eauto. }
    split; [exact Hx|]. split; [exact Hnone|].
    unfold sf, join_renaming. now rewrite Hnone, Hxy. }
  assert (forall x y, rho_post !! x = Some y ->
            x < vec_size (segments T) /\ exists z, rho !! y = Some z /\ sf x = z)
    as Hsf_post.
  { intros x y Hxy. split.
    - apply (below_lt T k); [assumption..|]. apply Sdom. eauto.
    - destruct (Hall y (rho_post_lt x y Hxy)) as [z Hz].
      exists z. split; [exact Hz|].
      unfold sf, join_renaming. now rewrite Hxy, Hz. }
  assert (forall x, x < vec_size (segments T) ->
            (exists y, rho_pre !! x = Some y) \/ (exists y, rho_post !! x = Some y))
    as Hcases.
  { intros x Hx. destruct (rho_post !! x) as [y|] eqn:Hpx; [right; eauto|left].
    destruct (proj2 (Wdom x)) as [y Hy]; [|eauto].
    split; [exact Hx|]. intros Hb. apply Sdom in Hb as [y Hy]. congruence. }
  assert (forall x, x < vec_size (segments T) -> sf x < vec_size (segments joined))
    as Hsf_lt.
  { intros x Hx. destruct (Hcases x Hx) as [[y Hy]|[y Hy]].
    - destruct (Hsf_pre x y Hy) as (_ & _ & ->).
      pose proof (rho_pre_lt x y Hy). lia.
    - destruct (Hsf_post x y Hy) as (_ & z & Hz & ->).
      now apply Hrho_lt in Hz. }
  assert (forall x x', x < vec_size (segments T) -> x' < vec_size (segments T) ->
            sf x = sf x' -> x = x') as Hsf_inj.
  { intros x x' Hx Hx' Heq.
    destruct (Hcases x Hx) as [[y Hy]|[y Hy]];
      destruct (Hcases x' Hx') as [[y' Hy']|[y' Hy']].
    - destruct (Hsf_pre x y Hy) as (_ & _ & Hs).
      destruct (Hsf_pre x' y' Hy') as (_ & _ & Hs').
      apply (Winj x x' y); congruence.
    - exfalso. destruct (Hsf_pre x y Hy) as (_ & _ & Hs).
      destruct (Hsf_post x' y' Hy') as (_ & z & Hz & Hs').
      pose proof (rho_pre_lt x y Hy). apply Hrho_lt in Hz. lia.
    - exfalso. destruct (Hsf_pre x' y' Hy') as (_ & _ & Hs').
      destruct (Hsf_post x y Hy) as (_ & z & Hz & Hs).
      pose proof (rho_pre_lt x' y' Hy'). apply Hrho_lt in Hz. lia.
    - destruct (Hsf_post x y Hy) as (_ & z & Hz & Hs).
      destruct (Hsf_post x' y' Hy') as (_ & z' & Hz' & Hs').
      assert (y = y') by (apply (Hinj y y' z); congruence). subst y'.
      apply (Sinj x x' y); congruence. }
  assert (forall j, j < vec_size (segments joined) -> j ∈ sigma) as Hsig_onto.
  { intros j Hj.
    assert (exists x, x < vec_size (segments T) /\ sf x = j) as (x & Hx & <-).
    { destruct (N.lt_ge_cases j (vec_size (segments pre))) as [Hlt|Hge].
      - destruct (Wonto j Hlt) as [x Hx].
        destruct (Hsf_pre x j Hx) as (Hx_lt & _ & Hs). eauto.
      - destruct (Honto j Hge Hj) as [y Hy].
        assert (y < vec_size (segments post)) as Hy_lt.
        { apply Hrange, Hcopied. eauto. }
        destruct (Sonto y Hy_lt) as [x Hx].
        destruct (Hsf_post x y Hx) as (Hx_lt & z & Hz & Hs).
        exists x. split; [exact Hx_lt|]. congruence. }
    apply list_elem_of_lookup. exists (N.to_nat x). now apply Hsigma. }
  assert (length sigma = length (segments T)) as Hlen_sigma.
  { unfold sigma, make_span, vec_size.
    now rewrite !length_map, length_seq, Nat2N.id. }
  assert (length (segments joined) = length (segments T)) as Hlen.
  { apply Nat.le_antisymm.
    - rewrite <- Hlen_sigma. apply covering_length. exact Hsig_onto.
    - rewrite <- Hlen_sigma. apply NoDup_bounded_length.
      + unfold sigma. change (map sf ?l) with (sf <$> l).
        apply NoDup_fmap_2_strong; [|apply make_span_NoDup].
        intros x x' Hx Hx'. unfold vec_size in Hx, Hx'.
        apply elem_of_make_span in Hx, Hx'. now apply Hsf_inj.
      + intros z Hz. unfold sigma in Hz. change (map sf ?l) with (sf <$> l) in Hz.
        apply list_elem_of_fmap in Hz as (x & -> & Hx).
        unfold vec_size in Hx. apply elem_of_make_span in Hx.
        now apply Hsf_lt. }
  exists joined, sigma. split; [exact Hjoin|]. split; [exact Hwf|].
  apply is_reordering_intro; [exact Hlen_sigma|exact Hlen|exact Hsig_onto|].
  intros x Hx. destruct (Hcases x Hx) as [[y Hy]|[y Hy]].
  - (* outside the subtree: the first tree, kept in place *)
    destruct (Hsf_pre x y Hy) as (_ & _ & Hs).
    destruct (Wseg x y Hy) as (s & s' & Hsx & Hsy & Hkey).
    destruct (Wpar x y Hy) as (p0 & Hp0 & Hpar).
    assert (exists p', parents pre !! N.to_nat y = Some p' /\
              (p0 = mnpos /\ p' = mnpos \/
               p0 <> mnpos /\ sigma !! N.to_nat p0 = Some p'))
      as (p' & Hp' & Hrel).
    { destruct Hpar as [[-> Hp']|[Hne (q & Hq & Hp')]].
      - exists mnpos. auto.
      - exists q. split; [exact Hp'|right]. split; [exact Hne|].
        destruct (Hsf_pre p0 q Hq) as (Hp_lt & _ & <-). now apply Hsigma. }
    apply (maps_segment_intro sigma T joined _ s p0 y s' p');
      [exact Hsx|exact Hp0|rewrite <- Hs; now apply Hsigma| | |exact Hkey|exact Hrel].
    + rewrite Hsegs. now apply lookup_app_l_Some.
    + rewrite Hpars. now apply lookup_app_l_Some.
  - (* inside the subtree: the second tree, copied by the join *)
    destruct (Hsf_post x y Hy) as (_ & z & Hz & Hs).
    destruct (Sseg x y Hy) as (s & s' & Hsx & Hsy & Hkey).
    destruct (Himage y z Hz) as (_ & s1 & s2 & Hs1 & Hs2 & Hkey' & Hpar).
    rewrite Hsy in Hs1. inversion Hs1; subst s1.
    destruct (N.eq_dec x k) as [->|Hxk].
    + rewrite Sroot in Hy. inversion Hy; subst y.
      destruct Hpar as [[_ Hpar]|[Hns _]];
        [|exfalso; apply Hns, list_elem_of_here].
      apply (maps_segment_intro sigma T joined _ s p z s2 at_);
        [exact Hsx|exact k_parent|rewrite <- Hs; now apply Hsigma|exact Hs2
        |exact Hpar|congruence|].
      destruct at_image as [[-> ->]|[Hne Hat]]; [now left|right].
      split; [exact Hne|].
      destruct (Hsf_pre p at_ Hat) as (Hp_lt & _ & <-). now apply Hsigma.
    + destruct (Spar x y Hy Hxk) as (p0 & q0 & Hp0 & Hq0 & Hpost_par).
      assert (y <> 0) as Hy0.
      { intros ->. apply Hxk. apply (Sinj x k 0); assumption. }
      destruct Hpar as [[Hst _]|[_ (p1 & q1 & Hp1 & Hq1 & Hpar)]].
      { apply list_elem_of_singleton in Hst. contradiction. }
      rewrite Hpost_par in Hp1. inversion Hp1; subst p1.
      destruct (Hsf_post p0 q0 Hq0) as (Hp_lt & z' & Hz' & Hs').
      assert (sf p0 = q1) as Hsp by congruence.
      apply (maps_segment_intro sigma T joined _ s p0 z s2 q1);
        [exact Hsx|exact Hp0|rewrite <- Hs; now apply Hsigma|exact Hs2
        |exact Hpar|congruence|].
      right. split; [unfold mnpos in *; lia|].
      rewrite <- Hsp. now apply Hsigma.
Qed.

End RoundTrip.

Lemma sample_tree_reordered_reachable : reachable sample_tree_reordered.
Proof.
  apply (append_all_reachable sample_reordered_appends empty_tree).
  - apply reachable_empty.
  - vm_compute. reflexivity.
Qed.

(** ** The claims on [equivalent], [split_at] and [join_at] *)

Section EquivalenceClaims.

Context {mpoint : Type} `{PointOrder mpoint}.

(** C2, for forests without tied siblings.  Let [T] be built by appends,
    with a size that fits [msize_t], no two siblings of [T] and no two roots
    of [T] having the same proximal point, distal point and tag.  If [T'] is
    built by appends and is [T] with its segments appended in another order
    (a renaming [sigma] of the indices, one to one and onto, keeps every
    proximal point, distal point and tag and sends the parent of a segment
    to the parent of its image, a root to a root), then [equivalent T T']
    returns true. *)
Theorem equivalent_reordering_without_ties
    (T T' : @segment_tree mpoint) (sigma : list N) :
  reachable T -> reachable T' ->
  vec_size (segments T) <= mnpos ->
  no_tied_siblings T = true ->
  is_reordering sigma T T' = true ->
  equivalent T T' = Return true.
Proof.
  intros HT HT' Hfits Hties Hre.
  apply (equivalent_reordering T T' sigma); auto using reachable_well_formed.
Qed.

(** C1, for forests without tied siblings.  Let [T] be built by appends,
    with a size that fits [msize_t], no two siblings of [T] and no two roots
    of [T] having the same proximal point, distal point and tag, and let
    [k < size T].  Then [split_at T k] returns a pair [(pre, post)], [pre]
    being a copy of [T] without the subtree of [k] under a numbering [rho];
    and with [at_] the sentinel when [k] is a root of [T] and the index that
    [rho] gives to the parent of [k] otherwise, [join_at pre at_ post]
    returns a forest that [equivalent] judges equal to [T]. *)
Theorem split_join_equivalent_without_ties
    (T : @segment_tree mpoint) (k : msize_t) :
  reachable T ->
  vec_size (segments T) <= mnpos ->
  no_tied_siblings T = true ->
  k < size T ->
  exists pre post rho,
    split_at T k = Return (pre, post) /\
    copied_without T k pre rho /\
    forall p at_,
      vec_at (parents T) k = Return p ->
      (p = mnpos /\ at_ = mnpos \/ p <> mnpos /\ rho !! p = Some at_) ->
      exists joined,
        join_at pre at_ post = Return joined /\
        equivalent T joined = Return true.
Proof.
  intros HT Hfits Hties Hk.
  pose proof (reachable_well_formed T HT) as Hwf.
  rewrite (size_small T Hfits) in Hk.
  destruct (split_at_spec T k Hwf Hfits Hk)
    as (pre & post & rho_pre & rho_post & Hsplit & Hpre_wf & Hpost_wf &
        Hcw & Hcs & Hsizes).
  exists pre, post, rho_pre. split; [exact Hsplit|]. split; [exact Hcw|].
  intros p at_ Hp Hat. apply vec_at_Return in Hp.
  destruct (split_join_reordering T k Hwf Hfits Hk pre post rho_pre rho_post
              at_ p Hpre_wf Hpost_wf Hcw Hcs Hsizes Hp Hat)
    as (joined & sigma & Hjoin & Hjoined_wf & Hre).
  exists joined. split; [exact Hjoin|].
  now apply (equivalent_reordering T joined sigma).
Qed.

End EquivalenceClaims.

Lemma equivalent_reordering_without_ties_witness :
  is_reordering [0; 2; 3; 1] sample_tree sample_tree_reordered = true /\
  equivalent sample_tree sample_tree_reordered = Return true.
Proof.
  split; [vm_compute; reflexivity|].
  apply (equivalent_reordering_without_ties sample_tree sample_tree_reordered
           [0; 2; 3; 1]).
  - exact sample_tree_reachable.
  - exact sample_tree_reordered_reachable.
  - vm_compute. discriminate.
  - vm_compute. reflexivity.
  - vm_compute. reflexivity.
Defined.

Lemma split_join_equivalent_without_ties_witness :
  (do pp <- split_at sample_tree 1;
   do joined <- join_at (fst pp) 0 (snd pp);
   equivalent sample_tree joined) = Return true.
Proof.
  assert (vec_size (segments sample_tree) <= mnpos) as Hfits
    by (vm_compute; discriminate).
  destruct (split_join_equivalent_without_ties sample_tree 1)
    as (pre & post & rho & Hsplit & Hcw & Hjoin).
  - exact sample_tree_reachable.
  - exact Hfits.
  - vm_compute. reflexivity.
  - vm_compute. reflexivity.
  - rewrite Hsplit. cbn [bind fst snd].
    (* segment 0, the parent of segment 1, is segment 0 of [pre] too *)
    destruct (proj2 (cw_domain _ _ _ _ Hcw 0)) as [a Ha].
    { split; [vm_compute; reflexivity|]. intros Hb.
      apply (below_ge sample_tree 1) in Hb;
        [lia|exact (reachable_well_formed _ sample_tree_reachable)|exact Hfits
        |vm_compute; reflexivity]. }
    assert (a = 0) as ->.
    { destruct (cw_parent _ _ _ _ Hcw 0 a Ha) as (p & Hp & Hpar).
      destruct (cw_segment _ _ _ _ Hcw 0 a Ha) as (s & s' & _ & Hs' & _).
      vm_compute in Hsplit. inversion Hsplit; subst pre post.
      apply lookup_lt_Some in Hs'. cbn in Hs'.
      cbn in Hp. inversion Hp; subst p.
      destruct Hpar as [[_ Hpar]|[Hne _]]; [|contradiction].
      assert (a = 0 \/ a = 1) as [-> | ->] by lia; [reflexivity|].
      cbn in Hpar. discriminate. }
    destruct (Hjoin 0 0) as (joined & Hjoined & Heq).
    + reflexivity.
    + right. split; [discriminate|exact Ha].
    + rewrite Hjoined. cbn [bind]. exact Heq.
Defined.

(** * Further properties of the forest operations *)

(** ** [equivalent] as a relation *)

Section MatchChildren.

Context {mpoint : Type} `{PointOrder mpoint}.

Lemma match_children_Some (as_ bs : list (@msegment mpoint)) : forall todo todo',
  match_children as_ bs todo = Some todo' -> length as_ = length bs ->
  exists new, todo' = new ++ todo /\
    map fst new = rev (map id as_) /\ map snd new = rev (map id bs).
Proof.
  revert bs. induction as_ as [|sa as_ IH]; intros [|sb bs] todo todo' Hm Hlen;
    try discriminate.
  - inversion Hm; subst. exists []. auto.
  - cbn [match_children] in Hm.
    destruct (negb (point_eqb (prox sa) (prox sb)) ||
              negb (point_eqb (dist sa) (dist sb)) || negb (tag sa =? tag sb)%Z);
      [discriminate|].
    destruct (IH bs _ _ Hm) as (new & -> & Hfst & Hsnd); [simpl in Hlen; lia|].
    exists (new ++ [(id sa, id sb)]). rewrite <- app_assoc. split; [reflexivity|].
    rewrite !map_app. cbn [map rev fst snd]. now rewrite Hfst, Hsnd.
Qed.

Lemma match_children_refl (l : list (@msegment mpoint)) : forall todo,
  match_children l l todo = Some (map (fun x => (x, x)) (rev (map id l)) ++ todo).
Proof.
  induction l as [|s l IH]; intros todo; [reflexivity|].
  cbn [match_children].
  assert (point_eqb (prox s) (prox s) = true) as -> by (now apply point_eqb_eq).
  assert (point_eqb (dist s) (dist s) = true) as -> by (now apply point_eqb_eq).
  rewrite Z.eqb_refl. cbn [negb orb]. rewrite IH.
  cbn [map rev]. rewrite map_app. cbn [map]. now rewrite <- app_assoc.
Qed.

Lemma point_eqb_sym (x y : mpoint) : point_eqb x y = point_eqb y x.
Proof.
  destruct (point_eqb x y) eqn:Hxy, (point_eqb y x) eqn:Hyx; try reflexivity.
  - apply point_eqb_eq in Hxy. subst y.
    assert (point_eqb x x = true) by (now apply point_eqb_eq). congruence.
  - apply point_eqb_eq in Hyx. subst y.
    assert (point_eqb x x = true) by (now apply point_eqb_eq). congruence.
Qed.

Lemma match_children_swap (as_ bs : list (@msegment mpoint)) : forall todo,
  match_children bs as_ (map (fun p => (p.2, p.1)) todo) =
  option_map (map (fun p : N * N => (p.2, p.1))) (match_children as_ bs todo).
Proof.
  revert bs. induction as_ as [|sa as_ IH]; intros [|sb bs] todo; try reflexivity.
  cbn [match_children].
  rewrite (point_eqb_sym (prox sb)), (point_eqb_sym (dist sb)),
    (Z.eqb_sym (tag sb)).
  destruct (negb (point_eqb (prox sa) (prox sb)) ||
            negb (point_eqb (dist sa) (dist sb)) || negb (tag sa =? tag sb)%Z);
    [reflexivity|].
  apply (IH bs ((id sa, id sb) :: todo)).
Qed.

End MatchChildren.

Section EquivalentVisits.

Context {mpoint : Type} `{PointOrder mpoint}.
Variables a b : @segment_tree mpoint.
Hypothesis a_fits : vec_size (segments a) <= mnpos.
Variables ma mb : gmap N (list N).

(** What the cursors of the stack are paired with ([related]), and whether a
    turn may end the loop with [false]. *)
Variable related : N -> N -> Prop.
Variable strict : bool.
Hypothesis turn : forall fuel x y todo,
  related x y -> x = mnpos \/ x < vec_size (segments a) ->
  (strict = false /\
   equivalent_loop (@std_sort _) (S fuel) a b ma mb ((x, y) :: todo) =
   Return false) \/
  (exists new,
     map fst new ≡ₚ children_at a x /\
     (forall p, p ∈ new -> related p.1 p.2) /\
     equivalent_loop (@std_sort _) (S fuel) a b ma mb ((x, y) :: todo) =
     equivalent_loop (@std_sort _) fuel a b ma mb (new ++ todo)).

(** The loop pops every segment of [a] once at most: [visited] are the
    cursors of [a] popped so far. *)
Lemma equivalent_loop_visits fuel : forall visited stack,
  NoDup (visited ++ map fst stack) ->
  (forall x, x ∈ visited ++ map fst stack ->
     x = mnpos \/ x < vec_size (segments a)) ->
  (forall x, x ∈ visited ++ map fst stack -> x <> mnpos ->
     exists p, parents a !! N.to_nat x = Some p /\ p ∈ visited) ->
  (forall p, p ∈ stack -> related p.1 p.2) ->
  (S (length (segments a)) <= length visited + fuel)%nat ->
  exists r, equivalent_loop (@std_sort _) fuel a b ma mb stack = Return r /\
            (strict = true -> r = true).
Proof.
  induction fuel as [|fuel IH]; intros visited stack Hnd Hin Hpar Hrel Hfuel.
  - destruct stack as [|x stack]; [exists true; auto|exfalso].
    pose proof (visited_bound a _ Hnd Hin) as Hb.
    rewrite length_app in Hb. simpl in Hb. lia.
  - destruct stack as [|[x y] stack]; [exists true; auto|].
    cbn [map fst] in *.
    destruct (turn fuel x y stack) as [[Hs ->]|(new & Hnew & Hrel_new & ->)].
    { apply (Hrel (x, y)). apply list_elem_of_here. }
    { apply Hin. apply elem_of_app. right. apply list_elem_of_here. }
    { exists false. split; [reflexivity|congruence]. }
    assert (forall c, c ∈ map fst new ->
              c < vec_size (segments a) /\ parents a !! N.to_nat c = Some x)
      as Hchild.
    { intros c Hc. rewrite Hnew in Hc.
      apply elem_of_children_at in Hc as [Hc Hpc].
      rewrite (size_small a a_fits) in Hc. split; [exact Hc | exact Hpc]. }
    apply NoDup_app in Hnd as (Hnd_v & Hdisj & Hnd_s).
    apply NoDup_cons in Hnd_s as [Hx_s Hnd_s].
    assert (x ∉ visited) as Hx_v.
    { intros Hxv. apply (Hdisj x Hxv). apply list_elem_of_here. }
    assert (forall c, c ∈ map fst new -> c ∉ visited ++ x :: map fst stack)
      as Hfresh.
    { intros c Hc Hin_c. destruct (Hchild c Hc) as [Hlt Hpc].
      destruct (Hpar c Hin_c) as (p & Hp & Hpv).
      - unfold vec_size, mnpos in *. lia.
      - rewrite Hpc in Hp. inversion Hp; subst p. contradiction. }
    apply (IH (visited ++ [x]) (new ++ stack)).
    + rewrite map_app, <- app_assoc. cbn [app].
      apply NoDup_app. split; [exact Hnd_v|]. split.
      * intros z Hz Hz'. apply elem_of_cons in Hz' as [->|Hz']; [contradiction|].
        apply elem_of_app in Hz' as [Hz'|Hz'].
        -- apply (Hfresh z Hz'). apply elem_of_app. now left.
        -- apply (Hdisj z Hz). now apply list_elem_of_further.
      * apply NoDup_cons. split.
        -- intros Hx'. apply elem_of_app in Hx' as [Hx'|Hx']; [|contradiction].
           apply (Hfresh x Hx'). apply elem_of_app. right. apply list_elem_of_here.
        -- apply NoDup_app. split; [|split; [|exact Hnd_s]].
           ++ rewrite Hnew. apply children_at_NoDup.
           ++ intros z Hz Hz'. apply (Hfresh z Hz). apply elem_of_app. right.
              now apply list_elem_of_further.
    + intros z Hz. rewrite map_app, <- app_assoc in Hz. cbn [app] in Hz.
      apply elem_of_app in Hz as [Hz|Hz].
      { apply Hin. apply elem_of_app. now left. }
      apply elem_of_cons in Hz as [->|Hz].
      { apply Hin. apply elem_of_app. right. apply list_elem_of_here. }
      apply elem_of_app in Hz as [Hz|Hz].
      * right. now apply Hchild.
      * apply Hin. apply elem_of_app. right. now apply list_elem_of_further.
    + intros z Hz Hne. rewrite map_app, <- app_assoc in Hz. cbn [app] in Hz.
      apply elem_of_app in Hz as [Hz|Hz].
      { destruct (Hpar z) as (p & Hp & Hpv); [apply elem_of_app; now left|exact Hne|].
        exists p. split; [exact Hp|]. apply elem_of_app. now left. }
      apply elem_of_cons in Hz as [->|Hz].
      { destruct (Hpar x) as (p & Hp & Hpv);
          [apply elem_of_app; right; apply list_elem_of_here|exact Hne|].
        exists p. split; [exact Hp|]. apply elem_of_app. now left. }
      apply elem_of_app in Hz as [Hz|Hz].
      * destruct (Hchild z Hz) as [_ Hpz]. exists x. split; [exact Hpz|].
        apply elem_of_app. right. apply list_elem_of_here.
      * destruct (Hpar z) as (p & Hp & Hpv);
          [apply elem_of_app; right; now apply list_elem_of_further|exact Hne|].
        exists p. split; [exact Hp|]. apply elem_of_app. now left.
    + intros p Hp. apply elem_of_app in Hp as [Hp|Hp]; [now apply Hrel_new|].
      apply Hrel. now apply list_elem_of_further.
    + rewrite length_app. simpl. lia.
Qed.

(** The loop from the pair of sentinels, as [equivalent] starts it. *)
Lemma equivalent_loop_from_roots :
  related mnpos mnpos ->
  exists r,
    equivalent_loop (@std_sort _) (S (length (segments a))) a b ma mb
      [(mnpos, mnpos)] = Return r /\
    (strict = true -> r = true).
Proof.
  intros Hroot. apply (equivalent_loop_visits _ []).
  - cbn. apply NoDup_singleton.
  - intros x Hx. apply list_elem_of_singleton in Hx. now left.
  - intros x Hx Hne. apply list_elem_of_singleton in Hx. contradiction.
  - intros p Hp. apply list_elem_of_singleton in Hp. now subst p.
  - simpl. lia.
Qed.

End EquivalentVisits.

Section EquivalentRelation.

Context {mpoint : Type} `{PointOrder mpoint}.

(** [fetch_children] reads the segments of the children of the cursor. *)
Lemma fetch_children_found (t : @segment_tree mpoint) m x :
  (forall q, m !!! q = children_at t q) ->
  exists found,
    fetch_children (@std_sort _) x (segments t) m =
      Return (std_sort fetch_children_less found) /\
    Forall2 (fun i s => segments t !! N.to_nat i = Some s) (children_at t x) found.
Proof.
  intros Hm.
  destruct (fetch_loop_spec (segments t) (children_at t x))
    with (acc := @nil (@msegment mpoint)) as (found & Hf & Hall).
  - apply Forall_forall. intros i Hi. apply elem_of_children_at in Hi as [Hi _].
    pose proof (size_le t) as Hle. unfold vec_size, segments in *. lia.
  - exists found. split; [|exact Hall].
    unfold fetch_children. rewrite Hm, Hf. reflexivity.
Qed.

(** The sorted children that [fetch_children] returns for a cursor carry
    the indices of the children of the cursor. *)
Lemma sorted_children (t : @segment_tree mpoint) m x :
  well_formed t -> vec_size (segments t) <= mnpos ->
  (forall q, m !!! q = children_at t q) ->
  exists sorted,
    fetch_children (@std_sort _) x (segments t) m = Return sorted /\
    map id sorted ≡ₚ children_at t x.
Proof.
  intros Hwf Hfits Hm.
  destruct (fetch_children_found t m x Hm) as (found & Hf & Hall).
  exists (std_sort fetch_children_less found). split; [exact Hf|].
  assert (map id found = children_at t x) as <-.
  { apply (Forall2_map_fst _ _ _ _ Hall). intros i s Hs.
    rewrite (wf_id t Hwf _ _ Hs), N2Nat.id. apply to_msize_small.
    apply lookup_lt_Some in Hs. unfold vec_size, mnpos, segments in *. lia. }
  apply Permutation_map, std_sort_perm.
Qed.

(** A turn of the loop on a pair of cursors of two well-formed forests
    returns [false] or goes on with the children of the first cursor. *)
Lemma equivalent_loop_turn_any (a b : @segment_tree mpoint) ma mb fuel x y todo :
  well_formed a -> vec_size (segments a) <= mnpos ->
  (forall q, ma !!! q = children_at a q) ->
  (forall q, mb !!! q = children_at b q) ->
  equivalent_loop (@std_sort _) (S fuel) a b ma mb ((x, y) :: todo) =
    Return false \/
  exists new,
    map fst new ≡ₚ children_at a x /\
    equivalent_loop (@std_sort _) (S fuel) a b ma mb ((x, y) :: todo) =
    equivalent_loop (@std_sort _) fuel a b ma mb (new ++ todo).
Proof.
  intros Hwf Hfits Hma Hmb.
  destruct (sorted_children a ma x Hwf Hfits Hma) as (sa & Hfa & Hperm).
  destruct (fetch_children_found b mb y Hmb) as (fb & Hfb & _).
  destruct (N.eq_dec (vec_size sa) (vec_size (std_sort fetch_children_less fb)))
    as [Hsz|Hsz].
  - destruct (match_children sa (std_sort fetch_children_less fb) todo)
      as [todo'|] eqn:Hm.
    + right. destruct (match_children_Some _ _ _ _ Hm) as (new & -> & Hfst & _).
      { unfold vec_size in Hsz. lia. }
      exists new. split.
      * rewrite Hfst, <- Hperm. symmetry. apply Permutation_rev.
      * now apply (equivalent_loop_match _ _ _ _ _ _ _ _ _ _ _ _ Hfa Hfb).
    + left. cbn [equivalent_loop]. rewrite Hfa, Hfb. cbn [bind].
      apply N.eqb_eq in Hsz. rewrite Hsz. cbn [negb]. now rewrite Hm.
  - left. now apply (equivalent_loop_sizes _ _ _ _ _ _ _ _ _ _ _ Hfa Hfb).
Qed.

(** A turn of the loop on a cursor paired with itself. *)
Lemma equivalent_loop_turn_same (a : @segment_tree mpoint) ma fuel x todo :
  well_formed a -> vec_size (segments a) <= mnpos ->
  (forall q, ma !!! q = children_at a q) ->
  exists new,
    map fst new ≡ₚ children_at a x /\
    (forall p, p ∈ new -> p.2 = p.1) /\
    equivalent_loop (@std_sort _) (S fuel) a a ma ma ((x, x) :: todo) =
    equivalent_loop (@std_sort _) fuel a a ma ma (new ++ todo).
Proof.
  intros Hwf Hfits Hma.
  destruct (sorted_children a ma x Hwf Hfits Hma) as (sa & Hfa & Hperm).
  exists (map (fun i => (i, i)) (rev (map id sa))). split; [|split].
  - rewrite map_map. cbn [fst]. rewrite map_id, <- Hperm.
    symmetry. apply Permutation_rev.
  - intros p Hp. apply list_elem_of_In, in_map_iff in Hp as (i & <- & _).
    reflexivity.
  - apply (equivalent_loop_match _ _ _ _ _ _ _ _ _ _ _ _ Hfa Hfa);
      [reflexivity|apply match_children_refl].
Qed.

(** The loop on two forests is the loop on the two forests exchanged and
    the pairs of the stack turned round. *)
Lemma equivalent_loop_swap (a b : @segment_tree mpoint) ma mb :
  (forall q, ma !!! q = children_at a q) ->
  (forall q, mb !!! q = children_at b q) ->
  forall fuel todo,
    equivalent_loop (@std_sort _) fuel b a mb ma
      (map (fun p => (p.2, p.1)) todo) =
    equivalent_loop (@std_sort _) fuel a b ma mb todo.
Proof.
  intros Hma Hmb fuel.
  induction fuel as [|fuel IH]; intros [|[x y] todo]; try reflexivity.
  cbn [map fst snd equivalent_loop].
  destruct (fetch_children_found a ma x Hma) as (fa & -> & _).
  destruct (fetch_children_found b mb y Hmb) as (fb & -> & _).
  cbn [bind]. rewrite (N.eqb_sym (vec_size (std_sort fetch_children_less fb))).
  destruct (negb (vec_size (std_sort fetch_children_less fa) =?
                  vec_size (std_sort fetch_children_less fb))); [reflexivity|].
  rewrite match_children_swap.
  destruct (match_children _ _ todo) as [todo'|]; cbn [option_map];
    [apply IH|reflexivity].
Qed.

(** [equivalent] ends with a verdict on two well-formed forests. *)
Lemma equivalent_returns (a b : @segment_tree mpoint) :
  well_formed a -> well_formed b -> vec_size (segments a) <= mnpos ->
  exists r, equivalent a b = Return r.
Proof.
  intros Ha Hb Hfits. unfold equivalent, equivalent_by.
  destruct (negb (size a =? size b)); [eauto|].
  destruct (tree_to_children_at a Ha) as (ma & -> & Hma).
  destruct (tree_to_children_at b Hb) as (mb & -> & Hmb).
  cbn [bind].
  destruct (equivalent_loop_from_roots a b Hfits ma mb (fun _ _ => True) false)
    as (r & Hr & _); [|exact I|eauto].
  intros fuel x y todo _ Hx.
  destruct (equivalent_loop_turn_any a b ma mb fuel x y todo Ha Hfits Hma Hmb)
    as [Hf|(new & Hnew & Hstep)]; [left; auto|right].
  exists new. auto.
Qed.

Lemma equivalent_same (a : @segment_tree mpoint) :
  well_formed a -> vec_size (segments a) <= mnpos ->
  equivalent a a = Return true.
Proof.
  intros Ha Hfits. unfold equivalent, equivalent_by.
  rewrite N.eqb_refl. cbn [negb].
  destruct (tree_to_children_at a Ha) as (ma & -> & Hma). cbn [bind].
  destruct (equivalent_loop_from_roots a a Hfits ma ma (fun x y => y = x) true)
    as (r & Hr & Htrue); [|reflexivity|now rewrite Hr, Htrue].
  intros fuel x y todo -> Hx. right.
  apply (equivalent_loop_turn_same a ma fuel x todo Ha Hfits Hma).
Qed.

Lemma equivalent_exchange (a b : @segment_tree mpoint) :
  well_formed a -> well_formed b ->
  vec_size (segments a) <= mnpos -> vec_size (segments b) <= mnpos ->
  equivalent b a = equivalent a b.
Proof.
  intros Ha Hb Hfa Hfb. unfold equivalent, equivalent_by.
  rewrite (N.eqb_sym (size b)).
  destruct (size a =? size b) eqn:Hsz; [|reflexivity]. cbn [negb].
  apply N.eqb_eq in Hsz.
  rewrite (size_small a Hfa), (size_small b Hfb) in Hsz.
  assert (length (segments b) = length (segments a)) as ->.
  { unfold vec_size, segments in *. lia. }
  destruct (tree_to_children_at a Ha) as (ma & -> & Hma).
  destruct (tree_to_children_at b Hb) as (mb & -> & Hmb).
  cbn [bind].
  apply (equivalent_loop_swap a b ma mb Hma Hmb _ [(mnpos, mnpos)]).
Qed.

(** [equivalent(T, T)] is true for every forest [T] built by appends whose
    size fits [msize_t], siblings with one geometry and tag included. *)
Theorem equivalent_reflexive (T : @segment_tree mpoint) :
  reachable T -> vec_size (segments T) <= mnpos ->
  equivalent T T = Return true.
Proof.
  intros HT Hfits. apply equivalent_same; [|exact Hfits].
  now apply reachable_well_formed.
Qed.

(** On two forests built by appends whose sizes fit [msize_t],
    [equivalent] returns a verdict, and the same verdict with its
    arguments exchanged. *)
Theorem equivalent_symmetric (a b : @segment_tree mpoint) :
  reachable a -> reachable b ->
  vec_size (segments a) <= mnpos -> vec_size (segments b) <= mnpos ->
  exists r, equivalent a b = Return r /\ equivalent b a = Return r.
Proof.
  intros Ha Hb Hfa Hfb.
  apply reachable_well_formed in Ha, Hb.
  destruct (equivalent_returns a b Ha Hb Hfa) as [r Hr].
  exists r. split; [exact Hr|].
  now rewrite (equivalent_exchange a b Ha Hb Hfa Hfb).
Qed.

End EquivalentRelation.

Lemma equivalent_reflexive_witness :
  equivalent tied_siblings tied_siblings = Return true.
Proof.
  apply (equivalent_reflexive tied_siblings).
  - exact tied_siblings_reachable.
  - vm_compute. discriminate.
Defined.

Lemma equivalent_symmetric_witness :
  exists r, equivalent sample_tree tied_siblings = Return r /\
            equivalent tied_siblings sample_tree = Return r.
Proof.
  apply (equivalent_symmetric sample_tree tied_siblings).
  - exact sample_tree_reachable.
  - exact tied_siblings_reachable.
  - vm_compute. discriminate.
  - vm_compute. discriminate.
Defined.

(** ** What [split_at] and [join_at] return *)

(** A numbering that is one to one from [dom] onto [m] indices from [lo]
    on has [m] arguments. *)
Lemma numbering_length (image : gmap N N) (dom : list N) (lo : N) (m : nat) :
  NoDup dom ->
  (forall x, x ∈ dom -> is_Some (image !! x)) ->
  (forall x x' y, image !! x = Some y -> image !! x' = Some y -> x = x') ->
  (forall x y, image !! x = Some y -> lo <= y /\ y < lo + N.of_nat m) ->
  (forall y, lo <= y -> y < lo + N.of_nat m ->
     exists x, x ∈ dom /\ image !! x = Some y) ->
  length dom = m.
Proof.
  intros Hnd Hdom Hinj Hrange Honto.
  set (f := fun x => default 0 (image !! x) - lo).
  assert (forall x y, image !! x = Some y -> f x = y - lo) as Hf.
  { intros x y Hxy. unfold f. now rewrite Hxy. }
  rewrite <- (length_fmap f dom). apply Nat.le_antisymm.
  - apply NoDup_bounded_length.
    + apply NoDup_fmap_2_strong; [|exact Hnd].
      intros x x' Hx Hx' Heq.
      destruct (Hdom x Hx) as [y Hy]. destruct (Hdom x' Hx') as [y' Hy'].
      rewrite (Hf _ _ Hy), (Hf _ _ Hy') in Heq.
      apply Hrange in Hy as Hr. apply Hrange in Hy' as Hr'.
      apply (Hinj x x' y); [exact Hy|]. rewrite Hy'. f_equal. lia.
    + intros z Hz. apply list_elem_of_fmap in Hz as (x & -> & Hx).
      destruct (Hdom x Hx) as [y Hy]. rewrite (Hf _ _ Hy).
      apply Hrange in Hy. lia.
  - apply covering_length. intros z Hz.
    destruct (Honto (lo + z)) as (x & Hx & Hy); [lia..|].
    apply list_elem_of_fmap. exists x. split; [|exact Hx].
    rewrite (Hf _ _ Hy). lia.
Qed.

(** A list of [n] indices below [n] without repetition holds them all. *)
Lemma NoDup_full (l : list N) (n : nat) :
  NoDup l -> (forall x, x ∈ l -> x < N.of_nat n) -> length l = n ->
  forall x, x < N.of_nat n -> x ∈ l.
Proof.
  intros Hnd Hlt Hlen x Hx.
  assert (l ⊆+ make_span (N.of_nat n)) as Hsub.
  { apply NoDup_submseteq; [exact Hnd|].
    intros y Hy. apply elem_of_make_span, Hlt, Hy. }
  apply submseteq_length_Permutation in Hsub.
  - rewrite Hsub. now apply elem_of_make_span.
  - unfold make_span. rewrite length_map, length_seq, Nat2N.id. lia.
Qed.

Section SplitPartition.

Context {mpoint : Type}.
Variables (T : @segment_tree mpoint) (k : N).
Variables (pre post : @segment_tree mpoint) (rho_pre rho_post : gmap N N).
Hypothesis pre_copy : copied_without T k pre rho_pre.
Hypothesis post_copy : copied_subtree T k post rho_post.
Hypothesis below_fits : forall x, below T k x -> x < vec_size (segments T).

(** The two trees of a split have the segments of the forest between
    them. *)
Lemma split_sizes :
  vec_size (segments pre) + vec_size (segments post) = vec_size (segments T).
Proof.
  destruct pre_copy as [Wdom Wonto Winj Wseg _].
  destruct post_copy as [Sdom _ Sonto Sinj Sseg _ _].
  set (span := make_span (vec_size (segments T))).
  set (dpre := filter (fun x => is_Some (rho_pre !! x)) span).
  set (dpost := filter (fun x => is_Some (rho_post !! x)) span).
  assert (forall x, x ∈ span <-> x < vec_size (segments T)) as Hspan.
  { intros x. unfold span, vec_size. apply elem_of_make_span. }
  assert (NoDup span) as Hnd by (apply make_span_NoDup).
  assert (length dpre = length (segments pre)) as Hpre.
  { apply (numbering_length rho_pre dpre 0).
    - now apply NoDup_filter.
    - intros x Hx. now apply list_elem_of_filter in Hx as [Hx _].
    - exact Winj.
    - intros x y Hxy. destruct (Wseg x y Hxy) as (s & s' & _ & Hs' & _).
      apply lookup_lt_Some in Hs'. lia.
    - intros y _ Hy. destruct (Wonto y) as [x Hx]; [unfold vec_size; lia|].
      exists x. split; [|exact Hx]. apply list_elem_of_filter.
      split; [eauto|]. apply Hspan. apply Wdom. eauto. }
  assert (length dpost = length (segments post)) as Hpost.
  { apply (numbering_length rho_post dpost 0).
    - now apply NoDup_filter.
    - intros x Hx. now apply list_elem_of_filter in Hx as [Hx _].
    - exact Sinj.
    - intros x y Hxy. destruct (Sseg x y Hxy) as (s & s' & _ & Hs' & _).
      apply lookup_lt_Some in Hs'. lia.
    - intros y _ Hy. destruct (Sonto y) as [x Hx]; [unfold vec_size; lia|].
      exists x. split; [|exact Hx]. apply list_elem_of_filter.
      split; [eauto|]. apply Hspan, below_fits, Sdom. eauto. }
  assert (length (dpre ++ dpost) = length (segments T)) as Hall.
  { apply Nat.le_antisymm.
    - apply NoDup_bounded_length.
      + apply NoDup_app. split; [now apply NoDup_filter|].
        split; [|now apply NoDup_filter].
        intros x Hx Hx'. apply list_elem_of_filter in Hx as [Hx _].
        apply list_elem_of_filter in Hx' as [Hx' _].
        apply Wdom in Hx as [_ Hx]. apply Hx, Sdom, Hx'.
      + intros x Hx. apply elem_of_app in Hx as [Hx|Hx];
          apply list_elem_of_filter in Hx as [_ Hx]; now apply Hspan.
    - apply covering_length. intros x Hx. apply elem_of_app.
      destruct (rho_post !! x) as [y|] eqn:Hy.
      + right. apply list_elem_of_filter. split; [rewrite Hy; eauto|].
        now apply Hspan.
      + left. apply list_elem_of_filter. split; [|now apply Hspan].
        apply Wdom. split; [exact Hx|]. intros Hb. apply Sdom in Hb as [y' Hy'].
        congruence. }
  rewrite length_app in Hall. unfold vec_size. lia.
Qed.

End SplitPartition.

Section SplitClaims.

Context {mpoint : Type}.
Implicit Types (T pre post : @segment_tree mpoint) (k : msize_t).

(** On a forest built by appends whose size fits [msize_t], [split_at]
    throws invalid-parent, with the index and the size, when the index is
    the sentinel or is not below the size, and returns two trees for every
    other index. *)
Theorem split_at_throws_exactly T k :
  reachable T -> vec_size (segments T) <= mnpos ->
  (size T <= k \/ k = mnpos ->
     split_at T k = Throw (invalid_segment_parent k (size T))) /\
  (~ (size T <= k \/ k = mnpos) ->
     exists pre post, split_at T k = Return (pre, post)).
Proof.
  intros HT Hfits. apply reachable_well_formed in HT. split.
  - intros Hk. unfold split_at.
    assert ((size T <=? k) || (k =? mnpos) = true) as ->; [|reflexivity].
    apply orb_true_iff. rewrite N.leb_le, N.eqb_eq. exact Hk.
  - intros Hk. rewrite (size_small T Hfits) in Hk.
    destruct (split_at_spec T k HT Hfits) as (pre & post & _ & _ & Hs & _);
      [unfold vec_size, segments in *; lia|eauto].
Qed.

(** [split_at] at a valid index returns two well-formed trees that hold
    the segments of the forest between them: [post] is a copy of the
    subtree of [k] with [k] for its first segment and only root, [pre] is
    a copy of the other segments, every segment keeps its proximal point,
    distal point and tag and hangs from the copy of its parent, and the
    sizes add up to the size of the forest. *)
Theorem split_at_partition T k :
  reachable T -> vec_size (segments T) <= mnpos -> k < size T ->
  exists pre post rho_pre rho_post,
    split_at T k = Return (pre, post) /\
    well_formed pre /\ well_formed post /\
    copied_without T k pre rho_pre /\ copied_subtree T k post rho_post /\
    size pre + size post = size T.
Proof.
  intros HT Hfits Hk. apply reachable_well_formed in HT.
  rewrite (size_small T Hfits) in *.
  destruct (split_at_spec T k HT Hfits Hk)
    as (pre & post & rho_pre & rho_post & Hs & Hpre & Hpost & Hcw & Hcs & Hle).
  exists pre, post, rho_pre, rho_post. repeat (split; [assumption|]).
  pose proof (split_sizes T k pre post rho_pre rho_post Hcw Hcs
                (below_lt T k HT Hfits Hk)) as Hsum.
  rewrite !size_small; [exact Hsum|unfold segments in *; lia..].
Qed.

End SplitClaims.

Lemma split_at_throws_exactly_witness :
  split_at sample_tree 4 = Throw (invalid_segment_parent 4 4) /\
  split_at sample_tree mnpos = Throw (invalid_segment_parent mnpos 4).
Proof.
  destruct (split_at_throws_exactly sample_tree 4 sample_tree_reachable)
    as [Hfour _]; [vm_compute; discriminate|].
  destruct (split_at_throws_exactly sample_tree mnpos sample_tree_reachable)
    as [Hnpos _]; [vm_compute; discriminate|].
  split.
  - apply Hfour. left. vm_compute. discriminate.
  - apply Hnpos. now right.
Defined.

Lemma split_at_partition_witness :
  exists pre post rho_pre rho_post,
    split_at sample_tree 1 = Return (pre, post) /\
    well_formed pre /\ well_formed post /\
    copied_without sample_tree 1 pre rho_pre /\
    copied_subtree sample_tree 1 post rho_post /\
    size pre + size post = size sample_tree.
Proof.
  apply (split_at_partition sample_tree 1).
  - exact sample_tree_reachable.
  - vm_compute. discriminate.
  - vm_compute. reflexivity.
Defined.

Section JoinGraft.

Context {mpoint : Type}.
Variables (lhs rhs : @segment_tree mpoint) (at_ : msize_t).
Hypothesis lhs_wf : well_formed lhs.
Hypothesis rhs_wf : well_formed rhs.
Hypothesis fits : vec_size (segments lhs) + vec_size (segments rhs) <= mnpos.
Hypothesis at_ok : at_ = mnpos \/ at_ < vec_size (segments lhs).
Hypothesis rhs_nonempty : 0 < vec_size (segments rhs).

Lemma join_at_checks : (size lhs <=? at_) && negb (at_ =? mnpos) = false.
Proof.
  destruct at_ok as [->|Hlt].
  - rewrite N.eqb_refl. apply andb_false_r.
  - rewrite (size_small lhs) by (unfold segments in *; lia).
    apply andb_false_iff. left. apply N.leb_gt. exact Hlt.
Qed.

(** [join_at] copies the first segment of [rhs] and what is below it,
    after the segments of [lhs]: [popped] are the indices of [rhs] that
    were copied. *)
Lemma join_at_grafted :
  exists joined image popped,
    join_at lhs at_ rhs = Return joined /\
    well_formed joined /\
    grafted lhs rhs at_ joined image /\
    NoDup popped /\
    (forall y, y ∈ popped <-> below rhs 0 y) /\
    length (segments joined) = (length (segments lhs) + length popped)%nat.
Proof.
  assert (vec_size (segments rhs) <= mnpos) as rhs_fits by lia.
  unfold join_at. rewrite join_at_checks.
  assert (forall e x, e ∈ [0] -> parents rhs !! N.to_nat e = Some x ->
            x < vec_size (segments rhs) -> x < 0) as Hlow.
  { intros e x He Hp Hx. apply list_elem_of_singleton in He. subst e. exfalso.
    assert (x <> mnpos) as Hne by (unfold mnpos in *; lia).
    pose proof (wf_parent_lt rhs rhs_wf _ _ Hp Hne). lia. }
  destruct (copy_run rhs (fun _ => true) at_ 0 lhs yes [] lhs ∅ [] 0
              rhs_wf fits (fun _ => eq_refl) Hlow at_ok
              (copy_invariant_init rhs (fun _ => true) at_ 0 lhs lhs_wf)
              (not_elem_of_nil 0) (N.le_refl 0) rhs_nonempty)
    as (joined & image & popped & Hrun & Hinv & _ & Hpop).
  destruct Hinv as [Hnd Hrange Horigin _ Hcopied Hclosed Himage Hinj Honto
                      Hsegs Hpars Hwf Hsize].
  cbn [map length] in *. rewrite app_nil_r in *.
  assert (forall x, is_Some (image !! x) <-> x ∈ popped) as Hdom.
  { intros x. rewrite Hcopied. tauto. }
  assert (length (segments joined) =
          (length (segments lhs) + length popped)%nat) as Hlen.
  { rewrite Hsize. now rewrite filter_all by reflexivity. }
  assert (length popped <= length (segments rhs))%nat as Hpopped.
  { apply NoDup_bounded_length; [exact Hnd|].
    intros x Hx. now apply Hrange in Hx as [_ Hx]. }
  assert (forall x y, image !! x = Some y ->
            vec_size (segments lhs) <= y /\ y < vec_size (segments joined))
    as Himg_lt.
  { intros x y Hxy. destruct (Himage x y Hxy) as (Hge & s & s' & _ & Hs' & _).
    split; [exact Hge|]. apply lookup_lt_Some in Hs'. unfold vec_size. lia. }
  assert (forall x, is_Some (image !! x) -> below rhs 0 x) as Hbelow.
  { intros x. induction x as [x IH] using index_induction. intros Hx.
    destruct (Horigin x) as [Hst|(p & Hp & Hsome)]; [now apply Hdom| |].
    - apply list_elem_of_singleton in Hst. subst x. constructor.
    - apply (below_child rhs 0 x p Hp). apply IH; [|exact Hsome].
      apply Hdom, Hrange in Hsome as [_ Hlt].
      assert (p <> mnpos) as Hne by (unfold mnpos in *; lia).
      pose proof (wf_parent_lt rhs rhs_wf _ _ Hp Hne). lia. }
  assert (is_Some (image !! 0)) as H0.
  { apply Hdom, Hpop. apply list_elem_of_here. }
  assert (forall x, below rhs 0 x -> is_Some (image !! x)) as Hcopied_all.
  { induction 1 as [|c p Hp Hb IH]; [exact H0|].
    apply Hdom. apply (Hclosed p c IH Hp).
    apply lookup_lt_Some in Hp. unfold parents in Hp.
    rewrite (wf_parents_length rhs rhs_wf) in Hp. unfold vec_size, segments. lia. }
  assert (image !! 0 = Some (vec_size (segments lhs))) as Hroot.
  { destruct H0 as [y Hy].
    destruct (N.eq_dec y (vec_size (segments lhs))) as [->|Hne]; [exact Hy|].
    exfalso. destruct (Himg_lt _ _ Hy) as [Hge Hlt].
    destruct (Honto (vec_size (segments lhs))) as [x1 Hx1]; [lia..|].
    destruct (Himage _ _ Hx1) as (_ & s & s' & _ & _ & _ & Hpar).
    destruct Hpar as [[Hst _]|[_ (p & q & _ & Hq & Hpq)]].
    - apply list_elem_of_singleton in Hst. subst x1. congruence.
    - destruct (Himg_lt _ _ Hq) as [Hq_ge Hq_lt].
      assert (q <> mnpos) as Hq_ne.
      { unfold vec_size, mnpos in *. lia. }
      pose proof (wf_parent_lt joined Hwf _ _ Hpq Hq_ne). lia. }
  exists joined, image, popped.
  split; [exact Hrun|]. split; [exact Hwf|].
  split; [|split; [exact Hnd|split; [|exact Hlen]]].
  - constructor.
    + exact Hsegs.
    + exact Hpars.
    + intros y. split; [apply Hbelow | apply Hcopied_all].
    + exact Hroot.
    + destruct (Himage _ _ Hroot) as (_ & s & s' & _ & _ & _ & Hpar).
      destruct Hpar as [[_ Hpar]|[Hns _]]; [exact Hpar|].
      exfalso. apply Hns, list_elem_of_here.
    + exact Honto.
    + exact Hinj.
    + intros y z Hyz.
      destruct (Himage y z Hyz) as (Hge & s & s' & Hs & Hs' & Hkey & _). eauto 6.
    + intros y z Hyz Hne.
      destruct (Himage y z Hyz) as (_ & s & s' & _ & _ & _ & Hpar).
      destruct Hpar as [[Hst _]|[_ Hpar]]; [|exact Hpar].
      apply list_elem_of_singleton in Hst. contradiction.
  - intros y. rewrite <- Hdom. split; [apply Hbelow | apply Hcopied_all].
Qed.

End JoinGraft.

Section FirstRoot.

Context {mpoint : Type}.
Variable rhs : @segment_tree mpoint.
Hypothesis rhs_wf : well_formed rhs.
Hypothesis rhs_fits : vec_size (segments rhs) <= mnpos.
Hypothesis rhs_nonempty : 0 < vec_size (segments rhs).

(** Every segment of [rhs] is at or below the first one exactly when no
    other segment of [rhs] is a root. *)
Lemma all_below_first :
  (forall y, y < vec_size (segments rhs) -> below rhs 0 y) <->
  (forall y, 0 < y -> y < vec_size (segments rhs) ->
     parents rhs !! N.to_nat y <> Some mnpos).
Proof.
  split.
  - intros Hall y Hy Hlt Hroot.
    pose proof (Hall y Hlt) as Hb.
    inversion Hb as [Heq|c p Hp Hbp Heq]; [lia|]. subst c.
    rewrite Hroot in Hp. inversion Hp; subst p.
    pose proof (below_lt rhs 0 rhs_wf rhs_fits rhs_nonempty _ Hbp). lia.
  - intros Hone y. induction y as [y IH] using index_induction. intros Hy.
    destruct (N.eq_dec y 0) as [->|Hne]; [constructor|].
    destruct (lookup_lt_is_Some_2 (parents rhs) (N.to_nat y)) as [q Hq].
    { unfold parents. rewrite (wf_parents_length rhs rhs_wf).
      unfold vec_size, segments in *. lia. }
    assert (q <> mnpos) as Hq_ne.
    { intros ->. apply (Hone y); [lia|exact Hy|exact Hq]. }
    pose proof (wf_parent_lt rhs rhs_wf _ _ Hq Hq_ne) as Hq_lt.
    apply (below_child rhs 0 y q Hq). apply IH; lia.
Qed.

End FirstRoot.

Section JoinClaims.

Context {mpoint : Type}.
Implicit Types (lhs rhs joined : @segment_tree mpoint).

(** [join_at] on forests built by appends, [rhs] not empty and the sizes
    together within [msize_t]: it throws invalid-parent, with [at_] and the
    size of [lhs], when [at_] is not below the size of [lhs] and is not the
    sentinel, and returns a forest for every other [at_]. *)
Theorem join_at_throws_exactly lhs at_ rhs :
  reachable lhs -> reachable rhs ->
  vec_size (segments lhs) + vec_size (segments rhs) <= mnpos ->
  0 < size rhs ->
  (size lhs <= at_ /\ at_ <> mnpos ->
     join_at lhs at_ rhs = Throw (invalid_segment_parent at_ (size lhs))) /\
  (~ (size lhs <= at_ /\ at_ <> mnpos) ->
     exists joined, join_at lhs at_ rhs = Return joined).
Proof.
  intros Hl Hr Hfits Hne. apply reachable_well_formed in Hl, Hr. split.
  - intros [Hge Hnpos]. unfold join_at.
    apply N.leb_le in Hge. apply N.eqb_neq in Hnpos.
    now rewrite Hge, Hnpos.
  - intros Hat.
    rewrite (size_small rhs) in Hne by (unfold segments in *; lia).
    rewrite (size_small lhs) in Hat by (unfold segments in *; lia).
    destruct (join_at_grafted lhs rhs at_ Hl Hr Hfits) as (joined & _ & _ & Hj & _);
      [unfold segments in *; lia|exact Hne|eauto].
Qed.

(** What [join_at] returns: the segments and the parents of [lhs] come
    first and are kept, the first segment of [rhs] follows and hangs from
    [at_] (a root when [at_] is the sentinel), and after it come the
    segments of [rhs] below its first one, each with its proximal point,
    distal point and tag and hanging from the copy of its parent. *)
Theorem join_at_grafts lhs at_ rhs :
  reachable lhs -> reachable rhs ->
  vec_size (segments lhs) + vec_size (segments rhs) <= mnpos ->
  at_ = mnpos \/ at_ < size lhs ->
  0 < size rhs ->
  exists joined image,
    join_at lhs at_ rhs = Return joined /\
    well_formed joined /\
    grafted lhs rhs at_ joined image.
Proof.
  intros Hl Hr Hfits Hat Hne. apply reachable_well_formed in Hl, Hr.
  rewrite (size_small rhs) in Hne by (unfold segments in *; lia).
  rewrite (size_small lhs) in Hat by (unfold segments in *; lia).
  destruct (join_at_grafted lhs rhs at_ Hl Hr Hfits Hat Hne)
    as (joined & image & _ & Hj & Hwf & Hg & _).
  eauto.
Qed.

(** The size of what [join_at] returns: more than the size of [lhs], the
    two sizes together at most, and the two sizes together exactly when no
    segment of [rhs] but the first is a root.  The segments under another
    root of [rhs] are left out. *)
Theorem join_at_size lhs at_ rhs :
  reachable lhs -> reachable rhs ->
  vec_size (segments lhs) + vec_size (segments rhs) <= mnpos ->
  at_ = mnpos \/ at_ < size lhs ->
  0 < size rhs ->
  exists joined,
    join_at lhs at_ rhs = Return joined /\
    size lhs < size joined /\ size joined <= size lhs + size rhs /\
    (size joined = size lhs + size rhs <->
     forall y, 0 < y -> y < size rhs -> vec_at (parents rhs) y <> Return mnpos).
Proof.
  intros Hl Hr Hfits Hat Hne. apply reachable_well_formed in Hl, Hr.
  rewrite (size_small rhs) in * by (unfold segments in *; lia).
  rewrite (size_small lhs) in * by (unfold segments in *; lia).
  destruct (join_at_grafted lhs rhs at_ Hl Hr Hfits Hat Hne)
    as (joined & image & popped & Hj & Hwf & Hg & Hnd & Hpopped & Hlen).
  assert (forall y, y ∈ popped -> y < N.of_nat (length (segments rhs))) as Hlt.
  { intros y Hy. apply Hpopped in Hy.
    apply (below_lt rhs 0 Hr) in Hy; [exact Hy|unfold segments in *; lia|exact Hne]. }
  pose proof (NoDup_bounded_length popped _ Hnd Hlt) as Hle.
  assert (0 ∈ popped) as H0 by (apply Hpopped; constructor).
  assert (0 < length popped)%nat as Hpos.
  { destruct popped; [inversion H0|simpl; lia]. }
  exists joined. split; [exact Hj|].
  rewrite (size_small joined) by (unfold vec_size, segments in *; lia).
  unfold vec_size in *. fold (segments lhs) (segments rhs) (segments joined).
  split; [lia|]. split; [lia|].
  assert (vec_size (segments rhs) <= mnpos) as Hr_fits
    by (unfold vec_size, segments in *; lia).
  pose proof (all_below_first rhs Hr Hr_fits Hne) as Hone.
  unfold vec_size in Hone.
  assert ((forall y, 0 < y -> y < N.of_nat (length (segments rhs)) ->
             vec_at (parents rhs) y <> Return mnpos) <->
          (forall y, 0 < y -> y < N.of_nat (length (segments rhs)) ->
             parents rhs !! N.to_nat y <> Some mnpos)) as ->.
  { split; intros Hall y Hy Hy' Hp; apply (Hall y Hy Hy');
      now apply vec_at_Return. }
  rewrite <- Hone. split.
  - intros Hsum y Hy. apply Hpopped.
    apply (NoDup_full popped (length (segments rhs)));
      [exact Hnd|exact Hlt|lia|exact Hy].
  - intros Hall.
    assert (length (segments rhs) <= length popped)%nat; [|lia].
    apply covering_length. intros y Hy. now apply Hpopped, Hall.
Qed.

End JoinClaims.

Lemma tied_post_reachable : reachable tied_post.
Proof.
  apply (append_all_reachable
           [(mnpos, 1%Z, 2%Z, 0%Z); (0, 2%Z, 3%Z, 0%Z)] empty_tree).
  - apply reachable_empty.
  - vm_compute. reflexivity.
Qed.

Lemma join_at_throws_exactly_witness :
  join_at sample_tree 9 tied_post = Throw (invalid_segment_parent 9 4).
Proof.
  destruct (join_at_throws_exactly sample_tree 9 tied_post) as [Hthrow _].
  - exact sample_tree_reachable.
  - exact tied_post_reachable.
  - vm_compute. discriminate.
  - vm_compute. reflexivity.
  - apply Hthrow. split; [vm_compute; discriminate|discriminate].
Defined.

Lemma join_at_grafts_witness :
  exists joined image,
    join_at sample_tree 3 tied_post = Return joined /\
    well_formed joined /\
    grafted sample_tree tied_post 3 joined image.
Proof.
  apply (join_at_grafts sample_tree 3 tied_post).
  - exact sample_tree_reachable.
  - exact tied_post_reachable.
  - vm_compute. discriminate.
  - right. vm_compute. reflexivity.
  - vm_compute. reflexivity.
Defined.

Lemma join_at_size_witness :
  exists joined,
    join_at tied_post mnpos sample_tree = Return joined /\
    size tied_post < size joined /\
    size joined <= size tied_post + size sample_tree /\
    (size joined = size tied_post + size sample_tree <->
     forall y, 0 < y -> y < size sample_tree ->
       vec_at (parents sample_tree) y <> Return mnpos).
Proof.
  apply (join_at_size tied_post mnpos sample_tree).
  - exact tied_post_reachable.
  - exact sample_tree_reachable.
  - vm_compute. discriminate.
  - now left.
  - vm_compute. reflexivity.
Defined.

(** ** More on [prune_tag] and [tag_roots] *)

Lemma for_each_keeps {A S} (P : S -> Prop) (body : S -> A -> result S) l :
  (forall s x s', P s -> body s x = Return s' -> P s') ->
  forall s out, P s -> for_each body l s = Return out -> P out.
Proof.
  intros Hstep. induction l as [|x l IH]; intros s out Hs Hrun.
  - inversion Hrun. now subst.
  - cbn [for_each] in Hrun. destruct (body s x) as [s'|e] eqn:Hb; [|discriminate].
    cbn [bind] in Hrun. apply (IH s' out); [|exact Hrun].
    now apply (Hstep s x s').
Qed.

Lemma filter_Forall {A} (P : A -> Prop) `{forall x, Decision (P x)} (l : list A) :
  Forall P l -> filter P l = l.
Proof.
  induction 1 as [|x l Hx _ IH]; [reflexivity|].
  now rewrite filter_cons, decide_True, IH by exact Hx.
Qed.

Lemma filter_none {A} (P : A -> Prop) `{forall x, Decision (P x)} (l : list A) :
  (forall x, ~ P x) -> filter P l = [].
Proof.
  intros HP. induction l as [|x l IH]; [reflexivity|].
  now rewrite filter_cons, decide_False, IH by apply HP.
Qed.

Lemma filter_none_Forall {A} (P : A -> Prop) `{forall x, Decision (P x)}
    (l : list A) :
  Forall (fun x => ~ P x) l -> filter P l = [].
Proof.
  induction 1 as [|x l Hx _ IH]; [reflexivity|].
  now rewrite filter_cons, decide_False, IH by exact Hx.
Qed.

Section PruneMore.

Context {mpoint : Type}.
Implicit Types (t out : @segment_tree mpoint).

(** Two well-formed forests with the same segments and parents are the
    same forest: the child counters follow from the parents. *)
Lemma well_formed_ext t t' :
  well_formed t -> well_formed t' -> vec_size (segments t) <= mnpos ->
  segments t' = segments t -> parents t' = parents t -> t' = t.
Proof.
  intros Hwf Hwf' Hfits Hs Hp.
  destruct t as [sg pa ch], t' as [sg' pa' ch'].
  unfold segments, parents in *. cbn in Hs, Hp, Hfits. subst sg' pa'.
  f_equal. apply list_eq. intros j.
  pose proof (wf_children_length _ Hwf) as Hl.
  pose proof (wf_children_length _ Hwf') as Hl'. cbn in Hl, Hl'.
  destruct (ch !! j) as [c|] eqn:Hc.
  - destruct (lookup_lt_is_Some_2 ch' j) as [c' Hc'].
    { apply lookup_lt_Some in Hc. lia. }
    rewrite Hc'. f_equal.
    assert (N.of_nat j <> mnpos) as Hj.
    { apply lookup_lt_Some in Hc. unfold vec_size, mnpos in *. lia. }
    pose proof (wf_count _ Hwf j c Hc Hj) as Hcount.
    pose proof (wf_count _ Hwf' j c' Hc' Hj) as Hcount'.
    unfold child_count in *. cbn in Hcount, Hcount'.
    destruct c as [n], c' as [n']. cbn in *. congruence.
  - apply lookup_ge_None in Hc. apply lookup_ge_None. lia.
Qed.

(** The forest that [prune_tag] returns is built by appends. *)
Lemma prune_tag_reachable t tg out roots :
  prune_tag t tg = Return (out, roots) -> reachable out.
Proof.
  unfold prune_tag. intros Hp.
  destruct (for_each (prune_scan_step _ _ _) _ _) as [st|]; [|discriminate].
  cbn [bind] in Hp.
  destruct (for_each (prune_copy_step _ _ _ _) _ _) as [out'|] eqn:Hcopy;
    [|discriminate].
  cbn [bind] in Hp. inversion Hp; subst out' roots. clear Hp.
  apply (for_each_keeps reachable _ _) with (s := empty_tree) (out := out) in Hcopy;
    [exact Hcopy| |apply reachable_empty].
  intros s i s' Hs Hstep. unfold prune_copy_step in Hstep.
  destruct (vec_at (segments t) i) as [seg|]; [|discriminate].
  destruct (vec_at (parents t) i) as [par|]; [|discriminate].
  cbn [bind] in Hstep.
  destruct (negb (tag seg =? tg)%Z); [|inversion Hstep; now subst].
  destruct (if negb (par =? mnpos) then _ else _) as [pruned|]; [|discriminate].
  cbn [bind] in Hstep. destruct pruned; [discriminate|].
  destruct (if negb (par =? mnpos) then _ else _) as [par'|]; [|discriminate].
  cbn [bind] in Hstep.
  destruct (append s par' (prox seg) (dist seg) (tag seg)) as [s'' [k|e]] eqn:Ha;
    [|discriminate].
  inversion Hstep; subst s''. eapply reachable_append; eauto.
Qed.

Lemma untagged_is_tagged t tg :
  Forall (fun s => tag s <> tg) (segments t) ->
  forall i, is_tagged t tg i = false.
Proof.
  intros Hall i. unfold is_tagged.
  destruct (segments t !! N.to_nat i) as [s|] eqn:Hs; [|reflexivity].
  apply Z.eqb_neq. exact (Forall_lookup_1 _ _ _ _ Hall Hs).
Qed.

Lemma untagged_pruned_below t tg k :
  (forall i, is_tagged t tg i = false) -> pruned_below t tg k = 0.
Proof.
  intros Hall. unfold pruned_below.
  rewrite filter_none; [reflexivity|].
  intros x. rewrite Hall. discriminate.
Qed.

(** Without a segment that carries the tag, [prune_tag] returns the forest
    it was given and no tag roots. *)
Lemma prune_tag_untagged t tg :
  reachable t -> vec_size (segments t) <= int_max ->
  Forall (fun s => tag s <> tg) (segments t) ->
  prune_tag t tg = Return (t, []).
Proof.
  intros Hr Hfits Hall. pose proof (reachable_well_formed t Hr) as Hwf.
  pose proof (untagged_is_tagged t tg Hall) as Hno.
  assert (forall i, is_unpruned_child t tg i = false) as Hclosed.
  { intros i. unfold is_unpruned_child.
    destruct (segments t !! N.to_nat i) as [s|]; [|reflexivity].
    destruct (parents t !! N.to_nat i) as [p|]; [|reflexivity].
    destruct (tag s =? tg)%Z; [reflexivity|].
    destruct (p =? mnpos); [reflexivity|apply Hno]. }
  destruct (prune_tag_closed t tg Hwf Hfits Hclosed) as (out & Hp & Hs & Hpa).
  assert (filter (fun i => is_tag_root t tg i = true)
                 (make_span (vec_size (segments t))) = []) as Hroots.
  { apply filter_none. intros x. unfold is_tag_root. rewrite Hno. discriminate. }
  rewrite Hroots in Hp. rewrite Hp. f_equal. f_equal.
  apply well_formed_ext; [exact Hwf| |unfold int_max, mnpos in *; lia| |].
  - apply reachable_well_formed. eapply prune_tag_reachable. exact Hp.
  - rewrite Hs, filter_Forall by exact Hall.
    apply list_eq. intros j. rewrite list_lookup_imap.
    destruct (segments t !! j) as [s|] eqn:Hsj; [|reflexivity].
    cbn. f_equal. pose proof (wf_id t Hwf j s Hsj) as Hid.
    destruct s as [i px ds tg']. cbn in *. f_equal.
    rewrite Hid. symmetry. apply to_msize_small.
    apply lookup_lt_Some in Hsj. unfold vec_size, int_max, segments in *. lia.
  - rewrite Hpa, filter_Forall.
    + pose proof (wf_parents_length t Hwf) as Hlen.
      fold (segments t) (parents t) in Hlen.
      rewrite <- (snd_zip (segments t) (parents t)) at 2 by lia.
      apply map_ext. intros [s p]. cbn. unfold renumber.
      destruct (p =? mnpos) eqn:Hpn; [now apply N.eqb_eq in Hpn|].
      rewrite (untagged_pruned_below t tg p Hno). apply N.sub_0_r.
    + apply Forall_lookup. intros j [s p] Hsp. cbn.
      apply lookup_zip_with_Some in Hsp as (s0 & p0 & Heq & Hs0 & _).
      inversion Heq; subst s0 p0.
      exact (Forall_lookup_1 _ _ _ _ Hall Hs0).
Qed.


(** Every segment that carries the tag is a tag root or has a tag root
    above it. *)
Lemma tagged_below_root t tg :
  well_formed t -> vec_size (segments t) <= mnpos ->
  forall x, is_tagged t tg x = true ->
  exists r, is_tag_root t tg r = true /\ below t r x.
Proof.
  intros Hwf Hfits x. induction x as [x IH] using index_induction. intros Hx.
  pose proof (is_tagged_lt t tg x Hx) as Hlt.
  destruct (lookup_lt_is_Some_2 (parents t) (N.to_nat x)) as [p Hp].
  { unfold parents. rewrite (wf_parents_length t Hwf).
    unfold vec_size, segments in *. lia. }
  destruct (N.eq_dec p mnpos) as [->|Hne].
  - exists x. split; [|constructor].
    unfold is_tag_root. rewrite Hx, Hp. reflexivity.
  - destruct (is_tagged t tg p) eqn:Htp.
    + pose proof (wf_parent_lt t Hwf _ _ Hp Hne) as Hpx.
      destruct (IH p) as (r & Hr & Hb); [lia|exact Htp|].
      exists r. split; [exact Hr|]. now apply (below_child t r x p).
    + exists x. split; [|constructor].
      unfold is_tag_root. rewrite Hx, Hp.
      apply N.eqb_neq in Hne. rewrite Hne, Htp. reflexivity.
Qed.

(** [prune_tag], where no segment carries the tag, is the identity. *)
Theorem prune_tag_absent_tag t tg :
  reachable t -> vec_size (segments t) <= int_max ->
  (forall i s, vec_at (segments t) i = Return s -> tag s <> tg) ->
  prune_tag t tg = Return (t, []).
Proof.
  intros Hr Hfits Hall. apply prune_tag_untagged; [exact Hr|exact Hfits|].
  apply Forall_lookup. intros j s Hj.
  apply (Hall (N.of_nat j)). apply vec_at_Return. now rewrite Nat2N.id.
Qed.


(** [tag_roots] on a forest built by appends returns a list that is empty
    exactly when no segment carries the tag, and every segment that carries
    the tag is one of the roots returned or a descendant of one. *)
Theorem tag_roots_cover t tg :
  reachable t -> vec_size (segments t) <= mnpos ->
  exists roots,
    tag_roots t tg = Return roots /\
    (forall x s, vec_at (segments t) x = Return s -> tag s = tg ->
       exists r, r ∈ roots /\ below t r x) /\
    (roots = [] <->
     forall x s, vec_at (segments t) x = Return s -> tag s <> tg).
Proof.
  intros Hr Hfits. apply reachable_well_formed in Hr.
  exists (filter (fun i => is_tag_root t tg i = true)
                 (make_span (vec_size (segments t)))).
  split; [now apply tag_roots_spec|].
  assert (forall r, is_tag_root t tg r = true ->
            r ∈ filter (fun i => is_tag_root t tg i = true)
                       (make_span (vec_size (segments t)))) as Hin.
  { intros r Hroot. apply list_elem_of_filter. split; [exact Hroot|].
    unfold vec_size. apply elem_of_make_span.
    unfold is_tag_root in Hroot.
    destruct (is_tagged t tg r) eqn:Htr; [|discriminate].
    now apply is_tagged_lt in Htr. }
  assert (forall x s, vec_at (segments t) x = Return s ->
            is_tagged t tg x = (tag s =? tg)%Z) as Htag.
  { intros x s Hs. apply vec_at_Return in Hs. unfold is_tagged. now rewrite Hs. }
  split.
  - intros x s Hs Ht.
    destruct (tagged_below_root t tg Hr Hfits x) as (r & Hroot & Hb).
    { rewrite (Htag x s Hs). now apply Z.eqb_eq. }
    exists r. split; [now apply Hin|exact Hb].
  - split.
    + intros Hnil x s Hs Ht.
      destruct (tagged_below_root t tg Hr Hfits x) as (r & Hroot & _).
      { rewrite (Htag x s Hs). now apply Z.eqb_eq. }
      apply Hin in Hroot. rewrite Hnil in Hroot. inversion Hroot.
    + intros Hnone. apply filter_none.
      intros x Hroot. unfold is_tag_root in Hroot.
      destruct (is_tagged t tg x) eqn:Htx; [|discriminate].
      unfold is_tagged in Htx.
      destruct (segments t !! N.to_nat x) as [s|] eqn:Hs; [|discriminate].
      apply Z.eqb_eq in Htx. apply (Hnone x s); [|exact Htx].
      now apply vec_at_Return.
Qed.

End PruneMore.

Lemma prune_tag_absent_tag_witness :
  prune_tag sample_tree 7 = Return (sample_tree, []).
Proof.
  apply (prune_tag_absent_tag sample_tree 7).
  - exact sample_tree_reachable.
  - vm_compute. discriminate.
  - intros i s Hs. apply vec_at_Return, list_elem_of_lookup_2 in Hs.
    repeat (apply elem_of_cons in Hs as [->|Hs]; [discriminate|]).
    inversion Hs.
Defined.


Lemma tag_roots_cover_witness :
  exists roots,
    tag_roots sample_tree 1 = Return roots /\
    (forall x s, vec_at (segments sample_tree) x = Return s -> tag s = 1%Z ->
       exists r, r ∈ roots /\ below sample_tree r x) /\
    (roots = [] <->
     forall x s, vec_at (segments sample_tree) x = Return s -> tag s <> 1%Z).
Proof.
  apply (tag_roots_cover sample_tree 1).
  - exact sample_tree_reachable.
  - vm_compute. discriminate.
Defined.

(** ** [apply] and the other operations *)

Lemma for_each_ext {A S} (body body' : S -> A -> result S) l :
  (forall s a, body s a = body' s a) ->
  forall s, for_each body l s = for_each body' l s.
Proof.
  intros Hb. induction l as [|a l IH]; intros s; [reflexivity|].
  cbn [for_each]. rewrite Hb. destruct (body' s a); cbn [bind]; auto.
Qed.

Lemma for_each_map {A S S'} (g : S -> S') (body : S -> A -> result S)
    (body' : S' -> A -> result S') l :
  (forall s a, body' (g s) a = do s' <- body s a; Return (g s')) ->
  forall s, for_each body' l (g s) = do r <- for_each body l s; Return (g r).
Proof.
  intros Hb. induction l as [|a l IH]; intros s; [reflexivity|].
  cbn [for_each]. rewrite Hb. destruct (body s a); cbn [bind]; auto.
Qed.

Section ApplyCommutes.

Context {mpoint : Type}.
Variable iso : mpoint -> mpoint.
Implicit Types (t res : @segment_tree mpoint).

(** What [apply] does to one segment. *)
Let moved (s : @msegment mpoint) : msegment :=
  mk_msegment (id s) (iso (prox s)) (iso (dist s)) (tag s).

Lemma vec_at_moved (l : list (@msegment mpoint)) i :
  vec_at (map moved l) i = do s <- vec_at l i; Return (moved s).
Proof.
  unfold vec_at. change (map moved l) with (moved <$> l).
  rewrite list_lookup_fmap. destruct (l !! N.to_nat i); reflexivity.
Qed.

Lemma segments_apply t : segments (apply t iso) = map moved (segments t).
Proof. reflexivity. Qed.

Lemma parents_apply t : parents (apply t iso) = parents t.
Proof. reflexivity. Qed.

Lemma size_apply t : size (apply t iso) = size t.
Proof. unfold size, apply, vec_size. cbn. now rewrite length_map. Qed.

Lemma append_apply t p px ds tg :
  append (apply t iso) p (iso px) (iso ds) tg =
  (apply (append t p px ds tg).1 iso, (append t p px ds tg).2).
Proof.
  unfold append. rewrite size_apply.
  destruct ((size t <=? p) && negb (p =? mnpos)); [reflexivity|].
  unfold apply. cbn [seg_children_ segments_ parents_].
  destruct (negb (p =? mnpos)).
  - destruct ((seg_children_ t ++ [child_prop_init]) !! N.to_nat p);
      cbn [fst snd seg_children_ segments_ parents_]; now rewrite map_app.
  - cbn [fst snd seg_children_ segments_ parents_]. now rewrite map_app.
Qed.

Lemma tree_to_children_apply t :
  tree_to_children (apply t iso) = tree_to_children t.
Proof. unfold tree_to_children. now rewrite size_apply. Qed.

Lemma copy_subtree_loop_apply fuel m segs predicate : forall res todo,
  copy_subtree_loop fuel m (map moved segs) predicate (apply res iso) todo =
  do r <- copy_subtree_loop fuel m segs predicate res todo;
  Return (apply r iso).
Proof.
  induction fuel as [|fuel IH]; intros res [|node todo]; try reflexivity.
  cbn [copy_subtree_loop].
  destruct (negb (predicate node)); [apply IH|].
  rewrite vec_at_moved.
  destruct (vec_at segs (node_id node)) as [seg|]; [|reflexivity].
  cbn [bind moved prox dist tag]. rewrite append_apply.
  destruct (append res (node_parent node) (prox seg) (dist seg) (tag seg))
    as [res' [cur|e]]; [apply IH|reflexivity].
Qed.

Lemma copy_subtree_if_apply t start predicate init :
  copy_subtree_if (apply t iso) start predicate (apply init iso) =
  do r <- copy_subtree_if t start predicate init; Return (apply r iso).
Proof.
  unfold copy_subtree_if. rewrite tree_to_children_apply.
  destruct (tree_to_children t) as [m|]; [|reflexivity]. cbn [bind].
  rewrite segments_apply, length_map. apply copy_subtree_loop_apply.
Qed.

Lemma split_roots_apply t : split_roots (apply t iso) = split_roots t.
Proof.
  unfold split_roots. rewrite segments_apply.
  unfold vec_size. rewrite length_map. apply for_each_ext.
  intros roots i. unfold is_root. now rewrite size_apply.
Qed.

Lemma prune_scan_step_apply (segs : list (@msegment mpoint)) pars tg st i :
  prune_scan_step (map moved segs) pars tg st i =
  prune_scan_step segs pars tg st i.
Proof.
  unfold prune_scan_step. rewrite !vec_at_moved.
  destruct (vec_at segs i) as [seg|]; [|reflexivity]. cbn [bind moved tag].
  destruct (tag seg =? tg)%Z; [|reflexivity].
  destruct (vec_at pars i) as [par|]; [|reflexivity]. cbn [bind].
  assert ((if par =? mnpos then Return true
           else do pseg <- vec_at (map moved segs) par;
                Return (negb (tag pseg =? tg)%Z)) =
          (if par =? mnpos then Return true
           else do pseg <- vec_at segs par;
                Return (negb (tag pseg =? tg)%Z))) as ->.
  { destruct (par =? mnpos); [reflexivity|]. rewrite vec_at_moved.
    destruct (vec_at segs par); reflexivity. }
  destruct (if par =? mnpos then _ else _) as [root|]; [|reflexivity].
  cbn [bind]. cbv zeta. unfold vec_size. rewrite length_map.
  destruct (vec_at segs (i + 1)); reflexivity.
Qed.

Lemma prune_copy_step_apply (segs : list (@msegment mpoint)) pars tg st out i :
  prune_copy_step (map moved segs) pars tg st (apply out iso) i =
  do r <- prune_copy_step segs pars tg st out i; Return (apply r iso).
Proof.
  unfold prune_copy_step. rewrite vec_at_moved.
  destruct (vec_at segs i) as [seg|]; [|reflexivity]. cbn [bind].
  destruct (vec_at pars i) as [par|]; [|reflexivity].
  cbn [bind moved tag id prox dist].
  destruct (negb (tag seg =? tg)%Z); [|reflexivity].
  assert ((if negb (par =? mnpos)
           then do pseg <- vec_at (map moved segs) par;
                Return (tag pseg =? tg)%Z
           else Return false) =
          (if negb (par =? mnpos)
           then do pseg <- vec_at segs par; Return (tag pseg =? tg)%Z
           else Return false)) as ->.
  { destruct (negb (par =? mnpos)); [|reflexivity]. rewrite vec_at_moved.
    destruct (vec_at segs par); reflexivity. }
  destruct (if negb (par =? mnpos) then _ else _) as [[|]|]; try reflexivity.
  cbn [bind].
  destruct (if negb (par =? mnpos) then prune_shift st par else Return par)
    as [par'|]; [|reflexivity].
  cbn [bind]. rewrite append_apply.
  destruct (append out par' (prox seg) (dist seg) (tag seg)) as [out' [k|e]];
    reflexivity.
Qed.

(** Splitting a moved forest gives the two trees of the split, moved. *)
Theorem apply_split_at t k :
  split_at (apply t iso) k =
  do pp <- split_at t k; Return (apply pp.1 iso, apply pp.2 iso).
Proof.
  unfold split_at. rewrite size_apply.
  destruct ((size t <=? k) || (k =? mnpos)); [reflexivity|].
  change (@empty_tree mpoint) with (apply (@empty_tree mpoint) iso) at 1 2.
  rewrite copy_subtree_if_apply.
  destruct (copy_subtree_if t _ yes empty_tree) as [post|]; [|reflexivity].
  cbn [bind]. rewrite split_roots_apply.
  destruct (split_roots t) as [roots|]; [|reflexivity]. cbn [bind].
  rewrite (for_each_map (fun r => apply r iso)
             (fun pre root => copy_subtree_if t (mk_node mnpos root)
                                (fun node => negb (node_id node =? k)) pre)).
  - destruct (for_each _ roots empty_tree); reflexivity.
  - intros pre root. apply copy_subtree_if_apply.
Qed.

(** Joining two moved forests gives the joined forest, moved. *)
Theorem apply_join_at lhs at_ rhs :
  join_at (apply lhs iso) at_ (apply rhs iso) =
  do joined <- join_at lhs at_ rhs; Return (apply joined iso).
Proof.
  unfold join_at. rewrite size_apply.
  destruct ((size lhs <=? at_) && negb (at_ =? mnpos)); [reflexivity|].
  apply copy_subtree_if_apply.
Qed.

(** Pruning a moved forest gives the pruned forest, moved, and the same
    tag roots; [tag_roots] does not see the move. *)
Theorem apply_prune_tag t tg :
  prune_tag (apply t iso) tg =
    (do r <- prune_tag t tg; Return (apply r.1 iso, r.2)) /\
  tag_roots (apply t iso) tg = tag_roots t tg.
Proof.
  split.
  - unfold prune_tag. rewrite segments_apply, parents_apply.
    unfold vec_size. rewrite length_map.
    rewrite (for_each_ext _ (prune_scan_step (segments t) (parents t) tg))
      by (intros st i; apply prune_scan_step_apply).
    destruct (for_each (prune_scan_step _ _ _) _ _) as [st|]; [|reflexivity].
    cbn [bind].
    change (@empty_tree mpoint) with (apply (@empty_tree mpoint) iso) at 1.
    rewrite (for_each_map (fun r => apply r iso)
               (prune_copy_step (segments t) (parents t) tg st))
      by (intros out i; apply prune_copy_step_apply).
    destruct (for_each _ _ empty_tree); reflexivity.
  - unfold tag_roots. rewrite segments_apply, parents_apply.
    unfold vec_size. rewrite length_map. apply for_each_ext.
    intros roots i. destruct (vec_at (parents t) i) as [par|]; [|reflexivity].
    cbn [bind]. rewrite vec_at_moved.
    destruct (vec_at (segments t) i) as [seg|]; [|reflexivity].
    cbn [bind moved tag]. destruct (tag seg =? tg)%Z; [|reflexivity].
    destruct (par =? mnpos); [reflexivity|]. rewrite vec_at_moved.
    destruct (vec_at (segments t) par); reflexivity.
Qed.

End ApplyCommutes.

(** * Properties of the sparse rows and matrices *)

Lemma to_unsigned_small n : n < 4294967296 -> msparse.to_unsigned n = n.
Proof. intros Hn. unfold msparse.to_unsigned. now apply N.mod_small. Qed.

Section RowFacts.

Import msparse.

Context {X : Type} {scalar : Scalar X}.
Implicit Types (data lo hi : list (@entry X)) (e : @entry X) (c : N).

Lemma increasing_cons e data :
  increasing (e :: data) <->
  Forall (fun b => col e < col b) data /\ increasing data.
Proof.
  unfold increasing. split.
  - intros Hs. apply StronglySorted_inv in Hs. tauto.
  - intros [Hall Hs]. now constructor.
Qed.

Lemma increasing_app lo hi :
  increasing (lo ++ hi) <->
  increasing lo /\ increasing hi /\
  forall a b, a ∈ lo -> b ∈ hi -> col a < col b.
Proof.
  induction lo as [|e lo IH]; cbn [app].
  - split; [intros Hs|tauto]. split; [constructor|]. split; [exact Hs|].
    intros a b Ha. inversion Ha.
  - rewrite !increasing_cons, IH, Forall_app, !Forall_forall. split.
    + intros ([Hlo Hhi] & Hs & Hs' & Hcross). repeat split; auto.
      intros a b Ha Hb. apply elem_of_cons in Ha as [->|Ha]; auto.
    + intros ([Hlo Hs] & Hs' & Hcross). repeat split; auto.
      * intros b Hb. apply Hcross; [apply list_elem_of_here|exact Hb].
      * intros a b Ha Hb. apply Hcross; [now apply list_elem_of_further|exact Hb].
Qed.

Lemma size_small_row data :
  vec_size data < 4294967296 -> size data = vec_size data.
Proof. apply to_unsigned_small. Qed.

Lemma empty_nil data :
  vec_size data < 4294967296 -> empty data = true <-> data = [].
Proof.
  intros Hfits. unfold empty. rewrite (size_small_row data Hfits), N.eqb_eq.
  unfold vec_size. destruct data; cbn; split; intros Heq;
    try reflexivity; try discriminate; lia.
Qed.

(** [check_invariant] decides the row invariant. *)
Lemma check_invariant_increasing data :
  check_invariant data = true <-> increasing data.
Proof.
  induction data as [|a [|b rest] IH].
  - split; [constructor|reflexivity].
  - split; [|reflexivity]. intros _. repeat constructor.
  - change (check_invariant (a :: b :: rest))
      with (if col b <=? col a then false else check_invariant (b :: rest)).
    rewrite (increasing_cons a). destruct (N.leb_spec (col b) (col a)) as [Hle|Hlt].
    + split; [discriminate|]. intros [Hall _].
      apply Forall_cons in Hall as [Hab _]. lia.
    + rewrite IH. split; [|tauto]. intros Hs. split; [|exact Hs].
      apply increasing_cons in Hs as [Hall _]. constructor; [exact Hlt|].
      eapply Forall_impl; [exact Hall|]. cbn. intros x Hx. lia.
Qed.

(** Where [lower_bound] cuts a row: the entries before the cut have a
    column below [c], the entries from the cut on have not. *)
Lemma lower_bound_cut data c :
  increasing data ->
  exists lo hi,
    data = lo ++ hi /\ lower_bound data c = length lo /\
    Forall (fun e => col e < c) lo /\ Forall (fun e => c <= col e) hi.
Proof.
  induction data as [|e data IH]; intros Hs.
  - exists [], []. repeat split; constructor.
  - apply increasing_cons in Hs as [Hall Hs]. cbn [lower_bound].
    destruct (N.ltb_spec (col e) c) as [Hlt|Hge].
    + destruct (IH Hs) as (lo & hi & -> & Hlb & Hlo & Hhi).
      exists (e :: lo), hi. repeat split; [now rewrite Hlb| |exact Hhi].
      now constructor.
    + exists [], (e :: data). repeat split; [constructor|].
      constructor; [exact Hge|].
      eapply Forall_impl; [exact Hall|]. cbn. intros x Hx. lia.
Qed.

Lemma lower_bound_app lo hi c :
  Forall (fun e => col e < c) lo ->
  lower_bound (lo ++ hi) c = (length lo + lower_bound hi c)%nat.
Proof.
  induction 1 as [|e lo He _ IH]; [reflexivity|]. cbn [app lower_bound length].
  apply N.ltb_lt in He. rewrite He, IH. reflexivity.
Qed.


(** The same for [upper_bound]. *)
Lemma upper_bound_cut data c :
  increasing data ->
  exists lo hi,
    data = lo ++ hi /\ upper_bound data c = length lo /\
    Forall (fun e => col e <= c) lo /\ Forall (fun e => c < col e) hi.
Proof.
  induction data as [|e data IH]; intros Hs.
  - exists [], []. repeat split; constructor.
  - apply increasing_cons in Hs as [Hall Hs]. cbn [upper_bound].
    destruct (N.ltb_spec c (col e)) as [Hlt|Hge].
    + exists [], (e :: data). repeat split; [constructor|].
      constructor; [exact Hlt|].
      eapply Forall_impl; [exact Hall|]. cbn. intros x Hx. lia.
    + destruct (IH Hs) as (lo & hi & -> & Hub & Hlo & Hhi).
      exists (e :: lo), hi. repeat split; [now rewrite Hub| |exact Hhi].
      now constructor.
Qed.

End RowFacts.

Section RowQueries.

Import msparse.

Context {X : Type} {scalar : Scalar X}.
Implicit Types (data lo hi : list (@entry X)) (e : @entry X) (c : N).

(** What [index] finds in a row that keeps the invariant: no entry of
    column [c], or the one entry of column [c] and its position. *)
Lemma index_cases data c :
  increasing data -> vec_size data <= row_npos ->
  (index data c = row_npos /\ forall e, e ∈ data -> col e <> c) \/
  (exists e, index data c <> row_npos /\ index data c < vec_size data /\
     data !! N.to_nat (index data c) = Some e /\ col e = c /\
     forall e', e' ∈ data -> col e' = c -> e' = e).
Proof.
  intros Hs Hfits.
  destruct (lower_bound_cut data c Hs) as (lo & hi & -> & Hlb & Hlo & Hhi).
  apply increasing_app in Hs as (_ & Hs_hi & _).
  rewrite Forall_forall in Hlo. unfold index. rewrite Hlb.
  rewrite lookup_app_r, Nat.sub_diag by lia.
  destruct hi as [|e hi]; cbn [lookup list_lookup].
  - left. split; [reflexivity|]. intros e He. rewrite app_nil_r in He.
    apply Hlo in He. lia.
  - apply Forall_cons in Hhi as [He Hhi].
    apply increasing_cons in Hs_hi as [Hall _]. rewrite Forall_forall in Hall.
    destruct (N.eqb_spec (col e) c) as [Heq|Hne]; cbn [negb].
    + right. exists e.
      unfold vec_size, row_npos in *. rewrite length_app in Hfits. cbn in Hfits.
      rewrite to_unsigned_small by lia. rewrite Nat2N.id.
      split; [lia|]. split; [rewrite length_app; cbn; lia|].
      split; [now rewrite lookup_app_r, Nat.sub_diag by lia|].
      split; [exact Heq|].
      intros e' He' Hc. apply elem_of_app in He' as [He'|He'].
      * apply Hlo in He'. lia.
      * apply elem_of_cons in He' as [->|He']; [reflexivity|].
        apply Hall in He'. lia.
    + left. split; [reflexivity|]. intros e' He'.
      apply elem_of_app in He' as [He'|He'].
      * apply Hlo in He'. lia.
      * apply elem_of_cons in He' as [->|He']; [exact Hne|].
        apply Hall in He'. lia.
Qed.

(** [read] returns the value stored for a column, and [X{}] for a column
    without an entry. *)
Lemma read_cases data c :
  increasing data -> vec_size data <= row_npos ->
  (forall e, e ∈ data -> col e = c -> read data c = Value (value e)) /\
  ((forall e, e ∈ data -> col e <> c) -> read data c = Value zero).
Proof.
  intros Hs Hfits. unfold read.
  destruct (index_cases data c Hs Hfits)
    as [[-> Hnone]|(e & Hne & _ & He & Hc & Huniq)].
  - rewrite N.eqb_refl. split; [|reflexivity].
    intros e He Hc. now apply Hnone in He.
  - apply N.eqb_neq in Hne. rewrite Hne, He. split.
    + intros e' He' Hc'. now rewrite (Huniq e' He' Hc').
    + intros Hnone. exfalso. apply (Hnone e); [|exact Hc].
      eapply list_elem_of_lookup_2. exact He.
Qed.

(** The constructors of [row] accept exactly the lists whose columns go
    up strictly, and throw for every other list. *)
Theorem make_row_checks (il : list (@entry X)) :
  vec_size il < 4294967296 ->
  (increasing il -> make_row il = Value il) /\
  (~ increasing il -> make_row il = Raise improper_row_element_list).
Proof.
  intros _. unfold make_row. split; intros Hs.
  - apply check_invariant_increasing in Hs. now rewrite Hs.
  - destruct (check_invariant il) eqn:Hc; [|reflexivity].
    apply check_invariant_increasing in Hc. contradiction.
Qed.

(** [index(c)] on a row that keeps the invariant is [npos] exactly when
    no entry has column [c]; any other result is a position below the
    size at which [get] returns the entry of column [c]. *)
Theorem index_finds_column data c :
  increasing data -> vec_size data <= row_npos ->
  (index data c = row_npos <-> forall e, e ∈ data -> col e <> c) /\
  (index data c <> row_npos ->
     index data c < size data /\
     exists e, get data (index data c) = Value e /\ col e = c).
Proof.
  intros Hs Hfits.
  destruct (index_cases data c Hs Hfits)
    as [[Hi Hnone]|(e & Hne & Hlt & He & Hc & _)].
  - split; [tauto|]. contradiction.
  - split.
    + split; [contradiction|]. intros Hnone. exfalso. apply (Hnone e); [|exact Hc].
      eapply list_elem_of_lookup_2. exact He.
    + intros _. rewrite size_small_row by (unfold row_npos in *; lia).
      split; [exact Hlt|]. exists e. unfold get. now rewrite He.
Qed.

(** [truncate(c)] keeps the entries with a column below [c], in their
    order, and nothing else; the row keeps its invariant. *)
Theorem truncate_keeps_below data c :
  increasing data ->
  truncate data c = filter (fun e => col e < c) data /\
  increasing (truncate data c) /\
  truncate (truncate data c) c = truncate data c.
Proof.
  intros Hs.
  destruct (lower_bound_cut data c Hs) as (lo & hi & -> & Hlb & Hlo & Hhi).
  assert (truncate (lo ++ hi) c = lo) as Ht.
  { unfold truncate. rewrite Hlb. now rewrite take_app_length. }
  rewrite Ht. split; [|split].
  - rewrite filter_app, (filter_Forall _ lo Hlo), filter_none_Forall, app_nil_r;
      [reflexivity|].
    eapply Forall_impl; [exact Hhi|]. cbn. intros e He. lia.
  - now apply increasing_app in Hs as [Hs _].
  - unfold truncate.
    rewrite <- (app_nil_r lo) at 1 2.
    rewrite (lower_bound_app lo [] c Hlo). cbn [lower_bound].
    rewrite Nat.add_0_r, app_nil_r. apply firstn_all.
Qed.

(** [push_back(e)] on a row that keeps the invariant throws exactly when
    the row has entries and the column of [e] is not above the last
    column; otherwise [e] becomes the last entry and the invariant is
    kept. *)
Theorem push_back_in_order data e :
  increasing data -> vec_size data < 4294967296 ->
  (data <> [] /\ col e <= maxcol data ->
     push_back data e = Raise cannot_push_back_out_of_order) /\
  (data = [] \/ maxcol data < col e ->
     push_back data e = Value (data ++ [e]) /\ increasing (data ++ [e])).
Proof.
  intros Hs Hfits. unfold push_back, maxcol.
  destruct (empty data) eqn:Hempty.
  - apply (empty_nil data Hfits) in Hempty. subst data. cbn [negb]. split.
    + intros [Hne _]. contradiction.
    + intros _. split; [reflexivity|]. repeat constructor.
  - assert (data <> []) as Hne.
    { intros ->. discriminate. }
    cbn [negb]. destruct (last data) as [b|] eqn:Hlast.
    + split.
      * intros [_ Hle]. apply N.leb_le in Hle. now rewrite Hle.
      * intros [Hnil|Hlt]; [contradiction|].
        assert ((col e <=? col b) = false) as -> by (apply N.leb_gt; lia).
        split; [reflexivity|].
        apply increasing_app. split; [exact Hs|]. split; [repeat constructor|].
        intros a x Ha Hx. apply list_elem_of_singleton in Hx. subst x.
        apply last_Some in Hlast as [front ->].
        apply increasing_app in Hs as (_ & _ & Hcross).
        apply elem_of_app in Ha as [Ha|Ha].
        -- pose proof (Hcross a b Ha (list_elem_of_here _ _)). lia.
        -- apply list_elem_of_singleton in Ha. subst a. exact Hlt.
    + apply last_None in Hlast. contradiction.
Qed.

(** [mincol_after(c)] on a row that keeps the invariant is the least
    column above [c], and [npos] when no column is above [c]. *)
Theorem mincol_after_least data c :
  increasing data ->
  ((forall e, e ∈ data -> col e <= c) /\ mincol_after data c = row_npos) \/
  (exists e, e ∈ data /\ mincol_after data c = col e /\ c < col e /\
     forall e', e' ∈ data -> c < col e' -> col e <= col e').
Proof.
  intros Hs.
  destruct (upper_bound_cut data c Hs) as (lo & hi & -> & Hub & Hlo & Hhi).
  apply increasing_app in Hs as (_ & Hs_hi & _).
  rewrite Forall_forall in Hlo. unfold mincol_after. rewrite Hub.
  rewrite lookup_app_r, Nat.sub_diag by lia.
  destruct hi as [|e hi]; cbn [lookup list_lookup].
  - left. split; [|reflexivity]. intros e He. rewrite app_nil_r in He.
    now apply Hlo.
  - right. exists e. apply Forall_cons in Hhi as [He _].
    apply increasing_cons in Hs_hi as [Hall _]. rewrite Forall_forall in Hall.
    split; [apply elem_of_app; right; apply list_elem_of_here|].
    split; [reflexivity|]. split; [exact He|].
    intros e' He' Hc. apply elem_of_app in He' as [He'|He'].
    + apply Hlo in He'. lia.
    + apply elem_of_cons in He' as [->|He']; [lia|].
      apply Hall in He'. lia.
Qed.

(** [mincol()] and [maxcol()] of a row that keeps the invariant and has
    entries are the columns of its first and of its last entry, and every
    column of the row lies between them; both are [npos] for a row without
    entries. *)
Theorem mincol_maxcol_bounds data :
  increasing data -> vec_size data < 4294967296 ->
  (data = [] -> mincol data = row_npos /\ maxcol data = row_npos) /\
  (data <> [] ->
     (exists e, e ∈ data /\ col e = mincol data) /\
     (exists e, e ∈ data /\ col e = maxcol data) /\
     forall e, e ∈ data -> mincol data <= col e /\ col e <= maxcol data).
Proof.
  intros Hs Hfits. split; [intros ->; split; reflexivity|]. intros Hne.
  unfold mincol, maxcol.
  assert (empty data = false) as ->.
  { destruct (empty data) eqn:He; [|reflexivity].
    now apply (empty_nil data Hfits) in He. }
  destruct data as [|a data]; [contradiction|].
  destruct (last (a :: data)) as [b|] eqn:Hlast;
    [|now apply last_None in Hlast].
  apply last_Some in Hlast as [front Hfront].
  split; [exists a; split; [apply list_elem_of_here|reflexivity]|].
  split.
  { exists b. split; [|reflexivity]. rewrite Hfront.
    apply elem_of_app. right. apply list_elem_of_here. }
  intros e He. split.
  - apply increasing_cons in Hs as [Hall _]. rewrite Forall_forall in Hall.
    apply elem_of_cons in He as [->|He]; [lia|]. apply Hall in He. lia.
  - rewrite Hfront in Hs, He. apply increasing_app in Hs as (_ & _ & Hcross).
    apply elem_of_app in He as [He|He].
    + pose proof (Hcross e b He (list_elem_of_here _ _)). lia.
    + apply list_elem_of_singleton in He. subst e. lia.
Qed.

End RowQueries.

Section RowAssign.

Import msparse.

Context {X : Type} {scalar : Scalar X}.
Implicit Types (data lo hi : list (@entry X)) (e : @entry X) (c : N) (x : X).

(** The three cases of [row[c] = x]: an entry is inserted where column
    [c] has none, and the entry of column [c] is erased or overwritten. *)
Lemma assign_cut data c x :
  increasing data ->
  exists lo hi,
    Forall (fun e => col e < c) lo /\ Forall (fun e => c < col e) hi /\
    ((data = lo ++ hi /\ assign data c x = lo ++ mk_entry c x :: hi) \/
     (exists y, data = lo ++ mk_entry c y :: hi /\
        assign data c x =
          if scalar_eqb x zero then lo ++ hi else lo ++ mk_entry c x :: hi)).
Proof.
  intros Hs.
  destruct (lower_bound_cut data c Hs) as (lo & hi & -> & Hlb & Hlo & Hhi).
  apply increasing_app in Hs as (_ & Hs_hi & _).
  unfold assign. rewrite Hlb.
  rewrite lookup_app_r, Nat.sub_diag by lia.
  destruct hi as [|e hi]; cbn [lookup list_lookup].
  - exists lo, []. split; [exact Hlo|]. split; [constructor|]. left.
    split; [reflexivity|]. now rewrite take_app_length, drop_app_length.
  - apply Forall_cons in Hhi as [He Hhi].
    apply increasing_cons in Hs_hi as [Hall _].
    destruct (N.eqb_spec (col e) c) as [Heq|Hne]; cbn [negb].
    + exists lo, hi. split; [exact Hlo|]. split.
      { eapply Forall_impl; [exact Hall|]. cbn. intros b Hb. lia. }
      right. exists (value e). destruct e as [ce ve]. cbn in *. subst ce.
      split; [reflexivity|]. destruct (scalar_eqb x zero).
      * rewrite take_app_length. f_equal.
        rewrite (cons_middle _ lo hi), app_assoc.
        apply drop_app_length'. rewrite length_app. cbn. lia.
      * rewrite <- (Nat.add_0_r (length lo)), insert_app_r. reflexivity.
    + exists lo, (e :: hi). split; [exact Hlo|]. split.
      { constructor; [lia|].
        eapply Forall_impl; [exact Hall|]. cbn. intros b Hb. lia. }
      left. split; [reflexivity|].
      now rewrite take_app_length, drop_app_length.
Qed.

Lemma increasing_around lo hi c x :
  Forall (fun e => col e < c) lo -> Forall (fun e => c < col e) hi ->
  increasing lo -> increasing hi ->
  increasing (lo ++ hi) /\ increasing (lo ++ mk_entry c x :: hi).
Proof.
  intros Hlo Hhi Hs_lo Hs_hi. rewrite Forall_forall in Hlo, Hhi. split.
  - apply increasing_app. split; [exact Hs_lo|]. split; [exact Hs_hi|].
    intros a b Ha Hb. apply Hlo in Ha. apply Hhi in Hb. lia.
  - apply increasing_app. split; [exact Hs_lo|]. split.
    + apply increasing_cons. split; [|exact Hs_hi].
      apply Forall_forall. intros b Hb. now apply Hhi.
    + intros a b Ha Hb. apply Hlo in Ha.
      apply elem_of_cons in Hb as [->|Hb]; [exact Ha|]. apply Hhi in Hb. lia.
Qed.

(** [row[c] = x] on a row that keeps the invariant: the invariant is kept,
    the entries of the other columns are the ones before, and column [c]
    has the entry [(c, x)] or, when an entry was erased, none. *)
Lemma assign_entries data c x :
  increasing data ->
  increasing (assign data c x) /\
  (length (assign data c x) <= S (length data))%nat /\
  (forall e, col e <> c -> e ∈ assign data c x <-> e ∈ data) /\
  ((mk_entry c x ∈ assign data c x /\
    forall e, e ∈ assign data c x -> col e = c -> e = mk_entry c x) \/
   (scalar_eqb x zero = true /\
    forall e, e ∈ assign data c x -> col e <> c)).
Proof.
  intros Hs.
  destruct (assign_cut data c x Hs)
    as (lo & hi & Hlo & Hhi & [[-> ->]|(y & -> & ->)]).
  - apply increasing_app in Hs as (Hs_lo & Hs_hi & _).
    destruct (increasing_around lo hi c x Hlo Hhi Hs_lo Hs_hi) as [_ Hs'].
    rewrite Forall_forall in Hlo, Hhi.
    split; [exact Hs'|]. split; [rewrite !length_app; cbn; lia|]. split.
    + intros e He. rewrite !elem_of_app, elem_of_cons. split; [|tauto].
      intros [?|[->|?]]; [tauto|contradiction|tauto].
    + left. split; [apply elem_of_app; right; apply list_elem_of_here|].
      intros e He Hc. apply elem_of_app in He as [He|He].
      * apply Hlo in He. lia.
      * apply elem_of_cons in He as [->|He]; [reflexivity|].
        apply Hhi in He. lia.
  - apply increasing_app in Hs as (Hs_lo & Hs_hi & _).
    apply increasing_cons in Hs_hi as [_ Hs_hi].
    destruct (increasing_around lo hi c x Hlo Hhi Hs_lo Hs_hi) as [Hs0 Hs1].
    rewrite Forall_forall in Hlo, Hhi.
    assert (forall e, col e <> c ->
              e ∈ lo ++ hi <-> e ∈ lo ++ mk_entry c y :: hi) as Hmid.
    { intros e He. rewrite !elem_of_app, elem_of_cons. split; [tauto|].
      intros [?|[->|?]]; [tauto|contradiction|tauto]. }
    destruct (scalar_eqb x zero) eqn:Hx.
    + split; [exact Hs0|]. split; [rewrite !length_app; cbn; lia|].
      split; [exact Hmid|]. right. split; [reflexivity|].
      intros e He. apply elem_of_app in He as [He|He].
      * apply Hlo in He. lia.
      * apply Hhi in He. lia.
    + split; [exact Hs1|]. split; [rewrite !length_app; cbn; lia|]. split.
      * intros e He. rewrite <- (Hmid e He).
        rewrite !elem_of_app, elem_of_cons. split; [|tauto].
        intros [?|[->|?]]; [tauto|contradiction|tauto].
      * left. split; [apply elem_of_app; right; apply list_elem_of_here|].
        intros e He Hc. apply elem_of_app in He as [He|He].
        -- apply Hlo in He. lia.
        -- apply elem_of_cons in He as [->|He]; [reflexivity|].
           apply Hhi in He. lia.
Qed.

(** Reading after writing: after [row[c] = x], [row[c]] is [x] and every
    other column reads as before; the row keeps its invariant. *)
Theorem assign_then_read data c x :
  increasing data -> vec_size data < row_npos ->
  (forall y, scalar_eqb y zero = true -> y = zero) ->
  increasing (assign data c x) /\
  read (assign data c x) c = Value x /\
  forall c', c' <> c -> read (assign data c x) c' = read data c'.
Proof.
  intros Hs Hfits Hzero.
  destruct (assign_entries data c x Hs) as (Hs' & Hlen & Hother & Hc).
  assert (vec_size (assign data c x) <= row_npos) as Hfits'.
  { unfold vec_size in *. lia. }
  assert (vec_size data <= row_npos) as Hfits0 by lia.
  split; [exact Hs'|]. split.
  - destruct (read_cases (assign data c x) c Hs' Hfits') as [Hsome Hnone].
    destruct Hc as [[Hin _]|[Hx Hno]].
    + now apply (Hsome _ Hin).
    + rewrite (Hnone Hno). f_equal. symmetry. now apply Hzero.
  - intros c' Hne.
    destruct (read_cases (assign data c x) c' Hs' Hfits') as [Hsome' Hnone'].
    destruct (read_cases data c' Hs Hfits0) as [Hsome Hnone].
    destruct (index_cases data c' Hs Hfits0)
      as [[_ Hno]|(e & _ & _ & He & Hce & _)].
    + rewrite (Hnone Hno). apply Hnone'. intros e He Hce.
      apply (Hno e); [|exact Hce]. apply Hother; [congruence|exact He].
    + apply list_elem_of_lookup_2 in He.
      rewrite (Hsome e He Hce). apply Hsome'; [|exact Hce].
      apply Hother; [congruence|exact He].
Qed.

(** How [row[c] = x] changes the number of entries: one more when column
    [c] had none, also when [x] is [X{}]; one less when column [c] had an
    entry and [x] is [X{}]; the same number otherwise. *)
Theorem assign_changes_size data c x :
  increasing data ->
  ((forall e, e ∈ data -> col e <> c) ->
     length (assign data c x) = S (length data)) /\
  ((exists e, e ∈ data /\ col e = c) ->
     length (assign data c x) =
       if scalar_eqb x zero then pred (length data) else length data).
Proof.
  intros Hs.
  destruct (assign_cut data c x Hs)
    as (lo & hi & Hlo & Hhi & [[-> ->]|(y & -> & ->)]).
  - rewrite Forall_forall in Hlo, Hhi. split.
    + intros _. rewrite !length_app. cbn. lia.
    + intros (e & He & Hc). exfalso. apply elem_of_app in He as [He|He].
      * apply Hlo in He. lia.
      * apply Hhi in He. lia.
  - split.
    + intros Hno. exfalso. apply (Hno (mk_entry c y)); [|reflexivity].
      apply elem_of_app. right. apply list_elem_of_here.
    + intros _. destruct (scalar_eqb x zero); rewrite !length_app; cbn; lia.
Qed.

(** [dot(v)] throws exactly when an entry has a column that is not below
    the size of [v], and no entry of [v] is read then beyond its end;
    otherwise it returns the sum of the products, taken in the order of the
    entries and starting from [X{}]. *)
Lemma dot_loop_spec data (v : list X) : forall s,
  ((exists e, e ∈ data /\ vec_size v <= col e) ->
     dot_loop data v s = Raise right_multiplicand_too_short) /\
  ((forall e, e ∈ data -> col e < vec_size v) ->
     dot_loop data v s =
       Value (fold_left
                (fun s e => add s (mul (value e)
                                       (default zero (v !! N.to_nat (col e)))))
                data s)).
Proof.
  induction data as [|e data IH]; intros s.
  - split; [|reflexivity]. intros (e & He & _). inversion He.
  - cbn [dot_loop fold_left].
    destruct (N.leb_spec (vec_size v) (col e)) as [Hge|Hlt].
    + split; [reflexivity|]. intros Hall.
      specialize (Hall e (list_elem_of_here _ _)). lia.
    + destruct (lookup_lt_is_Some_2 v (N.to_nat (col e))) as [y Hy].
      { unfold vec_size in Hlt. lia. }
      rewrite Hy. cbn [default]. split.
      * intros (e' & He' & Hc). apply IH. exists e'. split; [|exact Hc].
        apply elem_of_cons in He' as [->|He']; [lia|exact He'].
      * intros Hall. apply IH. intros e' He'. apply Hall.
        now apply list_elem_of_further.
Qed.

(** [row::dot(v)] throws [right_multiplicand_too_short] as soon as one entry
    of the row has a column at or beyond the size of [v]; when every column
    is below that size it returns the sum of the products of each entry
    with the element of [v] at its column, added from [X{}] in the order of
    the entries. *)
Theorem dot_checks_columns data (v : list X) :
  ((exists e, e ∈ data /\ vec_size v <= col e) ->
     dot data v = Raise right_multiplicand_too_short) /\
  ((forall e, e ∈ data -> col e < vec_size v) ->
     dot data v =
       Value (fold_left
                (fun s e => add s (mul (value e)
                                       (default zero (v !! N.to_nat (col e)))))
                data zero)).
Proof. apply dot_loop_spec. Qed.

End RowAssign.

Section MatrixFacts.

Import msparse.

Context {X : Type} {scalar : Scalar X}.
Implicit Types (data : list (@entry X)) (m : @matrix X) (c : N).

(** A row with strictly increasing columns below [k] has [k] entries at
    most. *)
Lemma increasing_length data (lo k : N) :
  increasing data -> Forall (fun e => lo <= col e /\ col e < k) data ->
  N.of_nat (length data) <= k - lo.
Proof.
  revert lo. induction data as [|e data IH]; intros lo Hs Hall.
  - cbn. lia.
  - apply increasing_cons in Hs as [Habove Hs].
    apply Forall_cons in Hall as [[Hlo Hk] Hall].
    assert (N.of_nat (length data) <= k - (col e + 1)) as Hlen.
    { apply IH; [exact Hs|]. rewrite Forall_forall in *.
      intros b Hb. specialize (Habove b Hb). specialize (Hall b Hb). lia. }
    cbn [length]. lia.
Qed.

Lemma row_below_fits data c :
  increasing data -> Forall (fun e => col e < c) data -> c < 4294967296 ->
  vec_size data < 4294967296.
Proof.
  intros Hs Hall Hc.
  pose proof (increasing_length data 0 c Hs) as Hlen.
  unfold vec_size. rewrite N.sub_0_r in Hlen.
  assert (N.of_nat (length data) <= c); [|lia].
  apply Hlen. eapply Forall_impl; [exact Hall|]. cbn. intros e He. lia.
Qed.

Lemma push_back_above data (e : @entry X) :
  vec_size data < 4294967296 ->
  Forall (fun b => col b < col e) data ->
  push_back data e = Value (data ++ [e]).
Proof.
  intros Hfits Hall. unfold push_back.
  destruct (empty data) eqn:Hempty; [reflexivity|]. cbn [negb].
  destruct (last data) as [b|] eqn:Hlast.
  - apply last_Some in Hlast as [front ->].
    apply Forall_app in Hall as [_ Hb]. apply Forall_cons in Hb as [Hb _].
    apply N.leb_gt in Hb. now rewrite Hb.
  - apply last_None in Hlast. subst data. discriminate.
Qed.



(** The loop of [augment] on rows that keep the invariant with all
    columns below [c]: it throws when the values outnumber the rows from
    [r] on, after it has written into every row. *)
Lemma augment_loop_spec c : forall cd rws (r : nat),
  vec_size rws < 4294967296 -> c < 4294967296 -> (r <= length rws)%nat ->
  (forall i data, (r <= i)%nat -> rws !! i = Some data ->
     increasing data /\ Forall (fun e => col e < c) data) ->
  exists rws',
    augment_loop rws c cd (N.of_nat r) =
      (rws', if decide (r + length cd <= length rws)%nat then Value tt
             else Raise augmented_column_size_mismatch) /\
    length rws' = length rws /\
    forall i, rws' !! i = augmented_row rws c cd r i.
Proof.
  induction cd as [|v cd IH]; intros rws r Hfits Hc Hr Hok.
  - exists rws. cbn [augment_loop length].
    rewrite decide_True by lia. split; [reflexivity|]. split; [reflexivity|].
    intros i. unfold augmented_row. destruct (decide _); [|reflexivity].
    now rewrite lookup_nil.
  - cbn [augment_loop length].
    destruct (N.leb_spec (vec_size rws) (N.of_nat r)) as [Hge|Hlt].
    + unfold vec_size in Hge. exists rws.
      rewrite decide_False by lia. split; [reflexivity|]. split; [reflexivity|].
      intros i. unfold augmented_row. destruct (decide _); [|reflexivity].
      assert (rws !! i = None) as -> by (apply lookup_ge_None; lia).
      now destruct ((v :: cd) !! (i - r)%nat).
    + unfold vec_size in Hlt. rewrite Nat2N.id.
      destruct (lookup_lt_is_Some_2 rws r) as [data Hdata]; [lia|].
      rewrite Hdata. destruct (Hok r data (Nat.le_refl r) Hdata) as [Hs Hall].
      rewrite (push_back_above data (mk_entry c v));
        [|now apply (row_below_fits data c)|exact Hall].
      assert (to_unsigned (N.of_nat r + 1) = N.of_nat (S r)) as ->.
      { rewrite to_unsigned_small; unfold vec_size in *; lia. }
      destruct (IH (<[r := data ++ [mk_entry c v]]> rws) (S r))
        as (rws' & Hrun & Hlen & Hrows).
      * unfold vec_size in *. now rewrite length_insert.
      * exact Hc.
      * rewrite length_insert. lia.
      * intros i d Hi Hd. rewrite list_lookup_insert_ne in Hd by lia.
        apply (Hok i d); [lia|exact Hd].
      * exists rws'. rewrite length_insert in Hrun, Hlen.
        split; [|split; [exact Hlen|]].
        { rewrite Hrun. destruct (decide (S r + length cd <= length rws)%nat);
            [rewrite decide_True by lia|rewrite decide_False by lia];
            reflexivity. }
        intros i. rewrite Hrows. unfold augmented_row.
        destruct (decide (S r <= i)%nat) as [Hi|Hi].
        -- rewrite decide_True by lia.
           rewrite list_lookup_insert_ne by lia.
           replace (i - r)%nat with (S (i - S r)) by lia. reflexivity.
        -- destruct (decide (r <= i)%nat) as [Hri|Hri].
           ++ assert (i = r) as -> by lia. rewrite Nat.sub_diag.
              cbn [lookup list_lookup].
              rewrite list_lookup_insert_eq by lia. now rewrite Hdata.
           ++ now rewrite list_lookup_insert_ne by lia.
Qed.

(** The loop of [mul_dense] from row [i] on, when every [dot] returns:
    it throws when it comes to the end of [b] with rows left, after it has
    written the products of the rows before. *)
Lemma mul_dense_loop_spec (a : @matrix X) (x : list X) : forall turns b (i : nat),
  vec_size (rows a) < 4294967296 ->
  (i + turns <= length (rows a))%nat -> (i <= length b)%nat ->
  (forall j data e, rows a !! j = Some data -> e ∈ data ->
     col e < vec_size x) ->
  exists b',
    mul_dense_loop a x b (N.of_nat i) turns =
      (b', if decide (i + turns <= length b)%nat then Value tt
           else Raise output_sequence_b_too_short) /\
    length b' = length b /\
    forall j, b' !! j =
      if decide (i <= j /\ j < i + turns /\ j < length b)%nat
      then product_at a x j else b !! j.
Proof.
  induction turns as [|turns IH]; intros b i Hfits Hrows Hi Hcols.
  - exists b. cbn [mul_dense_loop]. rewrite decide_True by lia.
    split; [reflexivity|]. split; [reflexivity|].
    intros j. now rewrite decide_False by lia.
  - cbn [mul_dense_loop].
    destruct (N.leb_spec (vec_size b) (N.of_nat i)) as [Hge|Hlt];
      unfold vec_size in *.
    + exists b. rewrite decide_False by lia.
      split; [reflexivity|]. split; [reflexivity|].
      intros j. now rewrite decide_False by lia.
    + unfold row_at. rewrite Nat2N.id.
      destruct (lookup_lt_is_Some_2 (rows a) i) as [data Hdata]; [lia|].
      rewrite Hdata.
      destruct (dot_loop_spec data x zero) as [_ Hdot].
      unfold dot. rewrite Hdot by (intros e He; now apply (Hcols i data e)).
      set (d := fold_left _ data zero) in *.
      assert (to_unsigned (N.of_nat i + 1) = N.of_nat (S i)) as ->.
      { rewrite to_unsigned_small; lia. }
      destruct (IH (<[i := d]> b) (S i)) as (b' & Hrun & Hlen & Hb');
        [exact Hfits|lia|rewrite length_insert; lia|exact Hcols|].
      rewrite length_insert in Hrun, Hlen.
      exists b'. split; [|split; [exact Hlen|]].
      { rewrite Hrun. destruct (decide (S i + turns <= length b)%nat);
          [rewrite decide_True by lia|rewrite decide_False by lia];
          reflexivity. }
      intros j. rewrite Hb', length_insert.
      destruct (decide (S i <= j /\ j < S i + turns /\ j < length b)%nat)
        as [Hj|Hj].
      * now rewrite decide_True by lia.
      * destruct (decide (j = i)) as [->|Hne].
        -- rewrite decide_True by lia.
           rewrite list_lookup_insert_eq by lia.
           unfold product_at, dot. now rewrite Hdata, Hdot
             by (intros e He; now apply (Hcols i data e)).
        -- rewrite decide_False by lia.
           now rewrite list_lookup_insert_ne by lia.
Qed.


(** [augment] with more values than there are rows throws after it has
    written one value into every row: the matrix keeps [ncol()] and
    [augcol()] and is left with an entry of column [ncol()] at the end of
    each row. *)
Theorem augment_too_long m (cd : list X) :
  matrix_ok m -> ncol m < 4294967296 ->
  vec_size (rows m) < 4294967296 -> vec_size (rows m) < vec_size cd ->
  exists m',
    augment m cd = (m', Raise augmented_column_size_mismatch) /\
    ncol m' = ncol m /\ augcol m' = augcol m /\
    forall (i : nat) data, rows m !! i = Some data ->
      exists v, cd !! i = Some v /\
                rows m' !! i = Some (data ++ [mk_entry (ncol m) v]).
Proof.
  intros Hok Hc Hfits Hlen. destruct m as [rws c a].
  unfold matrix_ok, ncol, augcol in *. cbn [rows cols aug] in *.
  destruct (augment_loop_spec c cd rws 0 Hfits Hc (Nat.le_0_l _))
    as (rws' & Hrun & Hlen' & Hrows).
  { intros i data _ Hdata. exact (Forall_lookup_1 _ _ _ _ Hok Hdata). }
  change (N.of_nat 0) with 0 in Hrun.
  rewrite decide_False in Hrun by (unfold vec_size in *; lia).
  unfold augment. cbn [rows cols aug]. rewrite Hrun.
  eexists. split; [reflexivity|]. cbn [rows cols aug].
  split; [reflexivity|]. split; [reflexivity|].
  intros i data Hdata.
  destruct (lookup_lt_is_Some_2 cd i) as [v Hv].
  { apply lookup_lt_Some in Hdata. unfold vec_size in *. lia. }
  exists v. split; [exact Hv|]. rewrite Hrows. unfold augmented_row.
  now rewrite decide_True, Nat.sub_0_r, Hv, Hdata by lia.
Qed.

(** [mul_dense(A, x, b)], when no entry of [A] has a column beyond [x]:
    with room in [b] for every row it writes the product of row [j] and
    [x] to [b[j]] and leaves the rest of [b] as it was; with a shorter [b]
    it throws after it has filled [b] with the products of the first
    rows. *)
Theorem mul_dense_writes (a : @matrix X) (x b : list X) :
  vec_size (rows a) < 4294967296 ->
  (forall j data e, rows a !! j = Some data -> e ∈ data ->
     col e < vec_size x) ->
  (vec_size (rows a) <= vec_size b ->
     exists b', mul_dense a x b = (b', Value tt) /\
       length b' = length b /\
       forall j, b' !! j =
         if decide (j < length (rows a))%nat then product_at a x j
         else b !! j) /\
  (vec_size b < vec_size (rows a) ->
     exists b', mul_dense a x b = (b', Raise output_sequence_b_too_short) /\
       length b' = length b /\
       forall j, (j < length b)%nat -> b' !! j = product_at a x j).
Proof.
  intros Hfits Hcols. unfold mul_dense, nrow, matrix_size.
  rewrite to_unsigned_small by exact Hfits. unfold vec_size in *.
  rewrite Nat2N.id.
  destruct (mul_dense_loop_spec a x (length (rows a)) b 0)
    as (b' & Hrun & Hlen & Hb'); [exact Hfits|lia|lia|exact Hcols|].
  change (N.of_nat 0) with 0 in Hrun. cbn [Nat.add] in *. split.
  - intros Hroom. exists b'. rewrite decide_True in Hrun by lia.
    split; [exact Hrun|]. split; [exact Hlen|].
    intros j. rewrite Hb'.
    destruct (decide (j < length (rows a))%nat);
      [rewrite decide_True by lia|rewrite decide_False by lia]; reflexivity.
  - intros Hshort. exists b'. rewrite decide_False in Hrun by lia.
    split; [exact Hrun|]. split; [exact Hlen|].
    intros j Hj. rewrite Hb'. now rewrite decide_True by lia.
Qed.

End MatrixFacts.

Lemma sample_row_increasing : msparse.increasing sample_row.
Proof. apply check_invariant_increasing. reflexivity. Qed.

Lemma sample_matrix_ok : msparse.matrix_ok sample_matrix.
Proof.
  repeat constructor; cbn; try lia.
Qed.

Lemma make_row_checks_witness :
  msparse.make_row sample_row = msparse.Value sample_row /\
  msparse.make_row (rev sample_row) =
    msparse.Raise msparse.improper_row_element_list.
Proof.
  split.
  - apply (make_row_checks sample_row); [vm_compute; reflexivity|].
    exact sample_row_increasing.
  - apply (make_row_checks (rev sample_row)); [vm_compute; reflexivity|].
    intros Hs. apply check_invariant_increasing in Hs. discriminate.
Defined.

Lemma index_finds_column_witness :
  msparse.index sample_row 3 < msparse.size sample_row /\
  exists e, msparse.get sample_row (msparse.index sample_row 3) =
              msparse.Value e /\ msparse.col e = 3.
Proof.
  destruct (index_finds_column sample_row 3 sample_row_increasing) as [_ Hfound].
  - vm_compute. discriminate.
  - apply Hfound. vm_compute. discriminate.
Defined.

Lemma truncate_keeps_below_witness :
  msparse.truncate sample_row 3 =
    filter (fun e => msparse.col e < 3) sample_row /\
  msparse.increasing (msparse.truncate sample_row 3) /\
  msparse.truncate (msparse.truncate sample_row 3) 3 =
    msparse.truncate sample_row 3.
Proof. exact (truncate_keeps_below sample_row 3 sample_row_increasing). Defined.

Lemma push_back_in_order_witness :
  msparse.push_back sample_row (msparse.mk_entry 3 9%Z) =
    msparse.Raise msparse.cannot_push_back_out_of_order /\
  msparse.push_back sample_row (msparse.mk_entry 4 9%Z) =
    msparse.Value (sample_row ++ [msparse.mk_entry 4 9%Z]).
Proof.
  split.
  - destruct (push_back_in_order sample_row (msparse.mk_entry 3 9%Z)
                sample_row_increasing) as [Hthrow _];
      [vm_compute; reflexivity|].
    apply Hthrow. split; [discriminate|vm_compute; discriminate].
  - destruct (push_back_in_order sample_row (msparse.mk_entry 4 9%Z)
                sample_row_increasing) as [_ Hpush];
      [vm_compute; reflexivity|].
    apply Hpush. right. vm_compute. reflexivity.
Defined.

Lemma mincol_after_least_witness :
  ((forall e, e ∈ sample_row -> msparse.col e <= 1) /\
   msparse.mincol_after sample_row 1 = msparse.row_npos) \/
  (exists e, e ∈ sample_row /\
     msparse.mincol_after sample_row 1 = msparse.col e /\
     1 < msparse.col e /\
     forall e', e' ∈ sample_row -> 1 < msparse.col e' ->
       msparse.col e <= msparse.col e').
Proof. exact (mincol_after_least sample_row 1 sample_row_increasing). Defined.

Lemma mincol_maxcol_bounds_witness :
  (exists e, e ∈ sample_row /\ msparse.col e = msparse.mincol sample_row) /\
  (exists e, e ∈ sample_row /\ msparse.col e = msparse.maxcol sample_row) /\
  forall e, e ∈ sample_row ->
    msparse.mincol sample_row <= msparse.col e /\
    msparse.col e <= msparse.maxcol sample_row.
Proof.
  destruct (mincol_maxcol_bounds sample_row sample_row_increasing) as [_ Hb].
  - vm_compute. reflexivity.
  - apply Hb. discriminate.
Defined.

Lemma Z_scalar_zero (y : Z) : msparse.scalar_eqb y msparse.zero = true -> y = msparse.zero.
Proof. apply Z.eqb_eq. Qed.

Lemma assign_then_read_witness :
  msparse.increasing (msparse.assign sample_row 2 4%Z) /\
  msparse.read (msparse.assign sample_row 2 4%Z) 2 = msparse.Value 4%Z /\
  forall c', c' <> 2 ->
    msparse.read (msparse.assign sample_row 2 4%Z) c' =
    msparse.read sample_row c'.
Proof.
  apply (assign_then_read sample_row 2 4%Z sample_row_increasing).
  - vm_compute. reflexivity.
  - exact Z_scalar_zero.
Defined.

Lemma assign_changes_size_witness :
  length (msparse.assign sample_row 2 0%Z) = 3%nat /\
  length (msparse.assign sample_row 3 0%Z) = 1%nat.
Proof.
  destruct (assign_changes_size sample_row 2 0%Z sample_row_increasing)
    as [Hnew _].
  destruct (assign_changes_size sample_row 3 0%Z sample_row_increasing)
    as [_ Hold].
  split.
  - apply Hnew. intros e He.
    repeat (apply elem_of_cons in He as [->|He]; [discriminate|]).
    inversion He.
  - apply Hold. exists (msparse.mk_entry 3 7%Z). split; [|reflexivity].
    apply list_elem_of_further, list_elem_of_here.
Defined.


Lemma augment_too_long_witness :
  exists m',
    msparse.augment sample_matrix [7%Z; 8%Z; 9%Z] =
      (m', msparse.Raise msparse.augmented_column_size_mismatch) /\
    msparse.ncol m' = msparse.ncol sample_matrix /\
    msparse.augcol m' = msparse.augcol sample_matrix /\
    forall (i : nat) data, msparse.rows sample_matrix !! i = Some data ->
      exists v, [7%Z; 8%Z; 9%Z] !! i = Some v /\
        msparse.rows m' !! i =
          Some (data ++ [msparse.mk_entry (msparse.ncol sample_matrix) v]).
Proof.
  apply (augment_too_long sample_matrix [7%Z; 8%Z; 9%Z] sample_matrix_ok).
  - vm_compute. reflexivity.
  - vm_compute. reflexivity.
  - vm_compute. reflexivity.
Defined.

Lemma mul_dense_writes_witness :
  (exists b',
     msparse.mul_dense sample_matrix [2%Z; 3%Z] [0%Z; 0%Z; 9%Z] =
       (b', msparse.Value tt) /\
     length b' = 3%nat /\
     forall j, b' !! j =
       if decide (j < 2)%nat
       then msparse.product_at sample_matrix [2%Z; 3%Z] j
       else [0%Z; 0%Z; 9%Z] !! j) /\
  (exists b',
     msparse.mul_dense sample_matrix [2%Z; 3%Z] [0%Z] =
       (b', msparse.Raise msparse.output_sequence_b_too_short) /\
     length b' = 1%nat /\
     forall j, (j < 1)%nat ->
       b' !! j = msparse.product_at sample_matrix [2%Z; 3%Z] j).
Proof.
  assert (forall j data e, msparse.rows sample_matrix !! j = Some data ->
            e ∈ data -> msparse.col e < vec_size [2%Z; 3%Z]) as Hcols.
  { intros j data e Hj He. apply list_elem_of_lookup_2 in Hj.
    apply elem_of_cons in Hj as [->|Hj].
    - apply list_elem_of_singleton in He. subst e. vm_compute. reflexivity.
    - apply list_elem_of_singleton in Hj. subst data. inversion He. }
  split.
  - destruct (mul_dense_writes sample_matrix [2%Z; 3%Z] [0%Z; 0%Z; 9%Z])
      as [Hroom _]; [vm_compute; reflexivity|exact Hcols|].
    apply Hroom. vm_compute. discriminate.
  - destruct (mul_dense_writes sample_matrix [2%Z; 3%Z] [0%Z])
      as [_ Hshort]; [vm_compute; reflexivity|exact Hcols|].
    apply Hshort. vm_compute. reflexivity.
Defined.

(** * Further properties of the forest operations, continued *)

Section RoundTripStructure.

Context {mpoint : Type} `{PointOrder mpoint}.

(** A split followed by a join at the place of the cut rebuilds the
    forest up to the order of its segments, tied siblings or not: the
    forest that [join_at] returns is the forest that was split under a
    renaming of the indices, one to one and onto, that keeps every proximal
    point, distal point and tag and sends the parent of a segment to the
    parent of its image, a root to a root. *)
Theorem split_join_rebuilds (T : @segment_tree mpoint) (k : msize_t) :
  reachable T -> vec_size (segments T) <= mnpos -> k < size T ->
  exists pre post rho,
    split_at T k = Return (pre, post) /\
    copied_without T k pre rho /\
    forall p at_,
      vec_at (parents T) k = Return p ->
      (p = mnpos /\ at_ = mnpos \/ p <> mnpos /\ rho !! p = Some at_) ->
      exists joined sigma,
        join_at pre at_ post = Return joined /\
        well_formed joined /\
        is_reordering sigma T joined = true.
Proof.
  intros HT Hfits Hk.
  pose proof (reachable_well_formed T HT) as Hwf.
  rewrite (size_small T Hfits) in Hk.
  destruct (split_at_spec T k Hwf Hfits Hk)
    as (pre & post & rho_pre & rho_post & Hsplit & Hpre_wf & Hpost_wf &
        Hcw & Hcs & Hsizes).
  exists pre, post, rho_pre. split; [exact Hsplit|]. split; [exact Hcw|].
  intros p at_ Hp Hat. apply vec_at_Return in Hp.
  exact (split_join_reordering T k Hwf Hfits Hk pre post rho_pre rho_post
           at_ p Hpre_wf Hpost_wf Hcw Hcs Hsizes Hp Hat).
Qed.

End RoundTripStructure.

Lemma split_join_rebuilds_witness :
  exists pre post rho,
    split_at tied_siblings 1 = Return (pre, post) /\
    copied_without tied_siblings 1 pre rho /\
    forall p at_,
      vec_at (parents tied_siblings) 1 = Return p ->
      (p = mnpos /\ at_ = mnpos \/ p <> mnpos /\ rho !! p = Some at_) ->
      exists joined sigma,
        join_at pre at_ post = Return joined /\
        well_formed joined /\
        is_reordering sigma tied_siblings joined = true.
Proof.
  apply (split_join_rebuilds tied_siblings 1).
  - exact tied_siblings_reachable.
  - vm_compute. discriminate.
  - vm_compute. reflexivity.
Defined.

Section AppendQueries.

Context {mpoint : Type}.
Implicit Types (t : @segment_tree mpoint) (p i : msize_t).

(** What the queries return after a successful [append]: the new segment
    is terminal and no fork, and a root exactly when it was appended with
    the sentinel for parent; its parent is no longer terminal and is a
    fork exactly when it was not terminal before; every other segment
    answers as before. *)
Theorem append_updates_queries t p px ds tg :
  reachable t -> vec_size (segments t) < mnpos ->
  p = mnpos \/ p < size t ->
  exists t',
    append t p px ds tg = (t', Return (size t)) /\
    is_root t' (size t) = Return (p =? mnpos) /\
    is_terminal t' (size t) = Return true /\
    is_fork t' (size t) = Return false /\
    (p <> mnpos ->
       is_terminal t' p = Return false /\
       exists was, is_terminal t p = Return was /\
                   is_fork t' p = Return (negb was)) /\
    (forall i, i < size t -> i <> p ->
       is_root t' i = is_root t i /\
       is_fork t' i = is_fork t i /\
       is_terminal t' i = is_terminal t i).
Proof.
  intros Hr Hfits Hp. pose proof (reachable_well_formed t Hr) as Hwf.
  destruct Hwf as [Hpl Hcl _ _ Hcnt].
  assert (size t = vec_size (segments_ t)) as Hsize.
  { apply size_small. unfold segments in *. lia. }
  unfold vec_size, segments in *.
  set (n := length (segments_ t)) in *.
  assert (exists ch',
            append t p px ds tg =
              (mk_segment_tree (segments_ t ++ [mk_msegment (size t) px ds tg])
                               (parents_ t ++ [p]) (ch' ++ [child_prop_init]),
               Return (size t)) /\
            length ch' = n /\
            (forall j : nat, N.of_nat j <> p -> ch' !! j = seg_children_ t !! j) /\
            (p <> mnpos -> exists c,
               seg_children_ t !! N.to_nat p = Some c /\
               ch' !! N.to_nat p = Some (increment c)))
    as (ch' & Happ & Hlen & Hsame & Hpar).
  { destruct Hp as [->|Hlt].
    - exists (seg_children_ t). rewrite append_root.
      split; [reflexivity|]. split; [exact Hcl|]. split; [reflexivity|].
      intros Hne. contradiction.
    - assert (p <> mnpos) as Hne by (unfold mnpos in *; lia).
      destruct (lookup_lt_is_Some_2 (seg_children_ t) (N.to_nat p)) as [c Hc];
        [lia|].
      exists (<[N.to_nat p := increment c]> (seg_children_ t)).
      rewrite (append_child t p px ds tg c Hlt Hne Hc).
      split; [reflexivity|]. split; [now rewrite length_insert|]. split.
      + intros j Hj. apply list_lookup_insert_ne. lia.
      + intros _. exists c. split; [exact Hc|].
        apply list_lookup_insert_eq. apply lookup_lt_Some in Hc. exact Hc. }
  eexists. split; [exact Happ|].
  assert (forall s i, i <= N.of_nat n ->
            (size (mk_segment_tree (segments_ t ++ [s])
                     (parents_ t ++ [p]) (ch' ++ [child_prop_init])) <=? i)
            = false) as Hin.
  { intros s i Hi. apply N.leb_gt. rewrite size_small; cbn [segments_].
    - unfold vec_size. rewrite length_app. cbn [length]. fold n. lia.
    - unfold vec_size. rewrite length_app. cbn [length]. fold n. lia. }
  unfold is_root, is_terminal, is_fork, vec_at.
  cbn [parents_ seg_children_]. rewrite Hsize.
  rewrite !Hin by lia. rewrite Nat2N.id.
  rewrite (lookup_app_r (parents_ t)) by lia.
  rewrite (lookup_app_r ch') by lia.
  rewrite Hpl, Hlen. fold n. rewrite Nat.sub_diag. cbn [lookup list_lookup bind].
  split; [reflexivity|]. split; [reflexivity|]. split; [reflexivity|]. split.
  - intros Hne. destruct (Hpar Hne) as (c & Hc & Hc').
    assert (p < N.of_nat n) as Hlt by (destruct Hp; [contradiction|lia]).
    rewrite !Hin by lia.
    assert ((N.of_nat n <=? p) = false) as -> by (apply N.leb_gt; lia).
    rewrite (lookup_app_l_Some _ _ _ _ Hc'), Hc. cbn [bind].
    assert (N.of_nat (N.to_nat p) <> mnpos) as Hnp by (rewrite N2Nat.id; exact Hne).
    pose proof (Hcnt _ _ Hc Hnp) as Hcount.
    unfold child_is_terminal, child_is_fork, increment. cbn [count].
    split; [f_equal; apply Z.eqb_neq; lia|].
    exists (count c =? 0)%Z. split; [reflexivity|]. f_equal.
    destruct (Z.eqb_spec (count c) 0); cbn [negb];
      [apply Z.ltb_ge|apply Z.ltb_lt]; lia.
  - intros i Hi Hne. rewrite !Hin by lia.
    assert ((N.of_nat n <=? i) = false) as -> by (apply N.leb_gt; lia).
    rewrite (lookup_app_l (parents_ t)) by lia.
    rewrite (lookup_app_l ch') by lia.
    rewrite (Hsame (N.to_nat i)) by (rewrite N2Nat.id; exact Hne).
    auto.
Qed.

End AppendQueries.

Lemma append_updates_queries_witness :
  exists t',
    append sample_tree 3 5%Z 6%Z 0%Z = (t', Return (size sample_tree)) /\
    is_root t' (size sample_tree) = Return (3 =? mnpos) /\
    is_terminal t' (size sample_tree) = Return true /\
    is_fork t' (size sample_tree) = Return false /\
    (3 <> mnpos ->
       is_terminal t' 3 = Return false /\
       exists was, is_terminal sample_tree 3 = Return was /\
                   is_fork t' 3 = Return (negb was)) /\
    (forall i, i < size sample_tree -> i <> 3 ->
       is_root t' i = is_root sample_tree i /\
       is_fork t' i = is_fork sample_tree i /\
       is_terminal t' i = is_terminal sample_tree i).
Proof.
  apply (append_updates_queries sample_tree 3 5%Z 6%Z 0%Z).
  - exact sample_tree_reachable.
  - vm_compute. reflexivity.
  - right. vm_compute. reflexivity.
Defined.

(** ** What [equivalent] accepts *)

Section MatchedChildren.

Context {mpoint : Type} `{PointOrder mpoint}.

(** The pairs that [match_children] pushes: the ids of the segments of
    the two lists, position by position, which agree in their keys. *)
Lemma match_children_pairs (as_ bs : list (@msegment mpoint)) :
  forall todo todo',
  match_children as_ bs todo = Some todo' -> length as_ = length bs ->
  todo' = rev (zip_with (fun s s' => (id s, id s')) as_ bs) ++ todo /\
  Forall2 (fun s s' => segment_key s = segment_key s') as_ bs.
Proof.
  revert bs. induction as_ as [|sa as_ IH]; intros [|sb bs] todo todo' Hm Hlen;
    try discriminate.
  - inversion Hm. split; [reflexivity|constructor].
  - cbn [match_children] in Hm.
    destruct (point_eqb (prox sa) (prox sb)) eqn:Hp; [|discriminate].
    destruct (point_eqb (dist sa) (dist sb)) eqn:Hd; [|discriminate].
    destruct (tag sa =? tag sb)%Z eqn:Ht; [|discriminate].
    cbn [negb orb] in Hm.
    destruct (IH bs _ _ Hm) as [-> Hall]; [simpl in Hlen; lia|].
    split.
    + cbn [zip_with rev]. now rewrite <- app_assoc.
    + constructor; [|exact Hall]. unfold segment_key.
      apply point_eqb_eq in Hp, Hd. apply Z.eqb_eq in Ht. congruence.
Qed.

(** What [fetch_children] returns for a cursor: the segments of the
    children of the cursor, each with its index for id. *)
Lemma fetched_children (t : @segment_tree mpoint) m x :
  well_formed t -> vec_size (segments t) <= mnpos ->
  (forall q, m !!! q = children_at t q) ->
  exists sorted,
    fetch_children (@std_sort _) x (segments t) m = Return sorted /\
    map id sorted ≡ₚ children_at t x /\
    Forall (fun s => segments t !! N.to_nat (id s) = Some s) sorted.
Proof.
  intros Hwf Hfits Hm.
  destruct (fetch_children_found t m x Hm) as (found & Hf & Hall).
  assert (forall i s, segments t !! N.to_nat i = Some s -> id s = i) as Hid.
  { intros i s Hs. rewrite (wf_id t Hwf _ _ Hs), N2Nat.id.
    apply to_msize_small. apply lookup_lt_Some in Hs.
    unfold vec_size, mnpos, segments in *. lia. }
  exists (std_sort fetch_children_less found). split; [exact Hf|]. split.
  - assert (map id found = children_at t x) as <-
      by (apply (Forall2_map_fst _ _ _ _ Hall); exact Hid).
    apply Permutation_map, std_sort_perm.
  - rewrite (std_sort_perm fetch_children_less found).
    apply Forall_forall. intros s Hs.
    destruct (Forall2_elem_of_right _ _ _ _ Hall Hs) as (i & _ & Hi).
    now rewrite (Hid i s Hi).
Qed.

End MatchedChildren.

Section PairedIds.

Context {mpoint : Type}.
Implicit Types (sa sb : list (@msegment mpoint)).

Lemma zip_ids sa sb :
  length sa = length sb ->
  map fst (zip_with (fun s s' => (id s, id s')) sa sb) = map id sa /\
  map snd (zip_with (fun s s' => (id s, id s')) sa sb) = map id sb.
Proof.
  revert sb. induction sa as [|s sa IH]; intros [|s' sb] Hlen;
    try discriminate; [split; reflexivity|].
  destruct (IH sb) as [Hf Hs]; [simpl in Hlen; lia|].
  cbn [zip_with map fst snd]. now rewrite Hf, Hs.
Qed.

Lemma zip_ids_elem (K : @msegment mpoint -> @msegment mpoint -> Prop) sa sb :
  Forall2 K sa sb ->
  forall c d, (c, d) ∈ zip_with (fun s s' => (id s, id s')) sa sb ->
  exists s s', s ∈ sa /\ s' ∈ sb /\ c = id s /\ d = id s' /\ K s s'.
Proof.
  induction 1 as [|s s' sa sb Hk _ IH]; intros c d Hin; [inversion Hin|].
  cbn [zip_with] in Hin. apply elem_of_cons in Hin as [Heq|Hin].
  - inversion Heq; subst. exists s, s'.
    repeat split; auto using list_elem_of_here.
  - destruct (IH c d Hin) as (t & t' & Ht & Ht' & -> & -> & Hk').
    exists t, t'. repeat split; auto using list_elem_of_further.
Qed.

End PairedIds.

Section EquivalentSound.

Context {mpoint : Type} `{PointOrder mpoint}.
Variables a b : @segment_tree mpoint.
Hypothesis a_wf : well_formed a.
Hypothesis b_wf : well_formed b.
Hypothesis a_fits : vec_size (segments a) <= mnpos.
Hypothesis b_fits : vec_size (segments b) <= mnpos.

(** A turn of the loop that matches the children of a pair keeps the
    pairs matched. *)
Lemma matched_pairs_turn done x y rest sa sb :
  matched_pairs a b done ((x, y) :: rest) ->
  map id sa ≡ₚ children_at a x ->
  Forall (fun s => segments a !! N.to_nat (id s) = Some s) sa ->
  map id sb ≡ₚ children_at b y ->
  Forall (fun s => segments b !! N.to_nat (id s) = Some s) sb ->
  Forall2 (fun s s' => segment_key s = segment_key s') sa sb ->
  matched_pairs a b (done ++ [(x, y)])
    (rev (zip_with (fun s s' => (id s, id s')) sa sb) ++ rest).
Proof.
  intros [Hfst Hsnd Hpair Hca Hcb] Hpa Hsa Hpb Hsb Hkeys.
  set (new := rev (zip_with (fun s s' => (id s, id s')) sa sb)).
  assert (length sa = length sb) as Hlen by (now apply Forall2_length in Hkeys).
  destruct (zip_ids sa sb Hlen) as [Hzf Hzs].
  assert (map fst new ≡ₚ children_at a x) as Hnew_a.
  { unfold new. rewrite map_rev, Hzf, <- Hpa. symmetry. apply Permutation_rev. }
  assert (map snd new ≡ₚ children_at b y) as Hnew_b.
  { unfold new. rewrite map_rev, Hzs, <- Hpb. symmetry. apply Permutation_rev. }
  assert (forall c d, (c, d) ∈ new ->
            exists s s', s ∈ sa /\ s' ∈ sb /\ c = id s /\ d = id s' /\
                         segment_key s = segment_key s') as Hnew.
  { intros c d Hin. unfold new in Hin.
    apply list_elem_of_In, in_rev, list_elem_of_In in Hin.
    exact (zip_ids_elem _ sa sb Hkeys c d Hin). }
  assert (forall c, c ∈ children_at a x ->
            c < vec_size (segments a) /\ parents a !! N.to_nat c = Some x)
    as Hchild_a.
  { intros c Hc. apply elem_of_children_at in Hc.
    now rewrite (size_small a a_fits) in Hc. }
  assert (forall d, d ∈ children_at b y ->
            d < vec_size (segments b) /\ parents b !! N.to_nat d = Some y)
    as Hchild_b.
  { intros d Hd. apply elem_of_children_at in Hd.
    now rewrite (size_small b b_fits) in Hd. }
  assert (((done ++ [(x, y)]) ++ new ++ rest) ≡ₚ
          new ++ done ++ (x, y) :: rest) as Hperm.
  { rewrite <- app_assoc. cbn [app].
    rewrite (Permutation_middle new rest (x, y)).
    apply Permutation_app_swap_app. }
  assert (forall p, p ∈ (done ++ [(x, y)]) ++ new ++ rest <->
                    p ∈ new \/ p ∈ done ++ (x, y) :: rest) as Hmem.
  { intros p. rewrite Hperm. apply elem_of_app. }
  assert (forall p, p ∈ done -> p ∈ done ++ [(x, y)]) as Hdone.
  { intros p Hp. apply elem_of_app. now left. }
  assert ((x, y) ∈ done ++ (x, y) :: rest) as Hxy.
  { apply elem_of_app. right. apply list_elem_of_here. }
  constructor.
  - (* no cursor of [a] twice *)
    rewrite Hperm, map_app. apply NoDup_app.
    split; [rewrite Hnew_a; apply children_at_NoDup|]. split; [|exact Hfst].
    intros c Hc Hc'. rewrite Hnew_a in Hc. destruct (Hchild_a c Hc) as [Hlt Hp].
    apply list_elem_of_fmap in Hc' as ([c' d'] & Heq & Hin). cbn in Heq. subst c'.
    destruct (Hpair c d' Hin) as [[-> _]|(_ & _ & px & py & _ & _ & _ & Hpx & _ & Hd)].
    + unfold vec_size, mnpos in *. lia.
    + rewrite Hp in Hpx. inversion Hpx; subst px.
      rewrite map_app in Hfst. apply NoDup_app in Hfst as (_ & Hdisj & _).
      apply (Hdisj x).
      * apply list_elem_of_fmap. exists (x, py). auto.
      * cbn [map fst]. apply list_elem_of_here.
  - (* no cursor of [b] twice *)
    rewrite Hperm, map_app. apply NoDup_app.
    split; [rewrite Hnew_b; apply children_at_NoDup|]. split; [|exact Hsnd].
    intros d Hd Hd'. rewrite Hnew_b in Hd. destruct (Hchild_b d Hd) as [Hlt Hp].
    apply list_elem_of_fmap in Hd' as ([c' d'] & Heq & Hin). cbn in Heq. subst d'.
    destruct (Hpair c' d Hin) as [[_ ->]|(_ & _ & px & py & _ & _ & _ & _ & Hpy & Hdn)].
    + unfold vec_size, mnpos in *. lia.
    + rewrite Hp in Hpy. inversion Hpy; subst py.
      rewrite map_app in Hsnd. apply NoDup_app in Hsnd as (_ & Hdisj & _).
      apply (Hdisj y).
      * apply list_elem_of_fmap. exists (px, y). auto.
      * cbn [map snd]. apply list_elem_of_here.
  - (* what a pair joins *)
    intros c d Hin. apply Hmem in Hin as [Hin|Hin].
    + right. destruct (Hnew c d Hin) as (s & s' & Hs & Hs' & -> & -> & Hk).
      assert (id s ∈ children_at a x) as Hc.
      { rewrite <- Hpa. apply list_elem_of_fmap. eauto. }
      assert (id s' ∈ children_at b y) as Hd.
      { rewrite <- Hpb. apply list_elem_of_fmap. eauto. }
      destruct (Hchild_a _ Hc) as [_ Hpx]. destruct (Hchild_b _ Hd) as [_ Hpy].
      rewrite Forall_forall in Hsa, Hsb.
      exists s, s', x, y. repeat split; auto.
      apply elem_of_app. right. apply list_elem_of_here.
    + destruct (Hpair c d Hin) as [Hroot|(s & s' & px & py & H1 & H2 & H3 & H4 & H5 & H6)];
        [now left|right].
      exists s, s', px, py. repeat split; auto.
  - (* the children of a popped pair, in [a] *)
    intros x0 y0 c Hin Hp Hlt. apply elem_of_app in Hin as [Hin|Hin].
    + destruct (Hca x0 y0 c Hin Hp Hlt) as [d Hd].
      exists d. apply Hmem. now right.
    + apply list_elem_of_singleton in Hin. inversion Hin; subst x0 y0.
      assert (c ∈ map fst new) as Hc.
      { rewrite Hnew_a. apply elem_of_children_at.
        rewrite (size_small a a_fits). auto. }
      apply list_elem_of_fmap in Hc as ([c' d] & Heq & Hcd). cbn in Heq. subst c'.
      exists d. apply Hmem. now left.
  - (* the children of a popped pair, in [b] *)
    intros x0 y0 d Hin Hp Hlt. apply elem_of_app in Hin as [Hin|Hin].
    + destruct (Hcb x0 y0 d Hin Hp Hlt) as [c Hc].
      exists c. apply Hmem. now right.
    + apply list_elem_of_singleton in Hin. inversion Hin; subst x0 y0.
      assert (d ∈ map snd new) as Hd.
      { rewrite Hnew_b. apply elem_of_children_at.
        rewrite (size_small b b_fits). auto. }
      apply list_elem_of_fmap in Hd as ([c d'] & Heq & Hcd). cbn in Heq. subst d'.
      exists c. apply Hmem. now left.
Qed.

Variables ma mb : gmap N (list N).
Hypothesis ma_spec : forall q, ma !!! q = children_at a q.
Hypothesis mb_spec : forall q, mb !!! q = children_at b q.

(** A loop that ends with [true] has matched all it popped. *)
Lemma equivalent_loop_matched fuel : forall done todo,
  matched_pairs a b done todo ->
  equivalent_loop (@std_sort _) fuel a b ma mb todo = Return true ->
  exists done',
    matched_pairs a b done' [] /\ forall p, p ∈ done ++ todo -> p ∈ done'.
Proof.
  induction fuel as [|fuel IH]; intros done [|[x y] rest] Hinv Hrun;
    try (exists done; rewrite app_nil_r; split; [exact Hinv|auto]).
  - discriminate.
  - cbn [equivalent_loop] in Hrun.
    destruct (fetched_children a ma x a_wf a_fits ma_spec)
      as (sa & Hfa & Hpa & Hsa).
    destruct (fetched_children b mb y b_wf b_fits mb_spec)
      as (sb & Hfb & Hpb & Hsb).
    rewrite Hfa, Hfb in Hrun. cbn [bind] in Hrun.
    destruct (vec_size sa =? vec_size sb) eqn:Hsz; [|discriminate].
    cbn [negb] in Hrun.
    destruct (match_children sa sb rest) as [todo'|] eqn:Hm; [|discriminate].
    apply N.eqb_eq in Hsz.
    destruct (match_children_pairs sa sb rest todo' Hm) as [-> Hkeys].
    { unfold vec_size in Hsz. lia. }
    destruct (IH _ _ (matched_pairs_turn done x y rest sa sb Hinv Hpa Hsa Hpb
                        Hsb Hkeys) Hrun) as (done' & Hinv' & Hsub).
    exists done'. split; [exact Hinv'|].
    intros p Hp. apply Hsub.
    apply elem_of_app in Hp as [Hp|Hp].
    + apply elem_of_app. left. apply elem_of_app. now left.
    + apply elem_of_cons in Hp as [->|Hp].
      * apply elem_of_app. left. apply elem_of_app. right. apply list_elem_of_here.
      * apply elem_of_app. right. apply elem_of_app. now right.
Qed.

(** Pairs matched with nothing left to do are a renaming of the indices
    of [a] onto those of [b]. *)
Lemma matched_pairs_reordering done :
  matched_pairs a b done [] -> (mnpos, mnpos) ∈ done ->
  length (segments b) = length (segments a) ->
  exists sigma, is_reordering sigma a b = true.
Proof.
  intros [Hfst Hsnd Hpair Hca Hcb] Hroot Hlen.
  rewrite app_nil_r in *.
  assert (forall x y, (x, y) ∈ done -> x <> mnpos \/ y <> mnpos ->
            exists sa sb px py,
              segments a !! N.to_nat x = Some sa /\
              segments b !! N.to_nat y = Some sb /\
              segment_key sa = segment_key sb /\
              parents a !! N.to_nat x = Some px /\
              parents b !! N.to_nat y = Some py /\ (px, py) ∈ done) as Hreal.
  { intros x y Hin Hne. destruct (Hpair x y Hin) as [[-> ->]|Hr]; [tauto|exact Hr]. }
  assert (forall x y, (x, y) ∈ done -> x = mnpos <-> y = mnpos) as Hsent.
  { intros x y Hin. split; intros ->.
    - destruct (N.eq_dec y mnpos) as [->|Hne]; [reflexivity|exfalso].
      destruct (Hreal _ _ Hin) as (sa & _ & _ & _ & Hs & _); [now right|].
      apply lookup_lt_Some in Hs. unfold vec_size, mnpos in *. lia.
    - destruct (N.eq_dec x mnpos) as [->|Hne]; [reflexivity|exfalso].
      destruct (Hreal _ _ Hin) as (_ & sb & _ & _ & _ & Hs & _); [now left|].
      apply lookup_lt_Some in Hs. unfold vec_size, mnpos in *. lia. }
  assert (forall x, x < vec_size (segments a) -> exists y, (x, y) ∈ done)
    as Htotal_a.
  { intros x. induction x as [x IH] using index_induction. intros Hx.
    destruct (lookup_lt_is_Some_2 (parents a) (N.to_nat x)) as [p Hp].
    { unfold parents. rewrite (wf_parents_length a a_wf).
      unfold vec_size, segments in *. lia. }
    destruct (N.eq_dec p mnpos) as [->|Hne].
    - apply (Hca mnpos mnpos x Hroot Hp Hx).
    - pose proof (wf_parent_lt a a_wf _ _ Hp Hne) as Hlt.
      destruct (IH p) as [q Hq]; [lia|lia|].
      apply (Hca p q x Hq Hp Hx). }
  assert (forall y, y < vec_size (segments b) -> exists x, (x, y) ∈ done)
    as Htotal_b.
  { intros y. induction y as [y IH] using index_induction. intros Hy.
    destruct (lookup_lt_is_Some_2 (parents b) (N.to_nat y)) as [p Hp].
    { unfold parents. rewrite (wf_parents_length b b_wf).
      unfold vec_size, segments in *. lia. }
    destruct (N.eq_dec p mnpos) as [->|Hne].
    - apply (Hcb mnpos mnpos y Hroot Hp Hy).
    - pose proof (wf_parent_lt b b_wf _ _ Hp Hne) as Hlt.
      destruct (IH p) as [q Hq]; [lia|lia|].
      apply (Hcb q p y Hq Hp Hy). }
  set (image := list_to_map done : gmap N N).
  assert (forall x y, (x, y) ∈ done -> image !! x = Some y) as Himage.
  { intros x y Hin. apply elem_of_list_to_map; [exact Hfst|exact Hin]. }
  set (sf := fun x => default 0 (image !! x)).
  set (sigma := map sf (make_span (vec_size (segments a)))).
  assert (forall x y, (x, y) ∈ done -> x < vec_size (segments a) ->
            sigma !! N.to_nat x = Some y) as Hsigma.
  { intros x y Hin Hx. unfold sigma. change (map sf ?l) with (sf <$> l).
    rewrite list_lookup_fmap, (make_span_lookup _ _ Hx). cbn.
    unfold sf. now rewrite (Himage x y Hin). }
  assert (forall x y, (x, y) ∈ done -> x <> mnpos -> x < vec_size (segments a))
    as Hlt_a.
  { intros x y Hin Hne.
    destruct (Hreal _ _ Hin) as (sa & _ & _ & _ & Hs & _); [now left|].
    apply lookup_lt_Some in Hs. unfold vec_size. lia. }
  exists sigma. apply is_reordering_intro.
  - unfold sigma, make_span, vec_size.
    now rewrite !length_map, length_seq, Nat2N.id.
  - exact Hlen.
  - intros j Hj. destruct (Htotal_b j Hj) as [x Hx].
    assert (x <> mnpos) as Hne.
    { intros ->. pose proof (proj1 (Hsent _ _ Hx) eq_refl) as Hj'.
      unfold vec_size, mnpos in *. lia. }
    apply list_elem_of_lookup. exists (N.to_nat x).
    apply (Hsigma x j Hx). now apply (Hlt_a x j).
  - intros x Hx. destruct (Htotal_a x Hx) as [y Hy].
    destruct (Hreal x y Hy) as (sa & sb & px & py & Hsa & Hsb & Hk & Hpx & Hpy & Hp).
    { left. unfold vec_size, mnpos in *. lia. }
    apply (maps_segment_intro sigma a b _ sa px y sb py);
      [exact Hsa|exact Hpx|now apply Hsigma|exact Hsb|exact Hpy|exact Hk|].
    destruct (N.eq_dec px mnpos) as [->|Hne].
    + left. split; [reflexivity|]. now apply (Hsent _ _ Hp).
    + right. split; [exact Hne|]. apply (Hsigma px py Hp).
      now apply (Hlt_a px py).
Qed.

End EquivalentSound.

Section EquivalentSoundness.

Context {mpoint : Type} `{PointOrder mpoint}.

(** [equivalent] accepts reorderings only.  When it returns [true] for
    two forests built by appends whose sizes fit [msize_t], the second
    forest is the first under a renaming of the indices, one to one and
    onto, that keeps every proximal point, distal point and tag and sends
    the parent of a segment to the parent of its image, a root to a
    root. *)
Theorem equivalent_accepts_reorderings_only (a b : @segment_tree mpoint) :
  reachable a -> reachable b ->
  vec_size (segments a) <= mnpos -> vec_size (segments b) <= mnpos ->
  equivalent a b = Return true ->
  exists sigma, is_reordering sigma a b = true.
Proof.
  intros Ha Hb Hfa Hfb Hrun. apply reachable_well_formed in Ha, Hb.
  unfold equivalent, equivalent_by in Hrun.
  destruct (size a =? size b) eqn:Hsz; [|discriminate]. cbn [negb] in Hrun.
  apply N.eqb_eq in Hsz.
  rewrite (size_small a Hfa), (size_small b Hfb) in Hsz.
  destruct (tree_to_children_at a Ha) as (ma & Hma & Hma_spec).
  destruct (tree_to_children_at b Hb) as (mb & Hmb & Hmb_spec).
  rewrite Hma, Hmb in Hrun. cbn [bind] in Hrun.
  destruct (equivalent_loop_matched a b Ha Hb Hfa Hfb ma mb Hma_spec Hmb_spec
              (S (length (segments a))) [] [(mnpos, mnpos)])
    as (done & Hinv & Hsub); [|exact Hrun|].
  - constructor; cbn [app map fst snd].
    + apply NoDup_singleton.
    + apply NoDup_singleton.
    + intros x y Hin. apply list_elem_of_singleton in Hin.
      inversion Hin. now left.
    + intros x y c Hin. inversion Hin.
    + intros x y d Hin. inversion Hin.
  - apply (matched_pairs_reordering a b Ha Hb Hfa Hfb done Hinv).
    + apply Hsub. apply list_elem_of_here.
    + unfold vec_size, segments in *. lia.
Qed.

End EquivalentSoundness.

Lemma equivalent_accepts_reorderings_only_witness :
  exists sigma, is_reordering sigma sample_tree sample_tree_reordered = true.
Proof.
  apply (equivalent_accepts_reorderings_only sample_tree sample_tree_reordered).
  - exact sample_tree_reachable.
  - exact sample_tree_reordered_reachable.
  - vm_compute. discriminate.
  - vm_compute. discriminate.
  - vm_compute. reflexivity.
Defined.

Section MatrixColumns.

Import msparse.

Context {X : Type} {scalar : Scalar X}.
Implicit Types (data ext : list (@entry X)) (c : N).





End MatrixColumns.


